(** * jscontact-tests: the vCard matcher and the JSContact card normaliser

    A shallow embedding of [vcardutil.py] and [jscardutil.py].

    Modelling conventions.
    - A Python [str] is a [string]; a character is an [ascii], read as the
      code point of the same number (0..255).  [str.upper] is modelled on
      the ASCII letters, which is exact wherever the parser applies it
      (names are restricted to [A-Za-z0-9-]).
    - A Python exception is a value of [exn]; code that may raise returns a
      [result].
    - A Python [dict] is an association list in insertion order, looked up
      at the first binding of a key.
    - In-place mutation is explicit value passing: a function that mutates
      its argument returns the new value.  Where two names hold one object
      and both are read after a mutation (the patch map of a locale and the
      card it is applied to), the sharing is modelled: see [patch_after].
    - Recursion that is not structural takes a bound on its depth; the
      value [OutOfFuel] of [exn] is no Python exception, it says that the
      bound was too small.  For each such function a lemma gives a bound
      that is enough ([parse_params_fuel], [normalize_vcardparams_fuel],
      [normalize_jscard_total]). *)

From Stdlib Require Import List String Ascii Bool Arith ZArith Lia DecimalString.
From Stdlib Require Import Sorted Permutation.
Import ListNotations.
Open Scope string_scope.
Open Scope list_scope.
Set Warnings "-register-all".

(** ** Python values and exceptions *)

Module Py.

Inductive exn : Type :=
| ParseError (s : string)
| IndexError
| ValueError
| KeyError
| TypeError
| AttributeError
| OutOfFuel.

Inductive result (A : Type) : Type :=
| Ok (a : A)
| Raise (e : exn).
Arguments Ok {A} a.
Arguments Raise {A} e.

Definition bind {A B : Type} (r : result A) (k : A -> result B) : result B :=
  match r with
  | Ok a => k a
  | Raise e => Raise e
  end.

Notation "x <- r ;; k" := (bind r (fun x => k))
  (at level 61, r at next level, right associativity).
Notation "' p <- r ;; k" := (bind r (fun p => k))
  (at level 61, p pattern, r at next level, right associativity).

(** [[f(x) for x in l]]: the first exception raised ends the comprehension. *)
Fixpoint mapM {A B : Type} (f : A -> result B) (l : list A) : result (list B) :=
  match l with
  | [] => Ok []
  | x :: l' => y <- f x ;; ys <- mapM f l' ;; Ok (y :: ys)
  end.

(** Characters that cannot be written inside a string literal. *)
Definition dquote : ascii := "034"%char.
Definition bslash : ascii := "092"%char.
Definition CR : ascii := "013"%char.
Definition LF : ascii := "010"%char.
Definition TAB : ascii := "009"%char.

(** [s[0:n]] and [s[n:]]. *)
Fixpoint take (n : nat) (s : string) : string :=
  match n, s with
  | S n', String c s' => String c (take n' s')
  | _, _ => EmptyString
  end.

Fixpoint drop (n : nat) (s : string) : string :=
  match n, s with
  | S n', String _ s' => drop n' s'
  | _, _ => s
  end.

(** Length of the longest prefix whose characters satisfy [p]. *)
Fixpoint span (p : ascii -> bool) (s : string) : nat :=
  match s with
  | String c s' => if p c then S (span p s') else 0
  | EmptyString => 0
  end.

Definition between (lo hi : nat) (c : ascii) : bool :=
  (lo <=? nat_of_ascii c)%nat && (nat_of_ascii c <=? hi)%nat.

Definition upper_char (c : ascii) : ascii :=
  if between 97 122 c then ascii_of_nat (nat_of_ascii c - 32) else c.

Fixpoint upper (s : string) : string :=
  match s with
  | EmptyString => EmptyString
  | String c s' => String (upper_char c) (upper s')
  end.

(** [s.split(sep)] for a one-character separator. *)
Fixpoint split_char (sep : ascii) (s : string) : list string :=
  match s with
  | EmptyString => [EmptyString]
  | String c s' =>
      if Ascii.eqb c sep then EmptyString :: split_char sep s'
      else match split_char sep s' with
           | [] => [String c EmptyString]
           | p :: ps => String c p :: ps
           end
  end.

(** [re.split(r"(?<!\\)" + sep, s)]: split at every [sep] that is not
    directly preceded by a backslash.  [prev] is the character before [s]. *)
Fixpoint split_unescaped_from (sep : ascii) (prev : option ascii) (s : string)
  : list string :=
  match s with
  | EmptyString => [EmptyString]
  | String c s' =>
      let preceded :=
        match prev with
        | Some p => Ascii.eqb p bslash
        | None => false
        end in
      if Ascii.eqb c sep && negb preceded
      then EmptyString :: split_unescaped_from sep (Some c) s'
      else match split_unescaped_from sep (Some c) s' with
           | [] => [String c EmptyString]
           | p :: ps => String c p :: ps
           end
  end.

Definition split_unescaped (sep : ascii) (s : string) : list string :=
  split_unescaped_from sep None s.

(** [sep.join(l)]. *)
Fixpoint join (sep : string) (l : list string) : string :=
  match l with
  | [] => EmptyString
  | [x] => x
  | x :: l' => (x ++ sep ++ join sep l')%string
  end.

(** Python's [<=] on [str]: lexicographic on code points. *)
Definition str_le (a b : string) : bool := String.leb a b.
Definition str_lt (a b : string) : bool := negb (String.leb b a).

(** [list.sort(key=...)] is stable.  A stable sort has one possible result,
    which stable insertion computes: an element goes before the first
    element of the sorted tail whose key is not smaller. *)
Section Sort.
Context {A : Type} (le : A -> A -> bool).

Fixpoint insert (x : A) (l : list A) : list A :=
  match l with
  | [] => [x]
  | y :: l' => if le x y then x :: y :: l' else y :: insert x l'
  end.

Fixpoint sort (l : list A) : list A :=
  match l with
  | [] => []
  | x :: l' => insert x (sort l')
  end.
End Sort.

Definition sort_by_key {A : Type} (key : A -> string) (l : list A) : list A :=
  sort (fun x y => str_le (key x) (key y)) l.

(** Dictionaries. *)
Section Dict.
Context {V : Type}.

Fixpoint lookup (k : string) (d : list (string * V)) : option V :=
  match d with
  | [] => None
  | (k', v) :: d' => if String.eqb k k' then Some v else lookup k d'
  end.

(** [d[k] = v]: an existing key keeps its position. *)
Fixpoint store (k : string) (v : V) (d : list (string * V)) : list (string * V) :=
  match d with
  | [] => [(k, v)]
  | (k', v') :: d' =>
      if String.eqb k k' then (k, v) :: d' else (k', v') :: store k v d'
  end.

(** [del d[k]] on a key that is present; absent keys are the caller's case. *)
Fixpoint remove (k : string) (d : list (string * V)) : list (string * V) :=
  match d with
  | [] => []
  | (k', v') :: d' =>
      if String.eqb k k' then d' else (k', v') :: remove k d'
  end.

Definition keys (d : list (string * V)) : list string := map fst d.
Definition values (d : list (string * V)) : list V := map snd d.
End Dict.

Definition mem_str (s : string) (l : list string) : bool :=
  existsb (String.eqb s) l.

End Py.
Import Py.

(** ** vcardutil.py *)

Module VCard.

Record Param : Type := mkParam { p_name : string; p_value : string }.

(** The class [Prop] of the source; the name is taken in Rocq. *)
Record VProp : Type := mkProp {
  group : option string;
  name : string;
  params : list Param;
  value : string
}.

(** [[A-Za-z0-9-]] *)
Definition is_name_char (c : ascii) : bool :=
  between 65 90 c || between 97 122 c || between 48 57 c
  || Ascii.eqb c "-"%char.

(** [re.match("[A-Za-z0-9-]+", s)]: [m.end()], or [None]. *)
Definition re_match_name (s : string) : option nat :=
  match span is_name_char s with
  | 0 => None
  | e => Some e
  end.

(** The quoted alternative of the parameter pattern, after the opening
    quote: a lazy run of characters other than a line feed, closed by the
    first quote that no backslash precedes.  [prev] is the character before
    [s], [j] the index of the head of [s] in the value; the result is the
    index after the closing quote. *)
Fixpoint quoted_end (prev : ascii) (s : string) (j : nat) : option nat :=
  match s with
  | EmptyString => None
  | String c s' =>
      if Ascii.eqb c dquote && negb (Ascii.eqb prev bslash) then Some (S j)
      else if Ascii.eqb c LF then None
      else quoted_end c s' (S j)
  end.

(** The unquoted alternative: any character but a quote, [;] and [:]. *)
Definition is_plain_char (c : ascii) : bool :=
  negb (Ascii.eqb c dquote || Ascii.eqb c ";"%char || Ascii.eqb c ":"%char).

(** Length of the match of the value group at the head of [v]: the quoted
    alternative is tried first, then the unquoted run, which may be empty. *)
Definition param_value_end (v : string) : nat :=
  let quoted :=
    match v with
    | String c v' => if Ascii.eqb c dquote then quoted_end c v' 1 else None
    | EmptyString => None
    end in
  match quoted with
  | Some e => e
  | None => span is_plain_char v
  end.

(** [re.match] of the parameter pattern, a [;], a name, a [=] and the
    value group: [(m.group(1), m.group(2), m.end())]. *)
Definition re_match_param (s : string) : option (string * string * nat) :=
  match s with
  | String c s1 =>
      if Ascii.eqb c ";"%char then
        match re_match_name s1 with
        | None => None
        | Some e =>
            match String.get e s1 with
            | Some c' =>
                if Ascii.eqb c' "="%char then
                  let v := drop (S e) s1 in
                  let ve := param_value_end v in
                  Some (take e s1, take ve v, 1 + e + 1 + ve)
                else None
            | None => None
            end
        end
      else None
  | EmptyString => None
  end.

(** [s[i]] *)
Definition index (s : string) (i : nat) : result ascii :=
  match String.get i s with
  | Some c => Ok c
  | None => Raise IndexError
  end.

(** The parameter loop of [Prop.fromstr].  Every turn consumes at least
    two characters, so [String.length s] turns are enough; see
    [parse_params_fuel]. *)
Fixpoint parse_params (fuel : nat) (s : string) (acc : list Param)
  : result (list Param * string) :=
  c <- index s 0 ;;
  if Ascii.eqb c ";"%char then
    match re_match_param s with
    | None => Raise (ParseError s)
    | Some (n, v, e) =>
        match fuel with
        | 0 => Raise OutOfFuel
        | S fuel' => parse_params fuel' (drop e s) (acc ++ [mkParam (upper n) v])
        end
    end
  else Ok (acc, s).

Definition fromstr (s : string) : result VProp :=
  match re_match_name s with
  | None => Raise (ParseError s)
  | Some e =>
      c <- index s e ;;
      '(g, s, e) <-
        (if Ascii.eqb c "."%char then
           let g := take e s in
           let s := drop (e + 1) s in
           match re_match_name s with
           | None => Raise (ParseError s)
           | Some e => Ok (Some g, s, e)
           end
         else Ok (None, s, e)) ;;
      let nm := upper (take e s) in
      let s := drop e s in
      '(ps, s) <- parse_params (String.length s) s [] ;;
      c <- index s 0 ;;
      if negb (Ascii.eqb c ":"%char) then Raise (ParseError s)
      else Ok (mkProp g nm ps (drop 1 s))
  end.

(** [re.sub] deleting every CR LF that a space or a tab follows. *)
Fixpoint unfold_lines (s : string) : string :=
  match s with
  | EmptyString => EmptyString
  | String c s' =>
      match s' with
      | String c2 (String c3 s3) =>
          if Ascii.eqb c CR && Ascii.eqb c2 LF
             && (Ascii.eqb c3 " "%char || Ascii.eqb c3 TAB)
          then unfold_lines s3
          else String c (unfold_lines s')
      | _ => String c (unfold_lines s')
      end
  end.

(** [s.split] on CR LF. *)
Fixpoint split_crlf (s : string) : list string :=
  match s with
  | EmptyString => [EmptyString]
  | String c s' =>
      let keep :=
        match split_crlf s' with
        | [] => [String c EmptyString]
        | p :: ps => String c p :: ps
        end in
      match s' with
      | String c2 s2 =>
          if Ascii.eqb c CR && Ascii.eqb c2 LF
          then EmptyString :: split_crlf s2
          else keep
      | EmptyString => keep
      end
  end.

(** [if len(lines) and not len(lines[-1]): del lines[-1]] *)
Definition drop_last_empty (lines : list string) : list string :=
  match rev lines with
  | EmptyString :: r => rev r
  | _ => lines
  end.

Definition parse (s : string) : result (list VProp) :=
  mapM fromstr (drop_last_empty (split_crlf (unfold_lines s))).

(** [normalize_vcard].  [copy.deepcopy] is the identity on values. *)
Definition sort_params (prop : VProp) : VProp :=
  mkProp (group prop) (name prop)
         (sort_by_key p_name (sort_by_key p_value (params prop)))
         (value prop).

(** [l[1:-1]] *)
Definition inner {A : Type} (l : list A) : list A := removelast (tl l).

(** [len(vprops) > 2 and vprops[0].name == "BEGIN" and vprops[-1].name == "END"] *)
Definition wrapped (vprops : list VProp) : bool :=
  match vprops with
  | first :: _ =>
      (2 <? List.length vprops)%nat
      && String.eqb (name first) "BEGIN"
      && String.eqb (name (last vprops first)) "END"
  | [] => false
  end.

Definition sort_props (vprops : list VProp) : list VProp :=
  sort_by_key name (sort_by_key value (map sort_params vprops)).

Definition normalize_vcard (vprops : list VProp) : list VProp :=
  match vprops with
  | first :: _ =>
      if wrapped vprops
      then [first] ++ sort_props (inner vprops) ++ [last vprops first]
      else sort_props vprops
  | [] => []
  end.

(** *** Value specifications *)

(** [TextJSONValue] and [TimestampValue] decide through the [json] and
    [datetime] libraries and catch what these raise; both are a
    [LibraryValue], whose [match] is the decision the library gives. *)
Inductive Value : Type :=
| AnyValue
| NoCaseValue (val : string)
| OneOfValue (vals : list (string + Value))
| MaybeQuoted (val : string)
| MaybeEscaped (val : string)
| ComponentsValue (comps : list (string + list string))
| LibraryValue (accepts : string -> bool).

(** What a pattern holds as its value: a [str], a [Value] instance, or the
    class [AnyValue] itself, which is the default. *)
Inductive Want : Type :=
| WStr (s : string)
| WValue (v : Value)
| WAnyClass.

(** [re.sub] replacing every backslash-comma by a comma. *)
Fixpoint unescape_commas (s : string) : string :=
  match s with
  | EmptyString => EmptyString
  | String c s' =>
      match s' with
      | String c2 s2 =>
          if Ascii.eqb c bslash && Ascii.eqb c2 ","%char
          then String c2 (unescape_commas s2)
          else String c (unescape_commas s')
      | EmptyString => String c EmptyString
      end
  end.

(** Python's [==] between two sets of strings, each given by a list of
    its elements. *)
Definition set_eqb (a b : list string) : bool :=
  forallb (fun x => mem_str x b) a && forallb (fun x => mem_str x a) b.

(** One turn of the loop of [ComponentsValue.match]. *)
Definition slot_match (want_subcomp : string + list string) (subcomp : string)
  : bool :=
  match want_subcomp with
  | inl s => String.eqb s subcomp
  | inr set => set_eqb (split_unescaped ","%char subcomp) set
  end.

Fixpoint slots_match (comps : list (string + list string))
  (subcomps : list string) : bool :=
  match comps, subcomps with
  | [], _ => true
  | w :: comps', sub :: subcomps' =>
      if slot_match w sub then slots_match comps' subcomps' else false
  | _ :: _, [] => false
  end.

Definition ComponentsValue_match (comps : list (string + list string))
  (val : string) : bool :=
  let subcomps := split_unescaped ";"%char val in
  if negb (List.length comps =? List.length subcomps)%nat then false
  else slots_match comps subcomps.

Fixpoint Value_match (v : Value) (s : string) : bool :=
  match v with
  | AnyValue => true
  | NoCaseValue val => String.eqb (upper val) (upper s)
  | OneOfValue vals =>
      (fix any (l : list (string + Value)) : bool :=
         match l with
         | [] => false
         | inl lit :: l' => if String.eqb lit s then true else any l'
         | inr v' :: l' => if Value_match v' s then true else any l'
         end) vals
  | MaybeQuoted val =>
      String.eqb s val
      || String.eqb s (String dquote (val ++ String dquote EmptyString))
  | MaybeEscaped val =>
      if String.eqb val s then true else String.eqb val (unescape_commas s)
  | ComponentsValue comps => ComponentsValue_match comps s
  | LibraryValue accepts => accepts s
  end.

Definition match_value (want : Want) (have : string) : bool :=
  match want with
  | WAnyClass => true
  | WValue v => Value_match v have
  | WStr s => String.eqb s have
  end.

(** *** Patterns *)

Record ParamMatch : Type := mkParamMatch {
  pm_name : string;
  pm_value : Want;
  pm_mandatory : bool
}.

Record AltIdMatch : Type := mkAltIdMatch {
  alt_id_id : string;
  alt_id_mandatory : bool
}.

(** [PropMatch.group]: a [GroupMatch] or a literal [str]. *)
Inductive GroupSpec : Type :=
| GroupMatch (id : string)
| GroupLiteral (s : string).

(** [params] is [None] or a list in the source; [None] and the empty list
    take the same branch everywhere. *)
Record PropMatch : Type := mkPropMatch {
  m_name : string;
  m_value : Want;
  m_params : list ParamMatch;
  m_mandatory : bool;
  m_alt_id : option AltIdMatch;
  m_group : option GroupSpec
}.

(** [d[k].append(x)] on a [defaultdict(list)]. *)
Definition append_to {A : Type} (k : string) (x : A)
  (d : list (string * list A)) : list (string * list A) :=
  match lookup k d with
  | Some l => store k (l ++ [x]) d
  | None => store k [x] d
  end.

(** The scan [for idx, x in enumerate(l): if test(x): pos = idx; break],
    threading a state through the tests as [PropMatch.match] does with the
    binding tables.  The result is the hit and the list without it. *)
Fixpoint scan {A S : Type} (test : A -> S -> bool * S) (l : list A) (st : S)
  : option (A * list A) * S :=
  match l with
  | [] => (None, st)
  | x :: l' =>
      let '(b, st') := test x st in
      if b then (Some (x, l'), st')
      else let '(r, st'') := scan test l' st' in
           (match r with
            | Some (hit, rest) => Some (hit, x :: rest)
            | None => None
            end, st'')
  end.

(** The parameter loop of [PropMatch.match]; [None] is [return False]. *)
Fixpoint match_params (ps : list Param)
  (param_matches_byname : list (string * list ParamMatch))
  : option (list (string * list ParamMatch)) :=
  match ps with
  | [] => Some param_matches_byname
  | param :: ps' =>
      if String.eqb (p_name param) "ALTID"
      then match_params ps' param_matches_byname
      else
        match lookup (p_name param) param_matches_byname with
        | None | Some [] => None
        | Some param_matches =>
            match scan (fun pm (_ : unit) =>
                          (match_value (pm_value pm) (p_value param), tt))
                       param_matches tt with
            | (None, _) => None
            | (Some (param_match, rest), _) =>
                match_params ps'
                  (match rest with
                   | _ :: _ => store (pm_name param_match) rest param_matches_byname
                   | [] => remove (pm_name param_match) param_matches_byname
                   end)
            end
        end
  end.

Definition Tables : Type :=
  (list (string * option string) * list (string * string))%type.

Definition opt_str_eqb (a b : option string) : bool :=
  match a, b with
  | Some x, Some y => String.eqb x y
  | None, None => true
  | _, _ => false
  end.

(** The ALTID step; [None] is [return False]. *)
Definition match_altid (alt_id : option AltIdMatch) (altid_params : list Param)
  (altid_by_id : list (string * string)) : option (list (string * string)) :=
  match altid_params with
  | _ :: _ :: _ => None
  | _ =>
      match alt_id with
      | None => Some altid_by_id
      | Some a =>
          match altid_params with
          | [] => if alt_id_mandatory a then None else Some altid_by_id
          | p :: _ =>
              match lookup (alt_id_id a) altid_by_id with
              | Some bound =>
                  if negb (String.eqb (p_value p) bound) then None
                  else Some altid_by_id
              | None =>
                  if mem_str (p_value p) (values altid_by_id) then None
                  else Some (store (alt_id_id a) (p_value p) altid_by_id)
              end
          end
      end
  end.

(** The group step.  A literal that is the empty string is falsy and is
    skipped like an absent one. *)
Definition match_group (g : option GroupSpec) (prop_group : option string)
  (group_by_id : list (string * option string))
  : option (list (string * option string)) :=
  match g with
  | None | Some (GroupLiteral EmptyString) => Some group_by_id
  | Some (GroupMatch id) =>
      match lookup id group_by_id with
      | Some bound =>
          if negb (opt_str_eqb prop_group bound) then None else Some group_by_id
      | None =>
          if existsb (opt_str_eqb prop_group) (values group_by_id) then None
          else Some (store id prop_group group_by_id)
      end
  | Some (GroupLiteral s) =>
      if negb (opt_str_eqb prop_group (Some s)) then None else Some group_by_id
  end.

(** [PropMatch.match].  The tables are mutated in place, so a candidate
    that binds an ALTID and then fails on its group leaves the binding. *)
Definition PropMatch_match (self : PropMatch) (prop : VProp) (tables : Tables)
  : bool * Tables :=
  let '(group_by_id, altid_by_id) := tables in
  if negb (match_value (m_value self) (value prop)) then (false, tables)
  else
    match match_params (params prop)
            (fold_left (fun d pm => append_to (pm_name pm) pm d)
                       (m_params self) []) with
    | None => (false, tables)
    | Some left_over =>
        if existsb (fun pms => existsb pm_mandatory pms) (values left_over)
        then (false, tables)
        else
          let altid_params :=
            filter (fun param => String.eqb (p_name param) "ALTID")
                   (params prop) in
          match match_altid (m_alt_id self) altid_params altid_by_id with
          | None => (false, tables)
          | Some altid_by_id' =>
              match match_group (m_group self) (group prop) group_by_id with
              | None => (false, (group_by_id, altid_by_id'))
              | Some group_by_id' => (true, (group_by_id', altid_by_id'))
              end
          end
    end.

Definition quoted (s : string) : string :=
  String dquote (s ++ String dquote EmptyString).

Definition default_matches : list PropMatch :=
  [ mkPropMatch "PRODID" WAnyClass [] false None None;
    mkPropMatch "REV" WAnyClass [] false None None;
    mkPropMatch "UID" WAnyClass [] true None None;
    mkPropMatch "VERSION" (WStr "4.0") [] true None None;
    mkPropMatch "FN" (WValue AnyValue)
      [mkParamMatch "DERIVED" (WValue (NoCaseValue "TRUE")) false]
      true None None;
    mkPropMatch "JSPROP" (WStr (quoted "1.0"))
      [mkParamMatch "JSPTR" (WStr "version") true;
       mkParamMatch "VALUE" (WValue (NoCaseValue "TEXT")) false]
      false None None;
    mkPropMatch "CREATED" WAnyClass [] false None None ].

Record PropMatchError : Type := mkPropMatchError {
  e_prop : option VProp;
  e_candidates : option (list PropMatch)
}.

Definition mismatched (prop : VProp) (candidates : list PropMatch) :=
  mkPropMatchError (Some prop) (Some candidates).
Definition unmatched (candidates : list PropMatch) :=
  mkPropMatchError None (Some candidates).
Definition unexpected (prop : VProp) :=
  mkPropMatchError (Some prop) None.

(** What a call of [match_vcard] does: return, raise one of the
    exceptions of [exn], or raise [VCardMatchError] with its diagnostics. *)
Inductive Outcome : Type :=
| Returns
| Raises (e : exn)
| RaisesVCardMatchError (match_errors : list PropMatchError).

Record MatchState : Type := mkState {
  matches_by_name : list (string * list PropMatch);
  tables : Tables;
  match_errors : list PropMatchError
}.

(** One turn of the loop over the properties. *)
Definition match_prop (st : MatchState) (prop : VProp) : MatchState :=
  match lookup (name prop) (matches_by_name st) with
  | None =>
      mkState (matches_by_name st) (tables st)
              (match_errors st ++ [unexpected prop])
  | Some matches =>
      match scan (fun pm t => PropMatch_match pm prop t) matches (tables st) with
      | (None, t) =>
          mkState (matches_by_name st) t
                  (match_errors st ++ [mismatched prop matches])
      | (Some (pm, rest), t) =>
          mkState (match rest with
                   | _ :: _ => store (m_name pm) rest (matches_by_name st)
                   | [] => remove (m_name pm) (matches_by_name st)
                   end)
                  t (match_errors st)
      end
  end.

(** The candidate table before the loop. *)
Definition initial_matches (want_matches default_matches : list PropMatch)
  : list (string * list PropMatch) :=
  let want_name := map m_name want_matches in
  fold_left (fun d pm =>
               if mem_str (m_name pm) want_name then d
               else append_to (m_name pm) pm d)
            default_matches
            (fold_left (fun d pm => append_to (m_name pm) pm d) want_matches []).

(** [match_vcard] from the point where the record is parsed and checked. *)
Definition match_props (props : list VProp)
  (want_matches default_matches : list PropMatch) : MatchState :=
  let st := fold_left match_prop props
              (mkState (initial_matches want_matches default_matches)
                       ([], []) []) in
  let unmatched_matches :=
    flat_map (fun matches => filter m_mandatory matches)
             (values (matches_by_name st)) in
  match unmatched_matches with
  | [] => st
  | _ :: _ =>
      mkState (matches_by_name st) (tables st)
              (match_errors st ++ [unmatched unmatched_matches])
  end.

(** [len(props) <= 2 or props[0].name != "BEGIN" or props[-1].name != "END"] *)
Definition missing_begin_or_end (props : list VProp) : bool :=
  (List.length props <=? 2)%nat
  || match props with
     | first :: _ =>
         negb (String.eqb (name first) "BEGIN")
         || negb (String.eqb (name (last props first)) "END")
     | [] => true
     end.

Definition match_vcard (vcard : string)
  (want_matches default_matches : list PropMatch) : Outcome :=
  match parse vcard with
  | Raise e => Raises e
  | Ok props =>
      if missing_begin_or_end props then Raises ValueError
      else
        let props := inner (normalize_vcard props) in
        match match_errors (match_props props want_matches default_matches) with
        | [] => Returns
        | errs => RaisesVCardMatchError errs
        end
  end.

(** *** Printing *)

(** [Param.__str__] *)
Definition Param_str (p : Param) : string :=
  (p_name p ++ "=" ++ p_value p)%string.

(** [Prop.__str__].  A group that is [None] or the empty string is falsy
    and gives no prefix. *)
Definition Prop_str (prop : VProp) : string :=
  let params_str :=
    join EmptyString
         (map (fun p => (";" ++ Param_str p)%string) (params prop)) in
  let group_str :=
    match group prop with
    | Some (String c g) => (String c g ++ ".")%string
    | _ => EmptyString
    end in
  (group_str ++ (name prop ++ params_str ++ ":" ++ value prop))%string.

End VCard.

(** ** jscardutil.py *)

Module JSCard.

(** A JSON value as [json.loads] gives it, without floats. *)
Inductive json : Type :=
| JNull
| JBool (b : bool)
| JInt (z : Z)
| JStr (s : string)
| JList (l : list json)
| JObj (d : list (string * json)).

(** [bool(x)] *)
Definition truthy (x : json) : bool :=
  match x with
  | JNull => false
  | JBool b => b
  | JInt z => negb (Z.eqb z 0)
  | JStr s => negb (String.eqb s EmptyString)
  | JList l => match l with [] => false | _ :: _ => true end
  | JObj d => match d with [] => false | _ :: _ => true end
  end.

(** Python's [==]: [True == 1], lists by position, dicts by key. *)
Fixpoint py_eq (a b : json) {struct a} : bool :=
  match a, b with
  | JNull, JNull => true
  | JBool x, JBool y => Bool.eqb x y
  | JBool x, JInt y => Z.eqb (if x then 1 else 0) y
  | JInt x, JBool y => Z.eqb x (if y then 1 else 0)
  | JInt x, JInt y => Z.eqb x y
  | JStr x, JStr y => String.eqb x y
  | JList la, JList lb =>
      (fix go (la lb : list json) : bool :=
         match la, lb with
         | [], [] => true
         | x :: la', y :: lb' => py_eq x y && go la' lb'
         | _, _ => false
         end) la lb
  | JObj da, JObj db =>
      (List.length da =? List.length db)%nat
      && (fix go (da : list (string * json)) : bool :=
            match da with
            | [] => true
            | (k, v) :: da' =>
                match lookup k db with
                | Some v' => py_eq v v' && go da'
                | None => false
                end
            end) da
  | _, _ => false
  end.

(** [d.get(k)] *)
Definition get (k : string) (d : list (string * json)) : json :=
  match lookup k d with
  | Some v => v
  | None => JNull
  end.

(** *** [json.dumps(v, sort_keys=True)] *)

Definition hex_digit (n : nat) : ascii :=
  if (n <? 10)%nat then ascii_of_nat (48 + n) else ascii_of_nat (87 + n).

(** One character of a string, escaped as the encoder does with
    [ensure_ascii]. *)
Definition dumps_char (c : ascii) : string :=
  let n := nat_of_ascii c in
  if Ascii.eqb c dquote then String bslash (String dquote EmptyString)
  else if Ascii.eqb c bslash then String bslash (String bslash EmptyString)
  else if (n =? 10)%nat then String bslash "n"
  else if (n =? 13)%nat then String bslash "r"
  else if (n =? 9)%nat then String bslash "t"
  else if (n =? 8)%nat then String bslash "b"
  else if (n =? 12)%nat then String bslash "f"
  else if between 32 126 c then String c EmptyString
  else String bslash
         ("u00" ++ String (hex_digit (n / 16)) (String (hex_digit (n mod 16)) EmptyString)).

Fixpoint dumps_chars (s : string) : string :=
  match s with
  | EmptyString => EmptyString
  | String c s' => (dumps_char c ++ dumps_chars s')%string
  end.

Definition dumps_str (s : string) : string :=
  String dquote (dumps_chars s ++ String dquote EmptyString).

Definition dumps_int (z : Z) : string :=
  NilZero.string_of_int (Z.to_int z).

Fixpoint json_dumps (v : json) : string :=
  match v with
  | JNull => "null"
  | JBool true => "true"
  | JBool false => "false"
  | JInt z => dumps_int z
  | JStr s => dumps_str s
  | JList l =>
      ("[" ++ join ", " ((fix go (l : list json) : list string :=
                            match l with
                            | [] => []
                            | x :: l' => json_dumps x :: go l'
                            end) l) ++ "]")%string
  | JObj d =>
      let items :=
        (fix go (d : list (string * json)) : list (string * string) :=
           match d with
           | [] => []
           | (k, x) :: d' => (k, json_dumps x) :: go d'
           end) d in
      ("{" ++ join ", " (map (fun kv => (dumps_str (fst kv) ++ ": " ++ snd kv)%string)
                             (sort_by_key fst items)) ++ "}")%string
  end.

(** *** [remove_defaultval] *)

Definition chars (s : string) : list json :=
  map (fun c => JStr (String c EmptyString)) (list_ascii_of_string s).

Fixpoint remove_defaultval (path : list string) (defaultval : json)
  (jsobj : json) : result json :=
  match path with
  | [] => Ok jsobj
  | name :: subpath =>
      if negb (truthy jsobj) then Ok jsobj
      else
        match subpath with
        | _ :: _ =>
            if String.eqb name "*" then
              (* [jsobj.values()], or what [jsobj.__iter__()] gives *)
              match jsobj with
              | JObj d =>
                  d' <- mapM (fun kv =>
                                v <- remove_defaultval subpath defaultval (snd kv) ;;
                                Ok (fst kv, v)) d ;;
                  Ok (JObj d')
              | JList l =>
                  l' <- mapM (remove_defaultval subpath defaultval) l ;;
                  Ok (JList l')
              | JStr s =>
                  _ <- mapM (remove_defaultval subpath defaultval) (chars s) ;;
                  Ok jsobj
              | _ => Raise AttributeError
              end
            else
              match jsobj with
              | JObj d =>
                  match lookup name d with
                  | Some v =>
                      v' <- remove_defaultval subpath defaultval v ;;
                      Ok (JObj (store name v' d))
                  | None =>
                      _ <- remove_defaultval subpath defaultval JNull ;;
                      Ok jsobj
                  end
              | _ => Raise AttributeError
              end
        | [] =>
            match jsobj with
            | JObj d =>
                if py_eq (get name d) defaultval then
                  match lookup name d with
                  | Some _ => Ok (JObj (remove name d))
                  | None => Raise KeyError
                  end
                else Ok jsobj
            | _ => Raise AttributeError
            end
        end
  end.

(** *** [sort_unordered_components] *)

Definition sort_unordered_components (jsobj : json) : result json :=
  match jsobj with
  | JObj d =>
      let is_ordered :=
        match lookup "isOrdered" d with
        | Some v => v
        | None => JBool false
        end in
      if truthy is_ordered then Ok jsobj
      else
        match lookup "components" d with
        | None => Ok jsobj
        | Some comps =>
            if negb (truthy comps) then Ok jsobj
            else
              match comps with
              | JList l =>
                  Ok (JObj (store "components"
                                  (JList (sort_by_key json_dumps l)) d))
              | _ => Raise AttributeError
              end
        end
  | _ => Raise AttributeError
  end.

(** *** [apply_patchobject] *)

(** The white space that [int] strips. *)
Definition is_space (c : ascii) : bool :=
  let n := nat_of_ascii c in
  between 9 13 c || between 28 32 c || (n =? 133)%nat || (n =? 160)%nat.

Definition is_digit (c : ascii) : bool := between 48 57 c.

Fixpoint strip_left (s : string) : string :=
  match s with
  | String c s' => if is_space c then strip_left s' else s
  | EmptyString => EmptyString
  end.

Fixpoint rev_string (s acc : string) : string :=
  match s with
  | EmptyString => acc
  | String c s' => rev_string s' (String c acc)
  end.

Definition strip (s : string) : string :=
  rev_string (strip_left (rev_string (strip_left s) EmptyString)) EmptyString.

(** Digits with single underscores between them: the value read so far,
    the number of digits read, and whether the last character was a digit. *)
Fixpoint digits (s : string) (acc : Z) (n : nat) (after_digit : bool)
  : option (Z * nat) :=
  match s with
  | EmptyString => if after_digit then Some (acc, n) else None
  | String c s' =>
      if is_digit c
      then digits s' (10 * acc + Z.of_nat (nat_of_ascii c - 48)) (S n) true
      else if Ascii.eqb c "_"%char && after_digit then digits s' acc n false
      else None
  end.

(** [int(s)]; [None] is [ValueError].  A literal of more than 4300 digits
    is refused. *)
Definition py_int (s : string) : option Z :=
  let s := strip s in
  let '(neg, s) :=
    match s with
    | String c s' =>
        if Ascii.eqb c "-"%char then (true, s')
        else if Ascii.eqb c "+"%char then (false, s')
        else (false, s)
    | EmptyString => (false, s)
    end in
  match digits s 0 0 false with
  | Some (z, n) =>
      if (4300 <? n)%nat then None else Some (if neg then (- z)%Z else z)
  | None => None
  end.

(** The position that [l[i]] reads; [None] is [IndexError]. *)
Definition list_pos {A : Type} (l : list A) (i : Z) : option nat :=
  let len := Z.of_nat (List.length l) in
  if ((0 <=? i) && (i <? len))%Z then Some (Z.to_nat i)
  else if ((- len <=? i) && (i <? 0))%Z then Some (Z.to_nat (len + i))
  else None.

Fixpoint list_set {A : Type} (l : list A) (n : nat) (x : A) : list A :=
  match l, n with
  | [], _ => []
  | _ :: l', 0 => x :: l'
  | y :: l', S n' => y :: list_set l' n' x
  end.

(** The [while path] loop for one entry: the node [jsobj] after the
    descent, with [val] put where the last segment was missing. *)
Fixpoint descend (jsobj : json) (path : list string) (val : json) : result json :=
  match path with
  | [] => Ok jsobj
  | seg :: rest =>
      match jsobj with
      | JList l =>
          match py_int seg with
          | None => Raise ValueError
          | Some i =>
              match list_pos l i with
              | None => Raise ValueError
              | Some n =>
                  match nth_error l n with
                  | Some sub =>
                      sub' <- descend sub rest val ;;
                      Ok (JList (list_set l n sub'))
                  | None => Raise ValueError
                  end
              end
          end
      | JObj d =>
          match lookup seg d with
          | Some sub =>
              sub' <- descend sub rest val ;;
              Ok (JObj (store seg sub' d))
          | None =>
              match rest with
              | [] => Ok (JObj (store seg val d))
              | _ :: _ => Raise ValueError
              end
          end
      | _ => Raise TypeError
      end
  end.

(** [pobj] is the dict of the patch; [pobj.items()] of anything else
    raises. *)
Fixpoint apply_items (jscard : json) (items : list (string * json)) : result json :=
  match items with
  | [] => Ok jscard
  | (key, val) :: items' =>
      match split_char "/"%char key with
      | [] => Raise ValueError
      | path =>
          jscard' <- descend jscard path val ;;
          apply_items jscard' items'
      end
  end.

Definition apply_patchobject (jscard : json) (pobj : json) : result json :=
  match pobj with
  | JObj items => apply_items jscard items
  | _ => Raise AttributeError
  end.

(** *** What the patch map shares with the patched card

    [jsobj[path[0]] = val] puts the object [val] of the patch map into the
    card, so the card and the patch map share it: what a later entry puts
    into it through the card is in the patch map as well.  The applier
    replaces and deletes nothing, and no list changes its length, so a
    shared object stays where it was put and its state can be read there. *)

Inductive step : Type :=
| Key (k : string)
| Pos (n : nat).

(** Where the descent of [descend] puts [val]; [None] when it puts it
    nowhere. *)
Fixpoint inserted_at (jsobj : json) (path : list string) : option (list step) :=
  match path with
  | [] => None
  | seg :: rest =>
      match jsobj with
      | JList l =>
          match py_int seg with
          | None => None
          | Some i =>
              match list_pos l i with
              | None => None
              | Some n =>
                  match nth_error l n with
                  | Some sub => option_map (cons (Pos n)) (inserted_at sub rest)
                  | None => None
                  end
              end
          end
      | JObj d =>
          match lookup seg d with
          | Some sub => option_map (cons (Key seg)) (inserted_at sub rest)
          | None =>
              match rest with
              | [] => Some [Key seg]
              | _ :: _ => None
              end
          end
      | _ => None
      end
  end.

Fixpoint read (jsobj : json) (loc : list step) : option json :=
  match loc with
  | [] => Some jsobj
  | Key k :: loc' =>
      match jsobj with
      | JObj d =>
          match lookup k d with
          | Some sub => read sub loc'
          | None => None
          end
      | _ => None
      end
  | Pos n :: loc' =>
      match jsobj with
      | JList l =>
          match nth_error l n with
          | Some sub => read sub loc'
          | None => None
          end
      | _ => None
      end
  end.

(** The entries of a patch up to the first that raises: the card after
    them, each of them with the place where its value went, and the
    entries that are left, the raising one first. *)
Fixpoint applied (jscard : json) (items : list (string * json))
  : json * list (string * json * option (list step)) * list (string * json) :=
  match items with
  | [] => (jscard, [], [])
  | (key, val) :: items' =>
      let path := split_char "/"%char key in
      match descend jscard path val with
      | Ok jscard' =>
          let '(card, done, rest) := applied jscard' items' in
          (card, (key, val, inserted_at jscard path) :: done, rest)
      | Raise _ => (jscard, [], items)
      end
  end.

(** The patch map after [apply_patchobject(jscard, pobj)]: a value that
    went into the card is as the card has it. *)
Definition patch_after (jscard : json) (pobj : json) : json :=
  match pobj with
  | JObj items =>
      let '(card, done, rest) := applied jscard items in
      JObj (map (fun entry : string * json * option (list step) =>
                   let '(key, val, loc) := entry in
                   (key,
                    match loc with
                    | Some l =>
                        match read card l with
                        | Some shared => shared
                        | None => val
                        end
                    | None => val
                    end)) done
            ++ rest)
  | _ => pobj
  end.

(** *** [normalize_vcardparams] *)

(** The [try] block: [del jsobj["vCardParams"]["group"]], then the
    removal of a [vCardParams] left empty.  A missing key is the
    [KeyError] that is caught. *)
Definition strip_group (d : list (string * json)) : result (list (string * json)) :=
  match lookup "vCardParams" d with
  | None => Ok d
  | Some (JObj p) =>
      match lookup "group" p with
      | None => Ok d
      | Some _ =>
          match remove "group" p with
          | [] => Ok (remove "vCardParams" d)
          | p' => Ok (store "vCardParams" (JObj p') d)
          end
      end
  | Some _ => Raise TypeError
  end.

Fixpoint normalize_vcardparams (fuel : nat) (jsobj : json) : result json :=
  match fuel with
  | 0 => Raise OutOfFuel
  | S fuel' =>
      match jsobj with
      | JObj d =>
          d1 <- strip_group d ;;
          d2 <- mapM (fun kv =>
                        v <- normalize_vcardparams fuel' (snd kv) ;;
                        Ok (fst kv, v)) d1 ;;
          Ok (JObj d2)
      | JList l =>
          l' <- mapM (normalize_vcardparams fuel') l ;;
          Ok (JList l')
      | _ => Ok jsobj
      end
  end.

(** Nesting depth, the recursion depth of [normalize_vcardparams]. *)
Fixpoint depth (v : json) : nat :=
  match v with
  | JList l =>
      S ((fix go (l : list json) : nat :=
            match l with
            | [] => 0
            | x :: l' => Nat.max (depth x) (go l')
            end) l)
  | JObj d =>
      S ((fix go (d : list (string * json)) : nat :=
            match d with
            | [] => 0
            | (_, x) :: d' => Nat.max (depth x) (go d')
            end) d)
  | _ => 1
  end.

(** *** [normalize_jscard] *)

Definition default_values : list (list string * json) :=
  [ (["addresses"; "*"; "@type"], JStr "Address");
    (["addresses"; "*"; "isOrdered"], JBool false);
    (["addresses"; "*"; "components"; "*"; "@type"], JStr "AddressComponent");
    (["anniversaries"; "*"; "@type"], JStr "Anniversary");
    (["anniversaries"; "*"; "date"; "@type"], JStr "PartialDate");
    (["anniversaries"; "*"; "place"; "@type"], JStr "Address");
    (["calendars"; "*"; "@type"], JStr "Calendar");
    (["cryptoKeys"; "*"; "@type"], JStr "CryptoKey");
    (["directories"; "*"; "@type"], JStr "Directory");
    (["emails"; "*"; "@type"], JStr "EmailAddress");
    (["kind"], JStr "individual");
    (["links"; "*"; "@type"], JStr "Link");
    (["media"; "*"; "@type"], JStr "Media");
    (["name"; "@type"], JStr "Name");
    (["name"; "isOrdered"], JBool false);
    (["name"; "components"; "*"; "@type"], JStr "NameComponent");
    (["nicknames"; "*"; "@type"], JStr "Nickname");
    (["notes"; "*"; "@type"], JStr "Note");
    (["notes"; "*"; "author"; "@type"], JStr "Author");
    (["onlineServices"; "*"; "@type"], JStr "OnlineService");
    (["organizations"; "*"; "@type"], JStr "Organization");
    (["organizations"; "*"; "units"; "*"; "@type"], JStr "OrgUnit");
    (["personalInfo"; "*"; "@type"], JStr "PersonalInfo");
    (["phones"; "*"; "@type"], JStr "Phone");
    (["preferredLanguages"; "*"; "@type"], JStr "LanguagePref");
    (["relatedTo"; "*"; "@type"], JStr "Relation");
    (["schedulingAddresses"; "*"; "@type"], JStr "SchedulingAddress");
    (["speakToAs"; "@type"], JStr "SpeakToAs");
    (["speakToAs"; "pronouns"; "*"; "@type"], JStr "Pronouns");
    (["titles"; "*"; "@type"], JStr "Title");
    (["titles"; "*"; "kind"], JStr "title") ].

(** [for path, val in default_values.items(): remove_defaultval(jscard, path, val)] *)
Fixpoint remove_defaults (table : list (list string * json)) (jscard : json)
  : result json :=
  match table with
  | [] => Ok jscard
  | (path, val) :: table' =>
      jscard' <- remove_defaultval path val jscard ;;
      remove_defaults table' jscard'
  end.

(** [if "name" in jscard: sort_unordered_components(jscard["name"])] *)
Definition sort_name (d : list (string * json)) : result (list (string * json)) :=
  match lookup "name" d with
  | Some v => v' <- sort_unordered_components v ;; Ok (store "name" v' d)
  | None => Ok d
  end.

(** The loop over [jscard["addresses"].keys()]. *)
Definition sort_addresses (d : list (string * json))
  : result (list (string * json)) :=
  match lookup "addresses" d with
  | Some (JObj addresses) =>
      addresses' <- mapM (fun kv =>
                            v <- sort_unordered_components (snd kv) ;;
                            Ok (fst kv, v)) addresses ;;
      Ok (store "addresses" (JObj addresses') d)
  | Some _ => Raise AttributeError
  | None => Ok d
  end.

(** What [for p in x] walks over; a dict gives its keys, a string its
    characters. *)
Definition py_iter (x : json) : result (list json) :=
  match x with
  | JList l => Ok l
  | JObj d => Ok (map JStr (keys d))
  | JStr s => Ok (chars s)
  | _ => Raise TypeError
  end.

(** [p[0]] *)
Definition first_item (p : json) : result json :=
  match p with
  | JList (x :: _) => Ok x
  | JList [] => Raise IndexError
  | JStr (String c _) => Ok (JStr (String c EmptyString))
  | JStr EmptyString => Raise IndexError
  | JObj _ => Raise KeyError
  | _ => Raise TypeError
  end.

Fixpoint filterM {A : Type} (f : A -> result bool) (l : list A) : result (list A) :=
  match l with
  | [] => Ok []
  | x :: l' =>
      b <- f x ;;
      r <- filterM f l' ;;
      Ok (if b then x :: r else r)
  end.

(** The [vCardProps] step. *)
Definition drop_version_props (d : list (string * json))
  : result (list (string * json)) :=
  match lookup "vCardProps" d with
  | Some v =>
      ps <- py_iter v ;;
      props <- filterM (fun p => x <- first_item p ;;
                                 Ok (negb (py_eq x (JStr "version")))) ps ;;
      match props with
      | _ :: _ => Ok (store "vCardProps" (JList props) d)
      | [] => Ok (remove "vCardProps" d)
      end
  | None => Ok d
  end.

(** The steps of [normalize_jscard] between the detaching of
    [localizations] and their resolution. *)
Definition normalize_base (d : list (string * json)) : result json :=
  x <- remove_defaults default_values (JObj d) ;;
  match x with
  | JObj d =>
      d <- sort_name d ;;
      d <- sort_addresses d ;;
      d <- drop_version_props d ;;
      normalize_vcardparams (depth (JObj d)) (JObj d)
  | _ => Ok x
  end.

(** [try: ... except ValueError: pass]; [otherwise] is what the variable
    assigned in the [try] block holds when the assignment is not reached. *)
Definition except_ValueError {A : Type} (r : result A) (otherwise : A) : result A :=
  match r with
  | Raise ValueError => Ok otherwise
  | _ => r
  end.

(** The loop over the locales.  A [ValueError] leaves [localizations[l]]
    the patch map, which shares with the discarded card what the applier
    has put there.  The [ValueError] is the applier's: [normalize_jscard]
    raises none (see [normalize_jscard_no_ValueError]).  [fuel] bounds the
    depth of the recursion on the patched cards. *)
Fixpoint normalize_jscard (fuel : nat) (jscard : json) : result json :=
  match fuel with
  | 0 => Raise OutOfFuel
  | S fuel' =>
      match jscard with
      | JObj d =>
          let localizations := get "localizations" d in
          let d :=
            match lookup "localizations" d with
            | Some _ => remove "localizations" d
            | None => d
            end in
          jscard <- normalize_base d ;;
          if truthy localizations then
            match localizations, jscard with
            | JObj locs, JObj d =>
                locs' <- mapM (fun kv =>
                                 v <- except_ValueError
                                        (patched_jscard <- apply_patchobject jscard (snd kv) ;;
                                         normalize_jscard fuel' patched_jscard)
                                        (patch_after jscard (snd kv)) ;;
                                 Ok (fst kv, v)) locs ;;
                Ok (JObj (store "localizations" (JObj locs') d))
            | _, _ => Raise AttributeError
            end
          else Ok jscard
      | JList _ => Raise TypeError
      | _ => Raise AttributeError
      end
  end.

(** *** The differ *)

(** [p.replace("~", "~0").replace("/", "~1")] *)
Fixpoint escape_seg (p : string) : string :=
  match p with
  | EmptyString => EmptyString
  | String c p' =>
      if Ascii.eqb c "~"%char then String "~" (String "0" (escape_seg p'))
      else if Ascii.eqb c "/"%char then String "~" (String "1" (escape_seg p'))
      else String c (escape_seg p')
  end.

Definition encode_path (segs : list string) : string :=
  match segs with
  | first :: _ =>
      if String.eqb first "localizations" then join "/" segs
      else join "/" (map escape_seg segs)
  | [] => join "/" (map escape_seg segs)
  end.

(** [a_val] and [b_val] default to [None], which is [JNull]. *)
Record JSPropDiff : Type := mkDiff {
  path : string;
  a_val : json;
  b_val : json
}.

(** [str(i)] *)
Definition str_of_nat (i : nat) : string :=
  NilZero.string_of_uint (Nat.to_uint i).

(** [diff_objs] and [diff_list] append to [diffs]; here they return what
    they append.  [diff_pair] is the choice made for a pair of values in
    both loops.  The order in which a [frozenset] is walked is not fixed
    by Python; the keys are taken in the order of the dict they come from. *)
Fixpoint diff_pair (a b : json) (segs : list string) {struct a} : list JSPropDiff :=
  match a, b with
  | JObj da, JObj db =>
      (* for key in a_keys - b_keys *)
      (fix missing (d : list (string * json)) : list JSPropDiff :=
         match d with
         | [] => []
         | (key, v) :: d' =>
             match lookup key db with
             | None => mkDiff (encode_path (segs ++ [key])) v JNull :: missing d'
             | Some _ => missing d'
             end
         end) da
      (* for key in b_keys - a_keys *)
      ++ flat_map (fun kv =>
                     match lookup (fst kv) da with
                     | None => [mkDiff (encode_path (segs ++ [fst kv])) JNull (snd kv)]
                     | Some _ => []
                     end) db
      (* for key in a_keys & b_keys *)
      ++ (fix shared (d : list (string * json)) : list JSPropDiff :=
            match d with
            | [] => []
            | (key, v) :: d' =>
                match lookup key db with
                | Some v' => diff_pair v v' (segs ++ [key]) ++ shared d'
                | None => shared d'
                end
            end) da
  | JList la, JList lb =>
      if negb (List.length la =? List.length lb)%nat
      then [mkDiff (encode_path segs) a b]
      else
        (fix each (la lb : list json) (i : nat) : list JSPropDiff :=
           match la, lb with
           | x :: la', y :: lb' =>
               diff_pair x y (segs ++ [str_of_nat i]) ++ each la' lb' (S i)
           | _, _ => []
           end) la lb 0
  | _, _ =>
      if negb (py_eq a b) then [mkDiff (encode_path segs) a b] else []
  end.

Definition diff_objs (a b : list (string * json)) (segs : list string)
  : list JSPropDiff :=
  diff_pair (JObj a) (JObj b) segs.

Definition diff_list (a b : list json) (segs : list string) : list JSPropDiff :=
  diff_pair (JList a) (JList b) segs.

(** *** [match_jscard] *)

(** [prop.find(":") >= 0] *)
Fixpoint has_colon (s : string) : bool :=
  match s with
  | EmptyString => false
  | String c s' => Ascii.eqb c ":"%char || has_colon s'
  end.

(** The loop of [remove_unknown_vendorprops] over [list(have_card.keys())]. *)
Definition remove_unknown_vendorprops (want_card have_card : list (string * json))
  : list (string * json) :=
  fold_left (fun have prop =>
               if has_colon prop then
                 match lookup prop want_card with
                 | None => remove prop have
                 | Some _ => have
                 end
               else have)
            (keys have_card) have_card.

(** [if not key in want_card: have_card.pop(key, None)]; [pop] with a
    default leaves a dict without the key as it is. *)
Definition pop_unwanted (key : string) (want_card have_card : list (string * json))
  : list (string * json) :=
  match lookup key want_card with
  | Some _ => have_card
  | None => remove key have_card
  end.

(** What a call of [match_jscard] does: return, raise one of the
    exceptions of [exn], or raise [MatchJSCardError] with the diffs. *)
Inductive MatchOutcome : Type :=
| Matches
| Fails (e : exn)
| MatchJSCardError (diff : list JSPropDiff).

(** [match_jscard].  [copy.deepcopy] is the identity on values; [fuel] is
    the bound of [normalize_jscard]. *)
Definition match_jscard (fuel : nat) (want_card have_card : list (string * json))
  : MatchOutcome :=
  let have_card := pop_unwanted "created" want_card have_card in
  let have_card := pop_unwanted "updated" want_card have_card in
  let have_card := pop_unwanted "prodId" want_card have_card in
  let have_card := pop_unwanted "vCardProps" want_card have_card in
  let have_card := remove_unknown_vendorprops want_card have_card in
  match normalize_jscard fuel (JObj want_card) with
  | Raise e => Fails e
  | Ok want_card =>
      match normalize_jscard fuel (JObj have_card) with
      | Raise e => Fails e
      | Ok have_card =>
          match want_card, have_card with
          | JObj a, JObj b =>
              match diff_objs a b [] with
              | [] => Matches
              | diffs => MatchJSCardError diffs
              end
          | _, _ => Fails AttributeError
          end
      end
  end.

End JSCard.

(** ** tests.py: running a test case *)

Module Tests.
Import VCard JSCard.

(** [Outcome] *)
Inductive Outcome : Type :=
| success
| invalid
| error
| skipped.

Definition Outcome_eqb (a b : Outcome) : bool :=
  match a, b with
  | success, success | invalid, invalid | error, error | skipped, skipped => true
  | _, _ => false
  end.

(** What [run] catches and keeps in [got_error]: the two errors of the
    matchers, the [InvalidCardError] of a backend, and any other
    exception, one of [exn] raised by the matchers or one of the backend. *)
Inductive Caught : Type :=
| VCardMatchError (match_errors : list PropMatchError)
| MatchJSCardError (diff : list JSPropDiff)
| InvalidCardError
| OtherException (e : option exn).

(** What a call of a backend does: it returns, raises [InvalidCardError],
    or raises something else. *)
Inductive Reply (A : Type) : Type :=
| Returned (a : A)
| RaisedInvalidCardError
| RaisedOther.
Arguments Returned {A} a.
Arguments RaisedInvalidCardError {A}.
Arguments RaisedOther {A}.

(** A backend answers over the network; for one run it is the replies it
    gives, of the types its methods declare ([-> str], [-> Dict]). *)
Record Backend : Type := mkBackend {
  to_vcard_reply : list (string * json) -> Reply string;
  to_jscard_reply : string -> Reply (list (string * json))
}.

Record Result : Type := mkResult {
  test_name : string;
  sent_jscard : list (string * json);
  to_vcard : Outcome;
  from_vcard : Outcome;
  got_vcard : option string;
  got_error : option Caught;
  got_jscard : option (list (string * json));
  want_invalid_props : option (list string)
}.

(** [Result.is_success] *)
Definition is_success (self : Result) : bool :=
  Outcome_eqb (to_vcard self) success
  && (Outcome_eqb (from_vcard self) success
      || Outcome_eqb (from_vcard self) skipped).

Record TestCase : Type := mkTestCase {
  id : string;
  jprops : list (string * json);
  matches : list PropMatch;
  skip_to_vcard : bool;
  skip_from_vcard : bool;
  invalid_props : option (list string)
}.

(** [if k not in d: d[k] = v] *)
Definition set_missing (k : string) (v : json) (d : list (string * json))
  : list (string * json) :=
  match lookup k d with
  | Some _ => d
  | None => store k v d
  end.

(** [bool(self.invalid_props)]: [None] and the empty list are falsy. *)
Definition expects_invalid (self : TestCase) : bool :=
  match invalid_props self with
  | Some (_ :: _) => true
  | _ => false
  end.

(** Assignments to the fields of [result]. *)
Definition set_to_vcard (o : Outcome) (r : Result) : Result :=
  mkResult (test_name r) (sent_jscard r) o (from_vcard r) (got_vcard r)
           (got_error r) (got_jscard r) (want_invalid_props r).
Definition set_from_vcard (o : Outcome) (r : Result) : Result :=
  mkResult (test_name r) (sent_jscard r) (to_vcard r) o (got_vcard r)
           (got_error r) (got_jscard r) (want_invalid_props r).
Definition set_got_vcard (v : string) (r : Result) : Result :=
  mkResult (test_name r) (sent_jscard r) (to_vcard r) (from_vcard r) (Some v)
           (got_error r) (got_jscard r) (want_invalid_props r).
Definition set_got_error (e : Caught) (r : Result) : Result :=
  mkResult (test_name r) (sent_jscard r) (to_vcard r) (from_vcard r) (got_vcard r)
           (Some e) (got_jscard r) (want_invalid_props r).
Definition set_got_jscard (c : list (string * json)) (r : Result) : Result :=
  mkResult (test_name r) (sent_jscard r) (to_vcard r) (from_vcard r) (got_vcard r)
           (got_error r) (Some c) (want_invalid_props r).
Definition set_want_invalid_props (p : option (list string)) (r : Result) : Result :=
  mkResult (test_name r) (sent_jscard r) (to_vcard r) (from_vcard r) (got_vcard r)
           (got_error r) (got_jscard r) p.

(** The first [try] block of [run] with its handlers. *)
Definition run_to_vcard (self : TestCase) (backend : Backend)
  (jscard : list (string * json)) (result : Result) : Result :=
  match to_vcard_reply backend jscard with
  | Returned vcard =>
      let result := set_got_vcard vcard result in
      if negb (expects_invalid self) then
        match match_vcard vcard (matches self) default_matches with
        | Returns => set_to_vcard success result
        | RaisesVCardMatchError errs =>
            set_to_vcard invalid (set_got_error (VCardMatchError errs) result)
        | Raises e =>
            set_to_vcard error (set_got_error (OtherException (Some e)) result)
        end
      else
        set_want_invalid_props (invalid_props self) (set_to_vcard invalid result)
  | RaisedInvalidCardError =>
      if expects_invalid self then set_to_vcard success result
      else set_to_vcard error (set_got_error InvalidCardError result)
  | RaisedOther =>
      set_to_vcard error (set_got_error (OtherException None) result)
  end.

(** The second [try] block with its handlers; [vcard] is
    [result.got_vcard]. *)
Definition run_from_vcard (backend : Backend) (fuel : nat)
  (jscard : list (string * json)) (vcard : string) (result : Result) : Result :=
  match to_jscard_reply backend vcard with
  | Returned got =>
      let result := set_got_jscard got result in
      match match_jscard fuel jscard got with
      | Matches => set_from_vcard success result
      | JSCard.MatchJSCardError diffs =>
          set_from_vcard invalid (set_got_error (MatchJSCardError diffs) result)
      | Fails e =>
          set_from_vcard error (set_got_error (OtherException (Some e)) result)
      end
  | _ => set_from_vcard error (set_got_error (OtherException None) result)
  end.

(** [TestCase.run].  [uuid4] is what [str(uuid.uuid4())] gives, [fuel]
    the bound of [normalize_jscard]; [copy.deepcopy] is the identity on
    values. *)
Definition run (self : TestCase) (backend : Backend) (uuid4 : string)
  (fuel : nat) : Result :=
  let jscard := jprops self in
  let jscard := set_missing "@type" (JStr "Card") jscard in
  let jscard := set_missing "uid" (JStr uuid4) jscard in
  let jscard := set_missing "version" (JStr "1.0") jscard in
  let result := mkResult (id self) jscard skipped skipped None None None None in
  if skip_to_vcard self then result
  else
    let result := run_to_vcard self backend jscard result in
    if negb (Outcome_eqb (to_vcard result) success) || expects_invalid self
    then result
    else if skip_from_vcard self then set_from_vcard skipped result
    else
      match got_vcard result with
      | Some vcard => run_from_vcard backend fuel jscard vcard result
      | None =>
          (* backend.to_jscard(None) *)
          set_from_vcard error (set_got_error (OtherException None) result)
      end.

End Tests.

Import VCard.
Import JSCard.

(** * The vocabulary of the statements *)

(** ** Records *)

Definition crlf : string := String CR (String LF EmptyString).

Definition altid_params (prop : VProp) : list Param :=
  filter (fun param => String.eqb (p_name param) "ALTID") (params prop).

(** A record with its wrapper: BEGIN first, END last, something between. *)
Definition has_wrapper (props : list VProp) : Prop :=
  exists first middle last_,
    props = first :: middle ++ [last_]
    /\ middle <> []
    /\ name first = "BEGIN"
    /\ name last_ = "END".

(** ** Splitting at unescaped separators *)

(** [s] has no separator that a split would cut at; [esc] tells whether a
    backslash stands before [s]. *)
Fixpoint no_unescaped (sep : ascii) (esc : bool) (s : string) : bool :=
  match s with
  | EmptyString => true
  | String c s' =>
      if Ascii.eqb c sep && negb esc then false
      else no_unescaped sep (Ascii.eqb c bslash) s'
  end.

Fixpoint ends_with_bslash (s : string) : bool :=
  match s with
  | EmptyString => false
  | String c s' =>
      match s' with
      | EmptyString => Ascii.eqb c bslash
      | String _ _ => ends_with_bslash s'
      end
  end.

Definition escaped_by (prev : option ascii) : bool :=
  match prev with
  | Some p => Ascii.eqb p bslash
  | None => false
  end.

(** What a slot of a [ComponentsValue] asks of its subcomponent. *)
Definition slot_ok (want_subcomp : string + list string) (subcomp : string) : Prop :=
  match want_subcomp with
  | inl s => subcomp = s
  | inr set => forall x, In x (split_unescaped ","%char subcomp) <-> In x set
  end.

(** A piece that a cut follows, seen with what stands before it. *)
Definition ends_escaped (esc : bool) (q : string) : bool :=
  match q with
  | EmptyString => esc
  | String _ _ => ends_with_bslash q
  end.

(** ** Sorting by two keys *)

Definition le_minor {A : Type} (minor : A -> string) (x y : A) : bool :=
  str_le (minor x) (minor y).

Definition le_major {A : Type} (major : A -> string) (x y : A) : bool :=
  str_le (major x) (major y).

(** By the major key, and by the minor key where the major keys agree. *)
Definition le_lex {A : Type} (minor major : A -> string) (x y : A) : bool :=
  str_lt (major x) (major y)
  || (String.eqb (major x) (major y) && str_le (minor x) (minor y)).

(** The two stable passes of the source: by the minor key, then by the
    major key. *)
Definition sort2 {A : Type} (minor major : A -> string) (l : list A) : list A :=
  sort_by_key major (sort_by_key minor l).

(** A record that is in order, with the parameters of every property in
    order. *)
Definition canonical (l : list VProp) : Prop :=
  Sorted (fun a b => le_lex value name a b = true) l
  /\ Forall (fun prop => sort_params prop = prop) l.

(** ** The binding tables and the run *)

Definition injective (a : list (string * string)) : Prop :=
  forall k1 k2 v, lookup k1 a = Some v -> lookup k2 a = Some v -> k1 = k2.

Definition extends (a a' : list (string * string)) : Prop :=
  forall k v, lookup k a = Some v -> lookup k a' = Some v.

(** The ALTID values a property carries. *)
Definition altid_values (prop : VProp) : list string :=
  map p_value (altid_params prop).

(** What a table may hold during a run over properties whose ALTID values
    all satisfy [Q]. *)
Definition table_ok (Q : string -> Prop) (t : Tables) : Prop :=
  injective (snd t) /\ forall k v, lookup k (snd t) = Some v -> Q v.

(** The candidates still in the table. *)
Definition remaining (d : list (string * list PropMatch)) : list PropMatch :=
  flat_map (fun matches => matches) (values d).

Definition well_keyed (d : list (string * list PropMatch)) : Prop :=
  forall n ms pm, In (n, ms) d -> In pm ms -> m_name pm = n.

(** A candidate with a mandatory ALTID reference that was accepted has its
    symbolic id bound. *)
Definition bound_if_referenced (pm : PropMatch) (a : list (string * string)) : Prop :=
  forall k, m_alt_id pm = Some (mkAltIdMatch k true) -> exists v, lookup k a = Some v.

Record run_ok (Q : string -> Prop) (all : list PropMatch) (st : MatchState) : Prop := {
  ok_table : table_ok Q (tables st);
  ok_keyed : well_keyed (matches_by_name st);
  ok_cands : forall pm, In pm all ->
               In pm (remaining (matches_by_name st))
               \/ bound_if_referenced pm (snd (tables st))
}.

Definition tel (k : string) : PropMatch :=
  mkPropMatch "TEL" WAnyClass [] true (Some (mkAltIdMatch k true)) None.
Definition email (k : string) : PropMatch :=
  mkPropMatch "EMAIL" WAnyClass [] true (Some (mkAltIdMatch k true)) None.
Definition vcard_of (lines : list string) : string :=
  (join crlf (["BEGIN:VCARD"; "VERSION:4.0"; "UID:u"; "FN:n"] ++ lines ++ ["END:VCARD"])
   ++ crlf)%string.

(** ** The differ *)

(** The three loops of [diff_objs], each on its own. *)
Fixpoint missing_diffs (db : list (string * json)) (segs : list string)
  (d : list (string * json)) : list JSPropDiff :=
  match d with
  | [] => []
  | (key, v) :: d' =>
      match lookup key db with
      | None => mkDiff (encode_path (segs ++ [key])) v JNull :: missing_diffs db segs d'
      | Some _ => missing_diffs db segs d'
      end
  end.

Definition unexpected_diffs (da : list (string * json)) (segs : list string)
  (db : list (string * json)) : list JSPropDiff :=
  flat_map (fun kv =>
              match lookup (fst kv) da with
              | None => [mkDiff (encode_path (segs ++ [fst kv])) JNull (snd kv)]
              | Some _ => []
              end) db.

Fixpoint shared_diffs (db : list (string * json)) (segs : list string)
  (d : list (string * json)) : list JSPropDiff :=
  match d with
  | [] => []
  | (key, v) :: d' =>
      match lookup key db with
      | Some v' => diff_pair v v' (segs ++ [key]) ++ shared_diffs db segs d'
      | None => shared_diffs db segs d'
      end
  end.

(** ** The patch applier as specified *)

(** The decoding that the specification asks of a path segment: [~1] is a
    slash and [~0] a tilde. *)
Fixpoint unescape_seg (p : string) : string :=
  match p with
  | EmptyString => EmptyString
  | String c p' =>
      match p' with
      | String c2 p2 =>
          if Ascii.eqb c "~"%char && Ascii.eqb c2 "1"%char
          then String "/" (unescape_seg p2)
          else if Ascii.eqb c "~"%char && Ascii.eqb c2 "0"%char
          then String "~" (unescape_seg p2)
          else String c (unescape_seg p')
      | EmptyString => String c EmptyString
      end
  end.

(** The segments that the specification has the applier walk. *)
Definition specified_path (key : string) : list string :=
  match split_char "/"%char key with
  | first :: rest =>
      if String.eqb first "localizations" then first :: rest
      else map unescape_seg (first :: rest)
  | [] => []
  end.

(** The applier as specified, for one entry. *)
Definition apply_entry_as_specified (jscard : json) (key : string) (val : json)
  : result json :=
  descend jscard (specified_path key) val.

Fixpoint has_slash (s : string) : bool :=
  match s with
  | EmptyString => false
  | String c s' => Ascii.eqb c "/"%char || has_slash s'
  end.

(** ** Localizations *)

(** What [normalize_jscard] stores for one locale. *)
Definition resolve_locale (fuel : nat) (base : json) (patch : json) : result json :=
  except_ValueError
    (patched_jscard <- apply_patchobject base patch ;;
     normalize_jscard fuel patched_jscard)
    (patch_after base patch).

Definition card_with_failing_patch : list (string * json) :=
  [("name", JObj [("full", JStr "A")]);
   ("localizations",
    JObj [("x", JObj [("a/b", JStr "B"); ("kind", JStr "group")]);
          ("y", JObj [("kind", JStr "group")])])].

(** The applier that drops a failing entry and goes on, as the
    specification describes it. *)
Fixpoint apply_items_tolerant (jscard : json) (items : list (string * json)) : json :=
  match items with
  | [] => jscard
  | (key, val) :: items' =>
      match descend jscard (split_char "/"%char key) val with
      | Ok jscard' => apply_items_tolerant jscard' items'
      | Raise _ => apply_items_tolerant jscard items'
      end
  end.

(** ** Cards *)

(** A value as Python can hold it: no dict has a key twice. *)
Inductive wf : json -> Prop :=
| wf_null : wf JNull
| wf_bool b : wf (JBool b)
| wf_int z : wf (JInt z)
| wf_str s : wf (JStr s)
| wf_list l : Forall wf l -> wf (JList l)
| wf_obj d : NoDup (keys d) -> Forall (fun kv => wf (snd kv)) d -> wf (JObj d).

(** [x'] is [x] with members deleted at any depth, and the elements of
    its lists in any order. *)
Inductive shrink : json -> json -> Prop :=
| shrink_null : shrink JNull JNull
| shrink_bool b : shrink (JBool b) (JBool b)
| shrink_int z : shrink (JInt z) (JInt z)
| shrink_str s : shrink (JStr s) (JStr s)
| shrink_list l' l :
    Forall (fun y' => exists y, In y l /\ shrink y' y) l' ->
    shrink (JList l') (JList l)
| shrink_obj d' d :
    NoDup (keys d') ->
    Forall (fun kv' => exists v, lookup (fst kv') d = Some v /\ shrink (snd kv') v) d' ->
    shrink (JObj d') (JObj d).

(** The loop over the values of a dict. *)
Definition on_value (f : json -> result json) (kv : string * json)
  : result (string * json) :=
  v <- f (snd kv) ;; Ok (fst kv, v).

(** The defaults of the table are strings and booleans. *)
Definition scalar_default (dv : json) : Prop :=
  match dv with
  | JStr _ | JBool _ | JInt _ => True
  | _ => False
  end.

Definition is_scalar (v : json) : Prop :=
  match v with
  | JList _ | JObj _ => False
  | _ => True
  end.

Definition fixed_by (z : json) (entry : list string * json) : Prop :=
  remove_defaultval (fst entry) (snd entry) z = Ok z.

(** No map of the value has a [vCardParams] member. *)
Inductive no_vcardparams : json -> Prop :=
| nv_null : no_vcardparams JNull
| nv_bool b : no_vcardparams (JBool b)
| nv_int z : no_vcardparams (JInt z)
| nv_str s : no_vcardparams (JStr s)
| nv_list l : Forall no_vcardparams l -> no_vcardparams (JList l)
| nv_obj d :
    lookup "vCardParams" d = None ->
    Forall (fun kv => no_vcardparams (snd kv)) d ->
    no_vcardparams (JObj d).

(** The shape of the table: a path starts at a member of the card that
    is not [vCardProps], and a default is a scalar. *)
Definition entry_ok (entry : list string * json) : bool :=
  match fst entry with
  | n :: _ => negb (String.eqb n "*") && negb (String.eqb n "vCardProps")
  | [] => false
  end
  && match snd entry with
     | JStr _ | JBool _ | JInt _ => true
     | _ => false
     end.


(** ** Fuel *)

(** The exceptions that the model keeps inside [normalize_jscard]: the
    [ValueError] that the loop over the locales catches, and the end of the
    fuel. *)
Definition internal (e : exn) : bool :=
  match e with
  | ValueError | OutOfFuel => true
  | _ => false
  end.

(** The number of nodes of a value, which bounds the fuel that
    [normalize_jscard] needs. *)
Fixpoint size (v : json) : nat :=
  match v with
  | JList l =>
      S ((fix go (l : list json) : nat :=
            match l with
            | [] => 0
            | x :: l' => size x + go l'
            end) l)
  | JObj d =>
      S ((fix go (d : list (string * json)) : nat :=
            match d with
            | [] => 0
            | (_, x) :: d' => size x + go d'
            end) d)
  | _ => 1
  end.

Definition size_list (l : list json) : nat := list_sum (map size l).

Definition size_dict (d : list (string * json)) : nat :=
  list_sum (map (fun kv => size (snd kv)) d).

(** The size of the members of a dict whose key satisfies [p]. *)
Definition size_where (p : string -> bool) (d : list (string * json)) : nat :=
  size_dict (filter (fun kv => p (fst kv)) d).

(** The size of a value that counts, of the members of a dict at the top,
    those whose key satisfies [p]. *)
Definition size_top (p : string -> bool) (v : json) : nat :=
  match v with
  | JObj d => S (size_where p d)
  | _ => size v
  end.

(** What a card holds under [localizations]: the recursion of
    [normalize_jscard] goes on what the patches of the locales put
    there. *)
Definition loc_size (card : json) : nat :=
  size_top (String.eqb "localizations") card.





(** ** Printing and parsing *)

Fixpoint all_chars (p : ascii -> bool) (s : string) : bool :=
  match s with
  | EmptyString => true
  | String c s' => p c && all_chars p s'
  end.

(** A name as the grammar reads it: one or more of [A-Za-z0-9-]. *)
Definition is_name (s : string) : bool :=
  match s with
  | EmptyString => false
  | String _ _ => all_chars is_name_char s
  end.

(** A quoted parameter value after its opening quote: the first quote that
    no backslash precedes is the last character, and no line feed stands
    before it.  [prev] is the character before [s]. *)
Fixpoint closes (prev : ascii) (s : string) : bool :=
  match s with
  | EmptyString => false
  | String c s' =>
      if Ascii.eqb c dquote && negb (Ascii.eqb prev bslash)
      then match s' with EmptyString => true | String _ _ => false end
      else negb (Ascii.eqb c LF) && closes c s'
  end.

(** A parameter value as the grammar reads it: a run without quote, [;]
    and [:], or a quoted string. *)
Definition is_param_value (v : string) : bool :=
  all_chars is_plain_char v
  || match v with
     | String c v' => Ascii.eqb c dquote && closes c v'
     | EmptyString => false
     end.

Definition printable_param (p : Param) : bool :=
  is_name (p_name p) && String.eqb (upper (p_name p)) (p_name p)
  && is_param_value (p_value p).

(** A property as [Prop.fromstr] gives it: the names in upper case, the
    group a name, the parameter values as the grammar reads them. *)
Definition printable (prop : VProp) : bool :=
  is_name (name prop) && String.eqb (upper (name prop)) (name prop)
  && match group prop with
     | Some g => is_name g
     | None => true
     end
  && forallb printable_param (params prop).

(** [rest] does not go on with a character that satisfies [p]. *)
Definition starts_outside (p : ascii -> bool) (rest : string) : Prop :=
  match rest with
  | String c _ => p c = false
  | EmptyString => True
  end.

(** What follows a parameter in a printed property: the next parameter or
    the value. *)
Definition ends_value (rest : string) : Prop :=
  exists r, rest = String ";" r \/ rest = String ":" r.

Definition no_line_break (s : string) : bool :=
  all_chars (fun c => negb (Ascii.eqb c CR || Ascii.eqb c LF)) s.

(** The white space that continues a folded line. *)
Definition is_fold_space (c : ascii) : bool :=
  Ascii.eqb c " "%char || Ascii.eqb c TAB.

(** A line of a record: no line break inside, and no white space at its
    head, which would continue the line before. *)
Definition is_line (s : string) : bool :=
  no_line_break s
  && match s with
     | String c _ => negb (is_fold_space c)
     | EmptyString => true
     end.

(** The last character of [s] is none of CR and LF. *)
Fixpoint ends_inside_line (s : string) : bool :=
  match s with
  | EmptyString => true
  | String c EmptyString => negb (Ascii.eqb c CR || Ascii.eqb c LF)
  | String _ s' => ends_inside_line s'
  end.

(** The escaping that [MaybeEscaped] undoes: a backslash before every
    comma. *)
Fixpoint escape_commas (s : string) : string :=
  match s with
  | EmptyString => EmptyString
  | String c s' =>
      if Ascii.eqb c ","%char then String bslash (String c (escape_commas s'))
      else String c (escape_commas s')
  end.

(** The parameters of a property as [Prop.__str__] prints them. *)
Definition params_str (ps : list Param) : string :=
  join EmptyString (map (fun p => (";" ++ Param_str p)%string) ps).

(** The text of a record: every line with its CR LF. *)
Fixpoint lines_text (lines : list string) : string :=
  match lines with
  | [] => EmptyString
  | l :: ls => (l ++ crlf ++ lines_text ls)%string
  end.

(** ** Candidates *)

(** The elements of [l] whose key is [n], in their order. *)
Definition with_key {A : Type} (key : A -> string) (n : string) (l : list A)
  : list A :=
  filter (fun x => String.eqb (key x) n) l.

(** No two keys of a table are bound to one value. *)
Definition one_to_one {V : Type} (t : list (string * V)) : Prop :=
  forall k1 k2 v, lookup k1 t = Some v -> lookup k2 t = Some v -> k1 = k2.

(** What the parameter loop keeps of a table: the candidates are where
    their names say, and they come from [all]. *)
Definition params_table_ok (all : list ParamMatch)
  (d : list (string * list ParamMatch)) : Prop :=
  forall k l pm, In (k, l) d -> In pm l -> pm_name pm = k /\ In pm all.

(** ** Cards *)

(** No map of the value has a [vCardParams] map with a [group] member. *)
Inductive no_group : json -> Prop :=
| ng_null : no_group JNull
| ng_bool b : no_group (JBool b)
| ng_int z : no_group (JInt z)
| ng_str s : no_group (JStr s)
| ng_list l : Forall no_group l -> no_group (JList l)
| ng_obj d :
    (forall p, lookup "vCardParams" d = Some (JObj p) -> lookup "group" p = None) ->
    Forall (fun kv => no_group (snd kv)) d ->
    no_group (JObj d).

(** [jsobj.get("isOrdered", False)] *)
Definition isOrdered (d : list (string * json)) : json :=
  match lookup "isOrdered" d with
  | Some v => v
  | None => JBool false
  end.

(** The members that [match_jscard] compares only when the wanted card
    has them. *)
Definition optional_members : list string :=
  ["created"; "updated"; "prodId"; "vCardProps"].

(** * Lemmas and theorems *)

(** Claim C5, on the input where it fails.  A line the grammar cannot
    match makes [parse] raise; when the line ends right after the name,
    after a group prefix and a name, or after a parameter, the exception
    is [IndexError], raised by the index into the rest of the line, and not
    [ParseError].  Where a character follows that does not fit, it is
    [ParseError], with the rest of the line. *)
Theorem parse_truncated_line_raises_IndexError :
  parse "FOO" = Raise IndexError
  /\ parse ("BEGIN:VCARD" ++ crlf ++ "FN;X=1" ++ crlf ++ "END:VCARD" ++ crlf)%string
     = Raise IndexError
  /\ parse "A.B" = Raise IndexError
  /\ parse "FOO bar" = Raise (ParseError " bar")
  /\ parse ".X:1" = Raise (ParseError ".X:1").
Proof. repeat split; reflexivity. Qed.

(** ** The parser *)

Lemma drop_length n s : String.length (drop n s) = String.length s - n.
Proof.
  revert s. induction n as [|n IH]; intros s; simpl; [lia|].
  destruct s as [|c s]; simpl; [reflexivity|]. apply IH.
Qed.

Lemma re_match_param_end s n v e :
  re_match_param s = Some (n, v, e) -> 2 <= e /\ s <> EmptyString.
Proof.
  unfold re_match_param. destruct s as [|c s1]; [discriminate|].
  destruct (Ascii.eqb c ";"%char); [|discriminate].
  destruct (re_match_name s1) as [e1|]; [|discriminate].
  destruct (String.get e1 s1) as [c'|]; [|discriminate].
  destruct (Ascii.eqb c' "="%char); [|discriminate].
  intros [= _ _ <-]. split; [lia|discriminate].
Qed.

(** The length of the line is fuel enough for the parameter loop. *)
Lemma parse_params_fuel fuel :
  forall s acc, String.length s <= fuel ->
                parse_params fuel s acc <> Raise OutOfFuel.
Proof.
  induction fuel as [|fuel IH]; intros s acc Hlen.
  - destruct s; [|simpl in Hlen; lia]. discriminate.
  - cbn [parse_params]. destruct (index s 0) as [c|e] eqn:Ei; simpl.
    2:{ unfold index in Ei. destruct (String.get 0 s); [discriminate|].
        injection Ei as <-. discriminate. }
    destruct (Ascii.eqb c ";"%char); [|discriminate].
    destruct (re_match_param s) as [[[n v] e]|] eqn:Em; [|discriminate].
    apply re_match_param_end in Em as [He Hs]. apply IH.
    rewrite drop_length. destruct s; [congruence|]. cbn [String.length] in *. lia.
Qed.

(** Claim C9.  A property with more than one ALTID parameter is matched
    by no candidate, whatever the candidate declares about ALTID and
    whatever the binding tables hold: [PropMatch.match] returns [False]. *)
Theorem several_altid_never_match (self : PropMatch) (prop : VProp) (t : Tables) :
  (1 < List.length (altid_params prop))%nat ->
  fst (PropMatch_match self prop t) = false.
Proof.
  intros Hlen. unfold PropMatch_match. destruct t as [g a].
  destruct (negb (match_value (m_value self) (value prop))); [reflexivity|].
  destruct (match_params _ _) as [left_over|]; [|reflexivity].
  destruct (existsb _ (values left_over)); [reflexivity|].
  unfold altid_params in Hlen.
  destruct (filter _ (params prop)) as [|p1 [|p2 l]]; simpl in Hlen; try lia.
  simpl. reflexivity.
Qed.

Lemma several_altid_never_match_witness :
  fst (PropMatch_match (mkPropMatch "TEL" WAnyClass [] true None None)
         (mkProp None "TEL" [mkParam "ALTID" "1"; mkParam "ALTID" "2"] "x")
         ([], [])) = false.
Proof.
  apply several_altid_never_match. simpl. lia.
Defined.

Lemma missing_begin_or_end_spec (props : list VProp) :
  missing_begin_or_end props = false <-> has_wrapper props.
Proof.
  unfold missing_begin_or_end, has_wrapper. split.
  - intros H. apply orb_false_iff in H as [Hlen H].
    destruct props as [|first rest]; [discriminate|].
    apply orb_false_iff in H as [Hb He].
    apply negb_false_iff, String.eqb_eq in Hb.
    apply negb_false_iff, String.eqb_eq in He.
    apply Nat.leb_gt in Hlen. simpl in Hlen.
    destruct (exists_last (l := rest)) as [middle [last_ Hrest]].
    { destruct rest; simpl in Hlen; [lia|discriminate]. }
    subst rest. exists first, middle, last_. repeat split; auto.
    + intros ->. simpl in Hlen. lia.
    + rewrite app_comm_cons, last_last in He. exact He.
  - intros (first & middle & last_ & -> & Hm & Hb & He).
    apply orb_false_iff. split.
    + apply Nat.leb_gt. simpl. rewrite length_app. simpl.
      destruct middle; [congruence|simpl; lia].
    + rewrite app_comm_cons, last_last. rewrite Hb, He. reflexivity.
Qed.

(** Claim C10.  For a payload that parses, [match_vcard] raises
    [ValueError] exactly when the record is not a property named BEGIN, at
    least one property, and a property named END; with the wrapper in
    place it returns or raises [VCardMatchError]. *)
Theorem match_vcard_requires_wrapper (vcard : string)
  (want_matches defaults : list PropMatch) (props : list VProp) :
  parse vcard = Ok props ->
  (~ has_wrapper props ->
     match_vcard vcard want_matches defaults = Raises ValueError)
  /\ (has_wrapper props ->
        match_vcard vcard want_matches defaults <> Raises ValueError).
Proof.
  intros Hparse. unfold match_vcard. rewrite Hparse.
  destruct (missing_begin_or_end props) eqn:Hm.
  - split; [reflexivity|].
    intros Hw. apply missing_begin_or_end_spec in Hw. congruence.
  - split.
    + intros Hn. exfalso. apply Hn. apply missing_begin_or_end_spec. exact Hm.
    + intros _. destruct (match_errors _); discriminate.
Qed.

Lemma match_vcard_requires_wrapper_witness :
  match_vcard ("UID:u" ++ crlf)%string [] default_matches = Raises ValueError.
Proof.
  apply (match_vcard_requires_wrapper ("UID:u" ++ crlf)%string [] default_matches
           [mkProp None "UID" [] "u"]).
  - reflexivity.
  - intros (first & middle & last_ & H & Hm & _).
    destruct middle; [congruence|]. destruct middle; discriminate.
Defined.

Section SplitUnescaped.
Variable sep : ascii.
Hypothesis sep_not_bslash : Ascii.eqb sep bslash = false.

Lemma split_unescaped_from_cons prev s :
  exists p ps, split_unescaped_from sep prev s = p :: ps.
Proof.
  destruct s as [|c s]; simpl; [eauto|].
  destruct (Ascii.eqb c sep && negb _); [eauto|].
  destruct (split_unescaped_from sep (Some c) s); eauto.
Qed.

Lemma join_String c p ps :
  join (String sep EmptyString) (String c p :: ps)
  = String c (join (String sep EmptyString) (p :: ps)).
Proof. destruct ps; reflexivity. Qed.

Lemma split_unescaped_from_join prev s :
  join (String sep EmptyString) (split_unescaped_from sep prev s) = s.
Proof.
  revert prev. induction s as [|c s IH]; intros prev; [reflexivity|].
  cbn [split_unescaped_from].
  destruct (Ascii.eqb c sep && negb _) eqn:E.
  - apply andb_true_iff in E as [E _]. apply Ascii.eqb_eq in E. subst c.
    destruct (split_unescaped_from_cons (Some sep) s) as (p & ps & Hs).
    specialize (IH (Some sep)). rewrite Hs in *.
    change (join (String sep EmptyString) (EmptyString :: p :: ps))
      with (String sep (join (String sep EmptyString) (p :: ps))).
    rewrite IH. reflexivity.
  - destruct (split_unescaped_from_cons (Some c) s) as (p & ps & Hs).
    specialize (IH (Some c)). rewrite Hs in *.
    rewrite join_String, IH. reflexivity.
Qed.

Lemma split_unescaped_from_pieces prev s :
  forall p ps, split_unescaped_from sep prev s = p :: ps ->
    no_unescaped sep (escaped_by prev) p = true
    /\ Forall (fun q => no_unescaped sep false q = true) ps.
Proof.
  revert prev. induction s as [|c s IH]; intros prev p ps; cbn [split_unescaped_from].
  - intros [= <- <-]. split; [reflexivity|constructor].
  - fold (escaped_by prev).
    destruct (Ascii.eqb c sep && negb (escaped_by prev)) eqn:E.
    + intros [= <- <-]. split; [reflexivity|].
      apply andb_true_iff in E as [E _]. apply Ascii.eqb_eq in E. subst c.
      destruct (split_unescaped_from_cons (Some sep) s) as (q & qs & Hs).
      rewrite Hs. destruct (IH (Some sep) q qs Hs) as [Hq Hqs].
      constructor; [|exact Hqs].
      simpl in Hq. rewrite sep_not_bslash in Hq. exact Hq.
    + destruct (split_unescaped_from_cons (Some c) s) as (q & qs & Hs).
      rewrite Hs. intros [= <- <-].
      destruct (IH (Some c) q qs Hs) as [Hq Hqs]. split; [|exact Hqs].
      simpl. rewrite E. exact Hq.
Qed.

(** Every piece that a cut follows ends without a backslash. *)
Lemma split_unescaped_from_cuts prev s :
  forall p ps, split_unescaped_from sep prev s = p :: ps ->
    (ps <> [] -> ends_escaped (escaped_by prev) p = false)
    /\ Forall (fun q => ends_with_bslash q = false) (removelast ps).
Proof.
  revert prev. induction s as [|c s IH]; intros prev p ps; cbn [split_unescaped_from].
  - intros [= <- <-]. split; [congruence|constructor].
  - fold (escaped_by prev).
    destruct (Ascii.eqb c sep && negb (escaped_by prev)) eqn:E.
    + intros [= <- <-].
      apply andb_true_iff in E as [E Hesc]. apply Ascii.eqb_eq in E. subst c.
      apply negb_true_iff in Hesc. split; [intros _; exact Hesc|].
      destruct (split_unescaped_from_cons (Some sep) s) as (q & qs & Hs).
      rewrite Hs. destruct (IH (Some sep) q qs Hs) as [Hq Hqs].
      destruct qs as [|q' qs]; [constructor|].
      change (removelast (q :: q' :: qs)) with (q :: removelast (q' :: qs)).
      constructor; [|exact Hqs].
      specialize (Hq ltac:(discriminate)). simpl in Hq.
      rewrite sep_not_bslash in Hq. destruct q; [reflexivity|exact Hq].
    + destruct (split_unescaped_from_cons (Some c) s) as (q & qs & Hs).
      rewrite Hs. intros [= <- <-].
      destruct (IH (Some c) q qs Hs) as [Hq Hqs]. split; [|exact Hqs].
      intros Hne. specialize (Hq Hne). simpl in Hq.
      destruct q; [exact Hq|exact Hq].
Qed.

(** What [re.split] on the unescaped separator returns: pieces that
    join back to the string, none with a place to cut, and none but the
    last ending in a backslash. *)
Lemma split_unescaped_spec s :
  join (String sep EmptyString) (split_unescaped sep s) = s
  /\ Forall (fun q => no_unescaped sep false q = true) (split_unescaped sep s)
  /\ Forall (fun q => ends_with_bslash q = false)
            (removelast (split_unescaped sep s)).
Proof.
  unfold split_unescaped.
  destruct (split_unescaped_from_cons None s) as (p & ps & Hs).
  split; [apply split_unescaped_from_join|].
  rewrite Hs.
  destruct (split_unescaped_from_pieces None s p ps Hs) as [Hp Hps].
  destruct (split_unescaped_from_cuts None s p ps Hs) as [Hc Hcs].
  split; [constructor; assumption|].
  destruct ps as [|q qs]; [constructor|].
  change (removelast (p :: q :: qs)) with (p :: removelast (q :: qs)).
  constructor; [|exact Hcs].
  specialize (Hc ltac:(discriminate)). destruct p; [reflexivity|exact Hc].
Qed.

End SplitUnescaped.

Lemma mem_str_In s l : mem_str s l = true <-> In s l.
Proof.
  unfold mem_str. rewrite existsb_exists. split.
  - intros (x & Hx & E). apply String.eqb_eq in E. subst. exact Hx.
  - intros H. exists s. split; [exact H|apply String.eqb_refl].
Qed.

Lemma set_eqb_spec a b : set_eqb a b = true <-> (forall x, In x a <-> In x b).
Proof.
  unfold set_eqb. rewrite andb_true_iff, !forallb_forall. split.
  - intros [Hab Hba] x. split; intros H.
    + apply mem_str_In, Hab, H.
    + apply mem_str_In, Hba, H.
  - intros H. split; intros x Hx; apply mem_str_In, H, Hx.
Qed.

Lemma slot_match_spec w sub : slot_match w sub = true <-> slot_ok w sub.
Proof.
  destruct w as [s|set]; simpl.
  - rewrite String.eqb_eq. split; congruence.
  - apply set_eqb_spec.
Qed.

Lemma slots_match_spec comps subcomps :
  List.length comps = List.length subcomps ->
  (slots_match comps subcomps = true <-> Forall2 slot_ok comps subcomps).
Proof.
  revert subcomps. induction comps as [|w comps IH]; intros [|sub subcomps] Hlen;
    simpl in Hlen; try discriminate.
  - simpl. split; [constructor|reflexivity].
  - injection Hlen as Hlen. simpl.
    destruct (slot_match w sub) eqn:E.
    + rewrite (IH _ Hlen). split.
      * intros H. constructor; [apply slot_match_spec, E|exact H].
      * intros H. inversion H; assumption.
    + split; [discriminate|]. intros H. inversion H; subst.
      apply slot_match_spec in H3. congruence.
Qed.

(** Claim C8.  [ComponentsValue.match] splits the observed string at
    every [;] that no backslash precedes: the pieces join back to the
    string with [;], no piece has a place to cut, and no piece but the last
    ends in a backslash.  The match fails when the number of pieces is not
    the number of slots; otherwise it holds exactly when every string slot
    equals its piece and every set slot has the elements of its piece split
    at the unescaped commas.  The three instances of the specification
    evaluate as it says. *)
Theorem ComponentsValue_match_spec (comps : list (string + list string)) (val : string) :
  let subcomps := split_unescaped ";"%char val in
  (join ";" subcomps = val
   /\ Forall (fun q => no_unescaped ";"%char false q = true) subcomps
   /\ Forall (fun q => ends_with_bslash q = false) (removelast subcomps))
  /\ (List.length comps <> List.length subcomps ->
      Value_match (ComponentsValue comps) val = false)
  /\ (Value_match (ComponentsValue comps) val = true
      <-> Forall2 slot_ok comps subcomps)
  /\ (forall sub,
        join "," (split_unescaped ","%char sub) = sub
        /\ Forall (fun q => no_unescaped ","%char false q = true)
                  (split_unescaped ","%char sub)
        /\ Forall (fun q => ends_with_bslash q = false)
                  (removelast (split_unescaped ","%char sub)))
  /\ Value_match (ComponentsValue [inl "a"; inr ["x"; "y"]]) "a;y,x" = true
  /\ Value_match (ComponentsValue [inl "a"; inr ["x"; "y"]]) "a;y,x,z" = false
  /\ Value_match (ComponentsValue [inl "a"; inr ["x"; "y"]]) "a" = false.
Proof.
  intros subcomps.
  split; [apply split_unescaped_spec; reflexivity|].
  split.
  { intros Hlen. simpl. unfold ComponentsValue_match. fold subcomps.
    apply Nat.eqb_neq in Hlen. rewrite Hlen. reflexivity. }
  split.
  { simpl. unfold ComponentsValue_match. fold subcomps.
    destruct (List.length comps =? List.length subcomps)%nat eqn:E; simpl.
    - apply Nat.eqb_eq in E. apply slots_match_spec, E.
    - split; [discriminate|]. intros H. apply Forall2_length in H.
      apply Nat.eqb_neq in E. contradiction. }
  split; [intros sub; apply split_unescaped_spec; reflexivity|].
  repeat split; reflexivity.
Qed.

(** ** The order on strings *)

Lemma ascii_compare_refl c : Ascii.compare c c = Eq.
Proof. unfold Ascii.compare. apply N.compare_refl. Qed.

Lemma ascii_compare_lt_trans a b c :
  Ascii.compare a b = Lt -> Ascii.compare b c = Lt -> Ascii.compare a c = Lt.
Proof.
  unfold Ascii.compare. rewrite !N.compare_lt_iff. apply N.lt_trans.
Qed.

Lemma str_compare_refl s : String.compare s s = Eq.
Proof.
  induction s as [|c s IH]; simpl; [reflexivity|].
  rewrite ascii_compare_refl. exact IH.
Qed.

Lemma str_compare_lt_trans a :
  forall b c, String.compare a b = Lt -> String.compare b c = Lt ->
              String.compare a c = Lt.
Proof.
  induction a as [|x a IH]; intros [|y b] [|z c]; simpl; try discriminate; auto.
  destruct (Ascii.compare x y) eqn:Exy; try discriminate;
    destruct (Ascii.compare y z) eqn:Eyz; try discriminate; intros H1 H2.
  - apply Ascii.compare_eq_iff in Exy, Eyz. subst.
    rewrite ascii_compare_refl. eapply IH; eassumption.
  - apply Ascii.compare_eq_iff in Exy. subst. rewrite Eyz. reflexivity.
  - apply Ascii.compare_eq_iff in Eyz. subst. rewrite Exy. reflexivity.
  - rewrite (ascii_compare_lt_trans _ _ _ Exy Eyz). reflexivity.
Qed.

Lemma str_le_cases a b :
  str_le a b = true <-> a = b \/ String.compare a b = Lt.
Proof.
  unfold str_le, String.leb. destruct (String.compare a b) eqn:E.
  - apply String.compare_eq_iff in E. tauto.
  - tauto.
  - split; [discriminate|]. intros [->|]; [|discriminate].
    rewrite str_compare_refl in E. discriminate.
Qed.

Lemma str_le_refl a : str_le a a = true.
Proof. apply str_le_cases. auto. Qed.

Lemma str_le_trans a b c :
  str_le a b = true -> str_le b c = true -> str_le a c = true.
Proof.
  rewrite !str_le_cases. intros [->|H1] [->|H2]; auto.
  right. eapply str_compare_lt_trans; eassumption.
Qed.

Lemma str_le_total a b : str_le a b = true \/ str_le b a = true.
Proof. apply String.leb_total. Qed.

Lemma str_le_antisym a b : str_le a b = true -> str_le b a = true -> a = b.
Proof. apply String.leb_antisym. Qed.

(** ** Stable insertion sort *)

Section SortFacts.
Context {A : Type} (le : A -> A -> bool).
Let R (x y : A) : Prop := le x y = true.

Lemma insert_HdRel x l : HdRel R x l -> insert le x l = x :: l.
Proof.
  intros H. destruct l as [|y l]; [reflexivity|].
  inversion H; subst. simpl. unfold R in *. rewrite H1. reflexivity.
Qed.

Lemma sort_Sorted_id l : Sorted R l -> sort le l = l.
Proof.
  induction 1 as [|x l Hs IH Hh]; simpl; [reflexivity|].
  rewrite IH. apply insert_HdRel, Hh.
Qed.

Hypothesis le_total : forall x y, le x y = true \/ le y x = true.

Lemma insert_Sorted x l : Sorted R l -> Sorted R (insert le x l).
Proof.
  induction 1 as [|y l Hs IH Hh]; simpl.
  - constructor; constructor.
  - destruct (le x y) eqn:E.
    + constructor; [constructor; assumption|constructor; exact E].
    + constructor; [exact IH|].
      destruct l as [|z l]; simpl.
      * constructor. destruct (le_total x y); [congruence|assumption].
      * destruct (le x z); constructor.
        -- destruct (le_total x y); [congruence|assumption].
        -- inversion Hh; assumption.
Qed.

Lemma sort_Sorted l : Sorted R (sort le l).
Proof.
  induction l as [|x l IH]; simpl; [constructor|apply insert_Sorted, IH].
Qed.


Lemma insert_length x l : List.length (insert le x l) = S (List.length l).
Proof.
  induction l as [|y l IH]; simpl; [reflexivity|].
  destruct (le x y); simpl; congruence.
Qed.

Lemma sort_length l : List.length (sort le l) = List.length l.
Proof.
  induction l as [|x l IH]; simpl; [reflexivity|].
  rewrite insert_length. congruence.
Qed.

Lemma insert_Permutation x l : Permutation (x :: l) (insert le x l).
Proof.
  induction l as [|y l IH]; simpl; [reflexivity|].
  destruct (le x y); [reflexivity|].
  rewrite perm_swap. constructor. exact IH.
Qed.

Lemma sort_Permutation l : Permutation l (sort le l).
Proof.
  induction l as [|x l IH]; simpl; [constructor|].
  rewrite <- insert_Permutation. constructor. exact IH.
Qed.
End SortFacts.

Lemma Sorted_tl {A} (R : A -> A -> Prop) l : Sorted R l -> Sorted R (tl l).
Proof. intros H. destruct l; [constructor|]. inversion H; assumption. Qed.

Lemma Sorted_removelast {A} (R : A -> A -> Prop) l :
  Sorted R l -> Sorted R (removelast l).
Proof.
  induction 1 as [|x l Hs IH Hh]; simpl; [constructor|].
  destruct l as [|y l]; [constructor|].
  constructor; [exact IH|].
  inversion Hh; subst. simpl. destruct l; constructor. assumption.
Qed.

(** Sorting through a map that keeps the order commutes with the map. *)
Lemma sort_map {A} (le : A -> A -> bool) (f : A -> A) :
  (forall x y, le (f x) (f y) = le x y) ->
  forall l, sort le (map f l) = map f (sort le l).
Proof.
  intros Hf. 
  assert (Hins : forall x l, insert le (f x) (map f l) = map f (insert le x l)).
  { intros x l. induction l as [|y l IH]; simpl; [reflexivity|].
    rewrite Hf. destruct (le x y); simpl; congruence. }
  induction l as [|x l IH]; simpl; [reflexivity|].
  rewrite IH. apply Hins.
Qed.

(** ** Two stable passes are one lexicographic pass *)

Section TwoKeys.
Context {A : Type} (minor major : A -> string).

Lemma str_lt_le a b : str_lt a b = true -> str_le a b = true.
Proof.
  unfold str_lt. intros H. apply negb_true_iff in H.
  destruct (str_le_total a b) as [|H']; [assumption|].
  unfold str_le in H'. congruence.
Qed.

Lemma le_lex_total x y :
  le_lex minor major x y = true \/ le_lex minor major y x = true.
Proof.
  unfold le_lex, str_lt.
  destruct (String.leb (major y) (major x)) eqn:E1;
    destruct (String.leb (major x) (major y)) eqn:E2; simpl; auto.
  assert (major x = major y) as Heq by (apply String.leb_antisym; assumption).
  rewrite Heq, String.eqb_refl. simpl. apply str_le_total.
Qed.

(** With the minor key of [x] below every minor key of [l], the major
    pass and the lexicographic pass put [x] at the same place. *)
Lemma insert_major_lex x l :
  Forall (fun z => str_le (minor x) (minor z) = true) l ->
  insert (le_major major) x l = insert (le_lex minor major) x l.
Proof.
  induction 1 as [|z l Hz Hl IH]; simpl; [reflexivity|].
  rewrite IH.
  assert (le_major major x z = le_lex minor major x z) as ->; [|reflexivity].
  unfold le_major, le_lex, str_lt, str_le in *. rewrite Hz, andb_true_r.
  destruct (String.leb (major x) (major z)) eqn:E1;
    destruct (String.leb (major z) (major x)) eqn:E2; simpl; auto.
  - assert (major x = major z) as -> by (apply String.leb_antisym; assumption).
    symmetry. apply String.eqb_refl.
  - symmetry. apply String.eqb_neq. intros Heq. rewrite Heq in E1.
    rewrite Heq in E2. congruence.
  - destruct (String.leb_total (major x) (major z)); congruence.
Qed.

(** An element of smaller minor key goes in by the major key at the
    place it would have had, whichever is inserted first. *)
Lemma insert_commute x y l :
  str_le (minor x) (minor y) = false ->
  insert (le_major major) y (insert (le_lex minor major) x l)
  = insert (le_lex minor major) x (insert (le_major major) y l).
Proof.
  intros Hxy.
  assert (Hlex : le_lex minor major x y = negb (le_major major y x)).
  { unfold le_lex, le_major, str_lt, str_le in *. rewrite Hxy, andb_false_r, orb_false_r.
    reflexivity. }
  induction l as [|z l IH]; simpl.
  - rewrite Hlex. destruct (le_major major y x); reflexivity.
  - destruct (le_lex minor major x z) eqn:Exz;
      destruct (le_major major y z) eqn:Eyz; simpl;
      rewrite ?Exz, ?Eyz, ?Hlex.
    + destruct (le_major major y x); reflexivity.
    + assert (le_major major y x = false) as ->; [|reflexivity].
      unfold le_major in *. destruct (str_le (major y) (major x)) eqn:E; [|reflexivity].
      assert (str_le (major x) (major z) = true) as Hxz.
      { unfold le_lex in Exz. apply orb_true_iff in Exz as [H|H].
        - apply str_lt_le, H.
        - apply andb_true_iff in H as [H _]. apply String.eqb_eq in H.
          rewrite H. apply str_le_refl. }
      rewrite (str_le_trans _ _ _ E Hxz) in Eyz. discriminate.
    + assert (le_major major y x = true) as ->; [|reflexivity].
      unfold le_major in *.
      apply (str_le_trans _ (major z)); [exact Eyz|].
      unfold le_lex, str_lt in Exz. apply orb_false_iff in Exz as [H _].
      apply negb_false_iff in H. exact H.
    + rewrite IH. reflexivity.
Qed.

Lemma sort_major_insert_minor x l :
  Sorted (fun a b => le_minor minor a b = true) l ->
  sort (le_major major) (insert (le_minor minor) x l)
  = insert (le_lex minor major) x (sort (le_major major) l).
Proof.
  induction 1 as [|y l Hs IH Hh]; simpl; [reflexivity|].
  destruct (le_minor minor x y) eqn:E; simpl.
  - apply insert_major_lex.
    assert (Forall (fun z => str_le (minor x) (minor z) = true) (y :: l)) as HF.
    { constructor; [exact E|].
      assert (StronglySorted (fun a b => le_minor minor a b = true) (y :: l)) as HS.
      { apply Sorted_StronglySorted.
        - intros a b c. unfold le_minor. apply str_le_trans.
        - constructor; assumption. }
      inversion HS; subst. eapply Forall_impl; [|eassumption].
      intros z Hz. unfold le_minor in *. eapply str_le_trans; eassumption. }
    eapply Permutation_Forall; [|exact HF].
    change (insert (le_major major) y (sort (le_major major) l))
      with (sort (le_major major) (y :: l)).
    apply sort_Permutation.
  - rewrite IH. apply insert_commute. exact E.
Qed.

Theorem sort_two_pass l :
  sort (le_major major) (sort (le_minor minor) l) = sort (le_lex minor major) l.
Proof.
  induction l as [|x l IH]; simpl; [reflexivity|].
  rewrite sort_major_insert_minor.
  - rewrite IH. reflexivity.
  - apply sort_Sorted. intros a b. apply str_le_total.
Qed.

Lemma sort2_lex l : sort2 minor major l = sort (le_lex minor major) l.
Proof. apply sort_two_pass. Qed.

Lemma sort2_Sorted_id l :
  Sorted (fun a b => le_lex minor major a b = true) l -> sort2 minor major l = l.
Proof. intros H. rewrite sort2_lex. apply sort_Sorted_id, H. Qed.

Lemma sort2_Sorted l :
  Sorted (fun a b => le_lex minor major a b = true) (sort2 minor major l).
Proof. rewrite sort2_lex. apply sort_Sorted, le_lex_total. Qed.

Lemma sort2_idempotent l :
  sort2 minor major (sort2 minor major l) = sort2 minor major l.
Proof. apply sort2_Sorted_id, sort2_Sorted. Qed.
End TwoKeys.

Lemma sort_params_idempotent prop : sort_params (sort_params prop) = sort_params prop.
Proof.
  unfold sort_params. simpl. f_equal.
  apply (sort2_idempotent p_value p_name).
Qed.

Lemma sort_props_map l :
  map sort_params (sort2 value name l) = sort2 value name (map sort_params l).
Proof.
  unfold sort2, sort_by_key.
  rewrite !(sort_map _ sort_params); reflexivity.
Qed.

Lemma sort_props_sort2 l : sort_props l = sort2 value name (map sort_params l).
Proof. reflexivity. Qed.

Lemma sort_props_canonical l : canonical (sort_props l).
Proof.
  split.
  - rewrite sort_props_sort2. apply sort2_Sorted.
  - eapply Permutation_Forall.
    + unfold sort_props, sort_by_key.
      etransitivity; [|apply sort_Permutation]. apply sort_Permutation.
    + apply Forall_map, Forall_forall. intros x _. apply sort_params_idempotent.
Qed.

Lemma canonical_fixed l : canonical l -> sort_props l = l.
Proof.
  intros [Hs Hp]. rewrite sort_props_sort2.
  assert (map sort_params l = l) as ->.
  { clear Hs. induction Hp as [|x l Hx Hl IH]; simpl; congruence. }
  apply sort2_Sorted_id, Hs.
Qed.

Lemma canonical_inner l : canonical l -> canonical (inner l).
Proof.
  intros [Hs Hp]. unfold inner. split.
  - apply Sorted_removelast, Sorted_tl, Hs.
  - apply Forall_forall. intros x Hx. rewrite Forall_forall in Hp. apply Hp.
    destruct l as [|y l]; [contradiction|]. simpl in Hx. right.
    clear -Hx. induction l as [|z l IH]; [contradiction|].
    simpl in Hx. destruct l; [contradiction|].
    destruct Hx as [->|Hx]; [left; reflexivity|right; apply IH, Hx].
Qed.

Lemma sort_props_length l : List.length (sort_props l) = List.length l.
Proof.
  unfold sort_props, sort_by_key. rewrite !sort_length. apply length_map.
Qed.

Lemma ends_decompose {A} (first : A) rest :
  rest <> [] ->
  first :: rest = first :: inner (first :: rest) ++ [last (first :: rest) first].
Proof.
  intros Hne. unfold inner. simpl tl. f_equal.
  assert (last (first :: rest) first = last rest first) as ->.
  { destruct rest; [congruence|reflexivity]. }
  apply app_removelast_last, Hne.
Qed.

Lemma wrapped_inv l :
  wrapped l = true ->
  exists first rest,
    l = first :: rest /\ (2 < List.length l)%nat
    /\ name first = "BEGIN" /\ name (last l first) = "END".
Proof.
  unfold wrapped. destruct l as [|first rest]; [discriminate|].
  intros H. apply andb_true_iff in H as [H He]. apply andb_true_iff in H as [Hl Hb].
  apply Nat.ltb_lt in Hl. apply String.eqb_eq in Hb, He.
  exists first, rest. auto.
Qed.

Lemma normalize_vcard_wrapped first rest :
  wrapped (first :: rest) = true ->
  normalize_vcard (first :: rest)
  = first :: sort_props (inner (first :: rest)) ++ [last (first :: rest) first].
Proof. intros H. unfold normalize_vcard. rewrite H. reflexivity. Qed.

Lemma normalize_vcard_unwrapped l :
  wrapped l = false -> normalize_vcard l = sort_props l.
Proof.
  intros H. unfold normalize_vcard. rewrite H. destruct l; reflexivity.
Qed.

Lemma sort_props_Permutation l : Permutation (map sort_params l) (sort_props l).
Proof.
  unfold sort_props, sort_by_key.
  etransitivity; [|apply sort_Permutation]. apply sort_Permutation.
Qed.

Lemma sort_params_Sorted prop :
  Sorted (fun a b => le_lex p_value p_name a b = true) (params (sort_params prop)).
Proof. apply (sort2_Sorted p_value p_name). Qed.

(** Claim C7.  [normalize_vcard] is idempotent.  With a BEGIN first, an
    END last and something between, it sorts what is between and keeps the
    two markers; otherwise it sorts the whole record.  Sorted means: the
    properties by name and then value, as a permutation of the properties
    with sorted parameters, and the parameters of each by name and then
    value. *)
Theorem normalize_vcard_idempotent (vprops : list VProp) :
  normalize_vcard (normalize_vcard vprops) = normalize_vcard vprops
  (* with the wrapper the inside is sorted, without it the whole record *)
  /\ (wrapped vprops = true ->
      exists first rest,
        vprops = first :: rest
        /\ normalize_vcard vprops
           = first :: sort_props (inner vprops) ++ [last vprops first])
  /\ (wrapped vprops = false -> normalize_vcard vprops = sort_props vprops)
  (* sorted: by name, then by value; the parameters likewise *)
  /\ (forall l,
        Sorted (fun a b => le_lex value name a b = true) (sort_props l)
        /\ Forall (fun prop =>
                     Sorted (fun a b => le_lex p_value p_name a b = true)
                            (params prop)) (sort_props l)
        /\ Permutation (map sort_params l) (sort_props l)
        /\ forall prop, Permutation (params prop) (params (sort_params prop))).
Proof.
  split; [|split; [|split; [|intros l; split; [|split; [|split]]]]].
  2:{ intros Hw. pose proof Hw as Hw0.
      apply wrapped_inv in Hw as (first & rest & -> & _).
      exists first, rest. split; [reflexivity|].
      apply normalize_vcard_wrapped, Hw0. }
  2:{ apply normalize_vcard_unwrapped. }
  2:{ apply sort_props_canonical. }
  2:{ eapply Permutation_Forall; [apply sort_props_Permutation|].
      apply Forall_map, Forall_forall. intros prop _. apply sort_params_Sorted. }
  2:{ apply sort_props_Permutation. }
  2:{ intros prop. unfold sort_params, sort_by_key. simpl.
      etransitivity; [|apply sort_Permutation]. apply sort_Permutation. }
  destruct (wrapped vprops) eqn:Hw.
  - (* the wrapper stays where it is, the inside is in order *)
    pose proof Hw as Hw0.
    apply wrapped_inv in Hw as (first & rest & -> & Hl & Hb & He).
    rewrite (normalize_vcard_wrapped _ _ Hw0).
    set (lst := last (first :: rest) first) in *.
    set (body := sort_props (inner (first :: rest))).
    assert (Hlen : List.length body = List.length (inner (first :: rest))).
    { apply sort_props_length. }
    assert (Hin : List.length (inner (first :: rest)) = (List.length rest - 1)%nat).
    { unfold inner. simpl tl. destruct rest as [|x rest]; [reflexivity|].
      rewrite (app_removelast_last first (l := x :: rest)) at 2 by discriminate.
      rewrite length_app. simpl List.length. lia. }
    simpl in Hl.
    assert (Hlast : last (first :: body ++ [lst]) first = lst).
    { rewrite app_comm_cons. apply last_last. }
    assert (Hw' : wrapped (first :: body ++ [lst]) = true).
    { unfold wrapped. rewrite Hlast, Hb, He. simpl List.length.
      rewrite length_app, Hlen, Hin. simpl List.length.
      replace (2 <? S (List.length rest - 1 + 1))%nat with true; [reflexivity|].
      symmetry. apply Nat.ltb_lt. lia. }
    rewrite (normalize_vcard_wrapped _ _ Hw'), Hlast. f_equal. f_equal.
    unfold inner at 1. simpl tl. rewrite removelast_last.
    apply canonical_fixed, sort_props_canonical.
  - (* the whole record is put in order; a wrapper that shows up only then
       encloses an inside that is in order already *)
    rewrite (normalize_vcard_unwrapped _ Hw).
    pose proof (sort_props_canonical vprops) as Hc.
    set (r := sort_props vprops) in *.
    destruct (wrapped r) eqn:Hw'.
    + pose proof Hw' as Hw0.
      apply wrapped_inv in Hw' as (f & r' & Er & Hl & _).
      rewrite Er in *.
      rewrite (normalize_vcard_wrapped _ _ Hw0).
      rewrite (canonical_fixed _ (canonical_inner _ Hc)).
      symmetry. apply ends_decompose.
      destruct r'; [simpl in Hl; lia|discriminate].
    + rewrite (normalize_vcard_unwrapped _ Hw'). apply canonical_fixed, Hc.
Qed.

(** A record that gets its wrapper from the sort alone. *)
Example normalize_vcard_late_wrapper :
  let r := [mkProp None "END" [] "x"; mkProp None "C" [] "y"; mkProp None "BEGIN" [] "z"] in
  wrapped r = false /\ wrapped (normalize_vcard r) = true.
Proof. split; reflexivity. Qed.

(** ** Dictionaries *)

Section DictFacts.
Context {V : Type}.
Implicit Types (d : list (string * V)) (k : string) (v : V).

Lemma lookup_store k k' v d :
  lookup k (store k' v d) = if String.eqb k k' then Some v else lookup k d.
Proof.
  induction d as [|[k0 v0] d IH]; simpl.
  - destruct (String.eqb k k'); reflexivity.
  - destruct (String.eqb k' k0) eqn:E0; simpl.
    + apply String.eqb_eq in E0. subst k0.
      destruct (String.eqb k k'); reflexivity.
    + destruct (String.eqb k k0) eqn:E1.
      * destruct (String.eqb k k') eqn:E2; [|reflexivity].
        apply String.eqb_eq in E1, E2. subst. rewrite String.eqb_refl in E0.
        discriminate.
      * exact IH.
Qed.

Lemma lookup_In_values k v d : lookup k d = Some v -> In v (values d).
Proof.
  induction d as [|[k0 v0] d IH]; simpl; [discriminate|].
  destruct (String.eqb k k0).
  - intros [= ->]. left. reflexivity.
  - intros H. right. apply IH, H.
Qed.

Lemma lookup_In k v d : lookup k d = Some v -> In (k, v) d.
Proof.
  induction d as [|[k0 v0] d IH]; simpl; [discriminate|].
  destruct (String.eqb k k0) eqn:E.
  - apply String.eqb_eq in E. intros [= ->]. left. congruence.
  - intros H. right. apply IH, H.
Qed.

Lemma In_store k v d kv :
  In kv (store k v d) -> kv = (k, v) \/ In kv d.
Proof.
  induction d as [|[k0 v0] d IH]; simpl.
  - intros [<-|[]]. auto.
  - destruct (String.eqb k k0); simpl.
    + intros [<-|H]; auto.
    + intros [<-|H]; auto. destruct (IH H); auto.
Qed.

Lemma In_store_new k v d : In (k, v) (store k v d).
Proof.
  induction d as [|[k0 v0] d IH]; simpl; [auto|].
  destruct (String.eqb k k0); simpl; auto.
Qed.

(** Storing at a key keeps every binding but the one read at that key. *)
Lemma In_store_cases k v d kv :
  In kv d ->
  In kv (store k v d) \/ (fst kv = k /\ lookup k d = Some (snd kv)).
Proof.
  induction d as [|[k0 v0] d IH]; simpl; [contradiction|].
  destruct (String.eqb k k0) eqn:E.
  - apply String.eqb_eq in E. subst k0.
    intros [<-|H]; simpl; auto.
  - intros [<-|H]; simpl; [auto|].
    destruct (IH H); auto.
Qed.

Lemma In_remove k d kv : In kv (remove k d) -> In kv d.
Proof.
  induction d as [|[k0 v0] d IH]; simpl; [contradiction|].
  destruct (String.eqb k k0); simpl.
  - auto.
  - intros [<-|H]; auto.
Qed.

Lemma In_remove_cases k d kv :
  In kv d ->
  In kv (remove k d) \/ (fst kv = k /\ lookup k d = Some (snd kv)).
Proof.
  induction d as [|[k0 v0] d IH]; simpl; [contradiction|].
  destruct (String.eqb k k0) eqn:E.
  - apply String.eqb_eq in E. subst k0.
    intros [<-|H]; simpl; auto.
  - intros [<-|H]; simpl; [auto|].
    destruct (IH H); auto.
Qed.
End DictFacts.

(** ** The scan for the first accepted candidate *)

Section ScanFacts.
Context {A S : Type} (test : A -> S -> bool * S) (P : S -> Prop).
Hypothesis test_keeps : forall x s, P s -> P (snd (test x s)).

Lemma scan_spec l st :
  P st ->
  P (snd (scan test l st))
  /\ match fst (scan test l st) with
     | Some (hit, rest) =>
         (exists s, P s /\ test hit s = (true, snd (scan test l st)))
         /\ In hit l
         /\ (forall x, In x l -> x = hit \/ In x rest)
         /\ (forall x, In x rest -> In x l)
     | None => True
     end.
Proof.
  revert st. induction l as [|x l IH]; intros st Hst; simpl.
  - split; [exact Hst|exact I].
  - destruct (test x st) as [b st'] eqn:Et.
    pose proof (test_keeps x st Hst) as Hst'. rewrite Et in Hst'. simpl in Hst'.
    destruct b; simpl.
    + split; [exact Hst'|]. split; [exists st; auto|].
      split; [auto|]. split; [intros y [<-|H]; auto|intros y H; auto].
    + specialize (IH st' Hst').
      destruct (scan test l st') as [[[hit rest]|] st''] eqn:Es; simpl in *.
      * destruct IH as (H1 & H2 & H3 & H4 & H5). split; [exact H1|].
        split; [exact H2|]. split; [auto|]. split.
        -- intros y [<-|Hy]; [right; left; reflexivity|].
           destruct (H4 y Hy); auto.
        -- intros y [<-|Hy]; auto.
      * exact IH.
Qed.
End ScanFacts.

(** ** The ALTID binding table *)

Lemma extends_refl a : extends a a.
Proof. intros k v H. exact H. Qed.

Lemma extends_trans a b c : extends a b -> extends b c -> extends a c.
Proof. intros H1 H2 k v H. apply H2, H1, H. Qed.

(** What a successful ALTID step leaves. *)
Lemma match_altid_Some alt ps a a' :
  match_altid alt ps a = Some a' ->
  extends a a'
  /\ (injective a -> injective a')
  /\ (forall k v, lookup k a' = Some v ->
        lookup k a = Some v \/ exists p, In p ps /\ p_value p = v)
  /\ (forall k, alt = Some (mkAltIdMatch k true) -> exists v, lookup k a' = Some v).
Proof.
  unfold match_altid.
  destruct ps as [|p [|p2 ps]]; [| |discriminate].
  - destruct alt as [[k mand]|]; simpl.
    + destruct mand; [discriminate|]. intros [= <-].
      split; [apply extends_refl|]. split; [auto|]. split; [auto|].
      intros k0 [= _ E]. 
    + intros [= <-]. split; [apply extends_refl|]. split; [auto|].
      split; [auto|]. discriminate.
  - destruct alt as [[k mand]|]; simpl.
    + destruct (lookup k a) as [bound|] eqn:Ek.
      * destruct (String.eqb (p_value p) bound) eqn:E; simpl; [|discriminate].
        intros [= <-]. split; [apply extends_refl|]. split; [auto|].
        split; [auto|]. intros k0 [= <- _]. eauto.
      * destruct (mem_str (p_value p) (values a)) eqn:Em; [discriminate|].
        intros [= <-].
        assert (Hfresh : forall k', lookup k' a <> Some (p_value p)).
        { intros k' Hk'. apply lookup_In_values, mem_str_In in Hk'. congruence. }
        split.
        { intros k0 v H. rewrite lookup_store.
          destruct (String.eqb k0 k) eqn:E; [|exact H].
          apply String.eqb_eq in E. subst. congruence. }
        split.
        { intros Hinj k1 k2 v. rewrite !lookup_store.
          destruct (String.eqb k1 k) eqn:E1; destruct (String.eqb k2 k) eqn:E2.
          - apply String.eqb_eq in E1, E2. congruence.
          - intros [= <-] H. exfalso. apply (Hfresh k2 H).
          - intros H [= <-]. exfalso. apply (Hfresh k1 H).
          - apply Hinj. }
        split.
        { intros k0 v. rewrite lookup_store.
          destruct (String.eqb k0 k); [|auto].
          intros [= <-]. right. exists p. simpl. auto. }
        intros k0 [= <- _]. rewrite lookup_store, String.eqb_refl. eauto.
    + intros [= <-]. split; [apply extends_refl|]. split; [auto|].
      split; [auto|]. discriminate.
Qed.

Lemma PropMatch_match_table (self : PropMatch) (prop : VProp) (t : Tables) :
  extends (snd t) (snd (snd (PropMatch_match self prop t)))
  /\ (injective (snd t) -> injective (snd (snd (PropMatch_match self prop t))))
  /\ (forall k v, lookup k (snd (snd (PropMatch_match self prop t))) = Some v ->
        lookup k (snd t) = Some v \/ In v (altid_values prop))
  /\ (fst (PropMatch_match self prop t) = true ->
      forall k, m_alt_id self = Some (mkAltIdMatch k true) ->
                exists v, lookup k (snd (snd (PropMatch_match self prop t))) = Some v).
Proof.
  unfold PropMatch_match. destruct t as [g a]. cbn [snd].
  assert (Hsame : extends a a /\ (injective a -> injective a)
                  /\ (forall k v, lookup k a = Some v ->
                        lookup k a = Some v \/ In v (altid_values prop))).
  { split; [apply extends_refl|]. auto. }
  destruct (negb (match_value (m_value self) (value prop)));
    [simpl; intuition discriminate|].
  destruct (match_params _ _) as [left_over|]; [|simpl; intuition discriminate].
  destruct (existsb _ (values left_over)); [simpl; intuition discriminate|].
  fold (altid_params prop).
  destruct (match_altid (m_alt_id self) (altid_params prop) a) as [a'|] eqn:Ea;
    [|simpl; intuition discriminate].
  apply match_altid_Some in Ea as (He & Hi & Hv & Hb).
  assert (Hv' : forall k v, lookup k a' = Some v ->
                  lookup k a = Some v \/ In v (altid_values prop)).
  { intros k v H. destruct (Hv k v H) as [|(p & Hp & <-)]; [auto|].
    right. unfold altid_values. apply in_map, Hp. }
  destruct (match_group _ _ g); simpl.
  - split; [exact He|]. split; [exact Hi|]. split; [exact Hv'|].
    intros _. exact Hb.
  - split; [exact He|]. split; [exact Hi|]. split; [exact Hv'|].
    discriminate.
Qed.

Lemma PropMatch_match_keeps Q self prop t :
  (forall v, In v (altid_values prop) -> Q v) ->
  table_ok Q t -> table_ok Q (snd (PropMatch_match self prop t)).
Proof.
  intros HQ [Hi Hv].
  destruct (PropMatch_match_table self prop t) as (_ & Hi' & Hv' & _).
  split; [auto|].
  intros k v H. destruct (Hv' k v H); eauto.
Qed.

(** ** The run *)

Lemma In_remaining pm d :
  In pm (remaining d) <-> exists n ms, In (n, ms) d /\ In pm ms.
Proof.
  unfold remaining, values. rewrite in_flat_map. split.
  - intros (ms & Hms & Hpm). apply in_map_iff in Hms as ([n ms'] & <- & Hin).
    exists n, ms'. auto.
  - intros (n & ms & Hin & Hpm). exists ms. split; [|exact Hpm].
    apply in_map_iff. exists (n, ms). auto.
Qed.

Lemma append_to_keyed (d : list (string * list PropMatch)) pm :
  well_keyed d -> well_keyed (append_to (m_name pm) pm d).
Proof.
  intros Hk n ms x Hin Hx. unfold append_to in Hin.
  destruct (lookup (m_name pm) d) as [l|] eqn:El;
    apply In_store in Hin as [[= -> ->]|Hin]; eauto.
  - apply in_app_iff in Hx as [Hx|[<-|[]]]; [|reflexivity].
    eapply Hk; [eapply lookup_In, El|exact Hx].
  - destruct Hx as [<-|[]]. reflexivity.
Qed.

Lemma append_to_remaining (d : list (string * list PropMatch)) pm x :
  In x (remaining (append_to (m_name pm) pm d)) <-> x = pm \/ In x (remaining d).
Proof.
  rewrite !In_remaining. unfold append_to. split.
  - intros (n & ms & Hin & Hx).
    destruct (lookup (m_name pm) d) as [l|] eqn:El;
      apply In_store in Hin as [[= -> ->]|Hin]; eauto.
    + apply in_app_iff in Hx as [Hx|[<-|[]]]; [|auto].
      right. exists (m_name pm), l. split; [eapply lookup_In, El|exact Hx].
    + destruct Hx as [<-|[]]. auto.
  - intros [->|(n & ms & Hin & Hx)].
    + destruct (lookup (m_name pm) d) as [l|] eqn:El.
      * exists (m_name pm), (l ++ [pm]). split; [apply In_store_new|].
        apply in_app_iff. right. left. reflexivity.
      * exists (m_name pm), [pm]. split; [apply In_store_new|left; reflexivity].
    + destruct (lookup (m_name pm) d) as [l|] eqn:El.
      * destruct (In_store_cases (m_name pm) (l ++ [pm]) d _ Hin) as [H|[Hn Hl]].
        -- exists n, ms. auto.
        -- simpl in Hn, Hl. rewrite El in Hl. injection Hl as <-.
           exists (m_name pm), (l ++ [pm]). split; [apply In_store_new|].
           apply in_app_iff. auto.
      * destruct (In_store_cases (m_name pm) [pm] d _ Hin) as [H|[Hn Hl]].
        -- exists n, ms. auto.
        -- simpl in Hl. congruence.
Qed.

Lemma bound_if_referenced_extends pm a a' :
  extends a a' -> bound_if_referenced pm a -> bound_if_referenced pm a'.
Proof. intros He Hb k Hk. destruct (Hb k Hk) as [v Hv]. exists v. apply He, Hv. Qed.

Lemma match_prop_ok Q all st prop :
  (forall v, In v (altid_values prop) -> Q v) ->
  run_ok Q all st -> run_ok Q all (match_prop st prop).
Proof.
  intros HQ [Ht Hk Hc]. unfold match_prop.
  destruct (lookup (name prop) (matches_by_name st)) as [matches|] eqn:El.
  - set (test := fun pm t => PropMatch_match pm prop t).
    set (P := fun t : Tables => table_ok Q t /\ extends (snd (tables st)) (snd t)).
    assert (Hkeeps : forall x s, P s -> P (snd (test x s))).
    { intros x s [H1 H2]. split.
      - apply PropMatch_match_keeps; assumption.
      - eapply extends_trans; [exact H2|]. apply PropMatch_match_table. }
    assert (HP : P (tables st)) by (split; [exact Ht|apply extends_refl]).
    destruct (scan_spec test P Hkeeps matches (tables st) HP) as [[Ht' He'] Hhit].
    destruct (scan test matches (tables st)) as [[[pm rest]|] t'] eqn:Es;
      simpl in Ht', He', Hhit.
    + destruct Hhit as ((s & [Hs1 Hs2] & Htest) & Hin & Hsplit & Hrest).
      assert (Hname : forall x, In x matches -> m_name x = name prop).
      { intros x Hx. eapply Hk; [eapply lookup_In, El|exact Hx]. }
      assert (Hpm : bound_if_referenced pm (snd t')).
      { destruct (PropMatch_match_table pm prop s) as (_ & _ & _ & Hb).
        unfold test in Htest. rewrite Htest in Hb. simpl in Hb.
        intros k Hk'. apply Hb; auto. }
      rewrite (Hname pm Hin).
      constructor; simpl.
      * exact Ht'.
      * intros n ms x Hnm Hx.
        destruct rest as [|r rest].
        -- apply In_remove in Hnm. eauto.
        -- apply In_store in Hnm as [[= -> ->]|Hnm]; [|eauto].
           apply Hname, Hrest, Hx.
      * intros x Hx. destruct (Hc x Hx) as [Hr|Hb].
        2:{ right. eapply bound_if_referenced_extends; eassumption. }
        apply In_remaining in Hr as (n & ms & Hnm & Hxm).
        assert (Hcase : In (n, ms) (match rest with
                                    | _ :: _ => store (name prop) rest (matches_by_name st)
                                    | [] => remove (name prop) (matches_by_name st)
                                    end)
                        \/ ms = matches).
        { destruct rest.
          - destruct (In_remove_cases (name prop) _ _ Hnm) as [|[_ Hl]]; [auto|].
            simpl in Hl. right. congruence.
          - destruct (In_store_cases (name prop) (p :: rest) _ _ Hnm) as [|[_ Hl]];
              [auto|]. simpl in Hl. right. congruence. }
        destruct Hcase as [Hcase| ->].
        -- left. apply In_remaining. eauto.
        -- destruct (Hsplit x Hxm) as [->|Hxr]; [right; exact Hpm|].
           left. apply In_remaining. exists (name prop), rest. split; [|exact Hxr].
           destruct rest; [contradiction|]. apply In_store_new.
    + constructor; simpl; [exact Ht'|exact Hk|].
      intros x Hx. destruct (Hc x Hx) as [Hr|Hb]; [auto|].
      right. eapply bound_if_referenced_extends; eassumption.
  - constructor; simpl; assumption.
Qed.

Lemma fold_match_prop_ok Q all props st :
  (forall prop v, In prop props -> In v (altid_values prop) -> Q v) ->
  run_ok Q all st -> run_ok Q all (fold_left match_prop props st).
Proof.
  revert st. induction props as [|prop props IH]; intros st HQ Hok; simpl.
  - exact Hok.
  - apply IH.
    + intros p v Hp. apply HQ. right. exact Hp.
    + apply match_prop_ok; [|exact Hok]. intros v. apply HQ. left. reflexivity.
Qed.

Lemma initial_matches_ok want defaults :
  well_keyed (initial_matches want defaults)
  /\ forall pm, In pm want -> In pm (remaining (initial_matches want defaults)).
Proof.
  unfold initial_matches.
  set (f := fun d pm => append_to (m_name pm) pm d).
  set (g := fun d pm => if mem_str (m_name pm) (map m_name want) then d
                        else append_to (m_name pm) pm d).
  assert (Hf : forall l d, well_keyed d ->
                 well_keyed (fold_left f l d)
                 /\ forall pm, In pm l \/ In pm (remaining d) ->
                               In pm (remaining (fold_left f l d))).
  { induction l as [|x l IH]; intros d Hd; simpl.
    - split; [exact Hd|]. intros pm [[]|H]. exact H.
    - destruct (IH (f d x) (append_to_keyed d x Hd)) as [H1 H2].
      split; [exact H1|]. intros pm H. apply H2.
      destruct H as [[<-|H]|H]; auto; right; apply append_to_remaining; auto. }
  assert (Hg : forall l d, well_keyed d ->
                 well_keyed (fold_left g l d)
                 /\ forall pm, In pm (remaining d) ->
                               In pm (remaining (fold_left g l d))).
  { induction l as [|x l IH]; intros d Hd; simpl.
    - auto.
    - unfold g at 2 4. destruct (mem_str (m_name x) (map m_name want)).
      + apply IH, Hd.
      + destruct (IH _ (append_to_keyed d x Hd)) as [H1 H2].
        split; [exact H1|]. intros pm H. apply H2, append_to_remaining. auto. }
  assert (H0 : well_keyed (@nil (string * list PropMatch))) by (intros ? ? ? []).
  destruct (Hf want [] H0) as [H1 H2].
  destruct (Hg defaults _ H1) as [H3 H4].
  split; [exact H3|]. intros pm Hpm. apply H4, H2. auto.
Qed.

Lemma match_props_no_errors props want defaults :
  match_errors (match_props props want defaults) = [] ->
  forall pm,
    In pm (remaining (matches_by_name (match_props props want defaults))) ->
    m_mandatory pm = false.
Proof.
  unfold match_props.
  set (st := fold_left match_prop props _).
  destruct (flat_map _ (values (matches_by_name st))) as [|u us] eqn:Eu.
  - intros _ pm Hpm. unfold remaining in Hpm.
    apply in_flat_map in Hpm as (ms & Hms & Hpm).
    destruct (m_mandatory pm) eqn:Em; [|reflexivity].
    assert (In pm []) as [].
    rewrite <- Eu. apply in_flat_map. exists ms. split; [exact Hms|].
    apply filter_In. auto.
  - simpl. intros H. apply app_eq_nil in H as [_ H]. discriminate.
Qed.

Lemma match_props_state props want defaults :
  matches_by_name (match_props props want defaults)
  = matches_by_name (fold_left match_prop props
       (mkState (initial_matches want defaults) ([], []) []))
  /\ tables (match_props props want defaults)
     = tables (fold_left match_prop props
         (mkState (initial_matches want defaults) ([], []) [])).
Proof.
  unfold match_props. destruct (flat_map _ _); split; reflexivity.
Qed.

(** Two mandatory patterns with mandatory ALTID references of different
    symbolic ids cannot both be matched in a record whose ALTID parameters
    all carry one value. *)
Lemma match_props_one_altid_value props want defaults pm1 pm2 k1 k2 v0 :
  (forall prop v, In prop props -> In v (altid_values prop) -> v = v0) ->
  In pm1 want -> In pm2 want ->
  m_mandatory pm1 = true -> m_mandatory pm2 = true ->
  m_alt_id pm1 = Some (mkAltIdMatch k1 true) ->
  m_alt_id pm2 = Some (mkAltIdMatch k2 true) ->
  k1 <> k2 ->
  match_errors (match_props props want defaults) <> [].
Proof.
  intros HQ H1 H2 Hm1 Hm2 Ha1 Ha2 Hne Herr.
  pose proof (match_props_no_errors _ _ _ Herr) as Hleft.
  destruct (match_props_state props want defaults) as [Ed Et].
  rewrite Ed in Hleft.
  destruct (initial_matches_ok want defaults) as [Hk0 Hc0].
  assert (Hok0 : run_ok (fun v => v = v0) want
                   (mkState (initial_matches want defaults) ([], []) [])).
  { constructor; simpl.
    - split; [intros ? ? ? H; discriminate H|intros ? ? H; discriminate H].
    - exact Hk0.
    - auto. }
  pose proof (fold_match_prop_ok _ _ props _ HQ Hok0) as [[Hinj Hval] _ Hc].
  set (st := fold_left match_prop props _) in *.
  assert (Hb : forall pm k, In pm want -> m_mandatory pm = true ->
                 m_alt_id pm = Some (mkAltIdMatch k true) ->
                 lookup k (snd (tables st)) = Some v0).
  { intros pm k Hin Hm Ha. destruct (Hc pm Hin) as [Hr|Hb].
    - apply Hleft in Hr. congruence.
    - destruct (Hb k Ha) as [v Hv]. rewrite (Hval k v Hv) in Hv. exact Hv. }
  apply Hne. eapply Hinj; eauto.
Qed.

(** The table of a run is one-to-one. *)
Lemma match_props_injective props want defaults :
  injective (snd (tables (match_props props want defaults))).
Proof.
  destruct (match_props_state props want defaults) as [_ ->].
  destruct (initial_matches_ok want defaults) as [Hk0 Hc0].
  assert (Hok0 : run_ok (fun _ => True) want
                   (mkState (initial_matches want defaults) ([], []) [])).
  { constructor; simpl.
    - split; [intros ? ? ? H; discriminate H|auto].
    - exact Hk0.
    - auto. }
  apply (fold_match_prop_ok _ _ props _ (fun _ _ _ _ => I) Hok0).
Qed.

(** ** From the record as parsed to the properties the loop sees *)

Lemma In_inner {A} (x : A) l : In x (inner l) -> In x l.
Proof.
  unfold inner. destruct l as [|y l]; simpl; [auto|]. intros H. right.
  induction l as [|z l IH]; [contradiction|].
  simpl in H. destruct l; [contradiction|].
  destruct H as [->|H]; [left; reflexivity|right; apply IH, H].
Qed.

Lemma In_sort_props x l : In x (sort_props l) -> exists y, In y l /\ x = sort_params y.
Proof.
  intros H. unfold sort_props, sort_by_key in H.
  eapply Permutation_in in H.
  2:{ symmetry. etransitivity; [|apply sort_Permutation]. apply sort_Permutation. }
  apply in_map_iff in H as (y & <- & Hy). eauto.
Qed.

Lemma altid_values_sort_params y v :
  In v (altid_values (sort_params y)) -> In v (altid_values y).
Proof.
  unfold altid_values, altid_params, sort_params. simpl.
  rewrite !in_map_iff. intros (p & <- & Hp). exists p. split; [reflexivity|].
  apply filter_In in Hp as [Hp Hn]. apply filter_In. split; [|exact Hn].
  eapply Permutation_in; [|exact Hp]. unfold sort_by_key.
  symmetry. etransitivity; [|apply sort_Permutation]. apply sort_Permutation.
Qed.

Lemma In_normalize_vcard x l :
  In x (normalize_vcard l) -> In x l \/ exists y, In y l /\ x = sort_params y.
Proof.
  unfold normalize_vcard. destruct l as [|first rest]; [auto|].
  destruct (wrapped (first :: rest)).
  - intros H. apply in_app_iff in H as [[<-|[]]|H]; [left; left; reflexivity|].
    apply in_app_iff in H as [H|[<-|[]]].
    + apply In_sort_props in H as (y & Hy & ->). right. exists y.
      split; [apply In_inner, Hy|reflexivity].
    + left. destruct rest; [left; reflexivity|]. right.
      change (In (last (v :: rest) first) (v :: rest)).
      generalize (v :: rest) (@nil_cons _ v rest). clear.
      induction l as [|z l IH]; [congruence|]. intros _.
      destruct l; [left; reflexivity|]. right. apply IH. discriminate.
  - intros H. right. apply In_sort_props, H.
Qed.

Lemma altid_values_normalized v0 props :
  (forall prop v, In prop props -> In v (altid_values prop) -> v = v0) ->
  forall prop v, In prop (inner (normalize_vcard props)) ->
                 In v (altid_values prop) -> v = v0.
Proof.
  intros H prop v Hp Hv. apply In_inner, In_normalize_vcard in Hp.
  destruct Hp as [Hp|(y & Hy & ->)].
  - eapply H; eassumption.
  - eapply H; [exact Hy|]. apply altid_values_sort_params, Hv.
Qed.

(** Claim C1.  In a run of [match_vcard] the ALTID table is bind-once and
    one-to-one.  A candidate with an ALTID reference [k], tested against a
    property with exactly one ALTID parameter, is rejected when [k] is
    bound to another string, and, with [k] unbound, when the string is
    bound to a symbolic id already.  The test of a candidate keeps every
    binding and keeps the table one-to-one, so the table of a run is
    one-to-one.  Hence a run fails when all ALTID parameters of the record
    carry one value and two mandatory patterns refer, mandatorily, to
    different symbolic ids; the record with the value 1 twice fails under
    the ids k1 and k2, where each property alone passes, and passes under
    one id. *)
Theorem altid_table_bind_once_bijective :
  (* a candidate with an ALTID reference, against one ALTID parameter *)
  (forall self prop g a k mand p,
      m_alt_id self = Some (mkAltIdMatch k mand) ->
      altid_params prop = [p] ->
      (forall bound, lookup k a = Some bound -> bound <> p_value p ->
                     fst (PropMatch_match self prop (g, a)) = false)
      /\ (lookup k a = None ->
          forall k', lookup k' a = Some (p_value p) ->
                     fst (PropMatch_match self prop (g, a)) = false))
  (* the table keeps its bindings and stays one-to-one *)
  /\ (forall self prop t,
        extends (snd t) (snd (snd (PropMatch_match self prop t)))
        /\ (injective (snd t) ->
            injective (snd (snd (PropMatch_match self prop t)))))
  /\ (forall props want defaults,
        injective (snd (tables (match_props props want defaults))))
  (* the run *)
  /\ (forall vcard props want defaults pm1 pm2 k1 k2 v0,
        parse vcard = Ok props ->
        (forall prop v, In prop props -> In v (altid_values prop) -> v = v0) ->
        In pm1 want -> In pm2 want ->
        m_mandatory pm1 = true -> m_mandatory pm2 = true ->
        m_alt_id pm1 = Some (mkAltIdMatch k1 true) ->
        m_alt_id pm2 = Some (mkAltIdMatch k2 true) ->
        k1 <> k2 ->
        match_vcard vcard want defaults <> Returns)
  (* the value 1 under two symbolic ids, and under one *)
  /\ match_vcard (vcard_of ["TEL;ALTID=1:a"; "EMAIL;ALTID=1:b"])
                 [tel "k1"; email "k2"] default_matches
     = RaisesVCardMatchError
         [mismatched (mkProp None "TEL" [mkParam "ALTID" "1"] "a") [tel "k1"];
          unmatched [tel "k1"]]
  /\ match_vcard (vcard_of ["TEL;ALTID=1:a"]) [tel "k1"] default_matches = Returns
  /\ match_vcard (vcard_of ["EMAIL;ALTID=1:b"]) [email "k2"] default_matches = Returns
  /\ match_vcard (vcard_of ["TEL;ALTID=1:a"; "EMAIL;ALTID=1:b"])
                 [tel "k1"; email "k1"] default_matches = Returns.
Proof.
  split.
  { intros self prop g a k mand p Ha Hp.
    assert (Hgen : match_altid (m_alt_id self) (altid_params prop) a = None ->
                   fst (PropMatch_match self prop (g, a)) = false).
    { intros Hnone. unfold PropMatch_match.
      destruct (negb (match_value (m_value self) (value prop))); [reflexivity|].
      destruct (match_params _ _) as [left_over|]; [|reflexivity].
      destruct (existsb _ (values left_over)); [reflexivity|].
      fold (altid_params prop). rewrite Hnone. reflexivity. }
    rewrite Ha, Hp in Hgen. simpl in Hgen. split.
    - intros bound Hb Hne. apply Hgen. rewrite Hb.
      destruct (String.eqb (p_value p) bound) eqn:E; [|reflexivity].
      apply String.eqb_eq in E. congruence.
    - intros Hnone k' Hk'. apply Hgen. rewrite Hnone.
      apply lookup_In_values, mem_str_In in Hk'. rewrite Hk'. reflexivity. }
  split.
  { intros self prop t.
    destruct (PropMatch_match_table self prop t) as (H1 & H2 & _). auto. }
  split; [exact match_props_injective|].
  split.
  { intros vcard props want defaults pm1 pm2 k1 k2 v0 Hparse Hv H1 H2 Hm1 Hm2 Ha1 Ha2 Hne.
    unfold match_vcard. rewrite Hparse.
    destruct (missing_begin_or_end props); [discriminate|].
    pose proof (match_props_one_altid_value
                  (inner (normalize_vcard props)) want defaults pm1 pm2 k1 k2 v0
                  (altid_values_normalized v0 props Hv) H1 H2 Hm1 Hm2 Ha1 Ha2 Hne) as He.
    destruct (match_errors _); [congruence|discriminate]. }
  repeat split; vm_compute; reflexivity.
Qed.

(** ** The differ *)

Lemma diff_objs_loops a b segs :
  diff_objs a b segs
  = missing_diffs b segs a ++ unexpected_diffs a segs b ++ shared_diffs b segs a.
Proof.
  unfold diff_objs. cbn [diff_pair]. f_equal; [|f_equal].
  - induction a as [|[k v] a IH]; [reflexivity|]. cbn [missing_diffs].
    rewrite <- IH. reflexivity.
  - induction a as [|[k v] a IH]; [reflexivity|]. cbn [shared_diffs].
    rewrite <- IH. reflexivity.
Qed.

Lemma In_lookup {V} (d : list (string * V)) k v :
  NoDup (keys d) -> In (k, v) d -> lookup k d = Some v.
Proof.
  induction d as [|[k0 v0] d IH]; simpl; [contradiction|].
  intros Hnd [[= -> ->]|Hin].
  - rewrite String.eqb_refl. reflexivity.
  - inversion Hnd; subst. destruct (String.eqb k k0) eqn:E.
    + apply String.eqb_eq in E. subst k0. exfalso. apply H1.
      unfold keys. apply in_map_iff. exists (k, v). auto.
    + apply IH; assumption.
Qed.

Lemma In_missing_diffs db segs d x :
  In x (missing_diffs db segs d) <->
  exists key v, In (key, v) d /\ lookup key db = None
                /\ x = mkDiff (encode_path (segs ++ [key])) v JNull.
Proof.
  induction d as [|[k v] d IH]; simpl.
  - split; [contradiction|]. intros (? & ? & [] & _).
  - destruct (lookup k db) eqn:E; simpl; rewrite IH; split.
    + intros (key & v' & H1 & H2 & H3). exists key, v'. auto.
    + intros (key & v' & [[= <- <-]|H1] & H2 & H3); [congruence|]. eauto.
    + intros [<-|(key & v' & H1 & H2 & H3)]; [exists k, v; auto|].
      exists key, v'. auto.
    + intros (key & v' & [[= <- <-]|H1] & H2 & H3); [left; congruence|].
      right. eauto.
Qed.

Lemma In_unexpected_diffs da segs db x :
  In x (unexpected_diffs da segs db) <->
  exists key v, In (key, v) db /\ lookup key da = None
                /\ x = mkDiff (encode_path (segs ++ [key])) JNull v.
Proof.
  unfold unexpected_diffs. rewrite in_flat_map. split.
  - intros ([key v] & Hin & Hx). simpl in Hx.
    destruct (lookup key da) eqn:E; [contradiction|].
    destruct Hx as [<-|[]]. exists key, v. auto.
  - intros (key & v & Hin & Hl & ->). exists (key, v). split; [exact Hin|].
    simpl. rewrite Hl. left. reflexivity.
Qed.

Lemma In_shared_diffs db segs d x :
  In x (shared_diffs db segs d) <->
  exists key va vb, In (key, va) d /\ lookup key db = Some vb
                    /\ In x (diff_pair va vb (segs ++ [key])).
Proof.
  induction d as [|[k v] d IH]; simpl.
  - split; [contradiction|]. intros (? & ? & ? & [] & _).
  - destruct (lookup k db) as [v'|] eqn:E; [rewrite in_app_iff|]; rewrite IH; split.
    + intros [H|(key & va & vb & H1 & H2 & H3)]; [exists k, v, v'; auto|].
      exists key, va, vb. auto.
    + intros (key & va & vb & [[= <- <-]|H1] & H2 & H3).
      * left. rewrite E in H2. injection H2 as <-. exact H3.
      * right. exists key, va, vb. auto.
    + intros (key & va & vb & H1 & H2 & H3). exists key, va, vb. auto.
    + intros (key & va & vb & [[= <- <-]|H1] & H2 & H3); [congruence|].
      exists key, va, vb. auto.
Qed.

(** Claim C6.  For two maps [diff_objs] reports, and reports only: for
    a key of [want] alone a diff with the value of [want] as [a_val] and
    [b_val] unset; for a key of [have] alone a diff with the value of
    [have] as [b_val] and [a_val] unset; for a shared key what the differ
    reports on the two values below that key, going into two maps and two
    lists again.  For two lists of unequal length [diff_list] reports one
    diff, at the path it was given, with the two lists whole. *)
Theorem diff_objs_spec (want have : list (string * json)) (segs : list string) :
  NoDup (keys want) -> NoDup (keys have) ->
  (* what the diff list holds *)
  (forall x, In x (diff_objs want have segs) <->
     (exists key v, lookup key want = Some v /\ lookup key have = None
                    /\ x = mkDiff (encode_path (segs ++ [key])) v JNull)
     \/ (exists key v, lookup key have = Some v /\ lookup key want = None
                       /\ x = mkDiff (encode_path (segs ++ [key])) JNull v)
     \/ (exists key va vb, lookup key want = Some va /\ lookup key have = Some vb
                           /\ In x (diff_pair va vb (segs ++ [key]))))
  (* a shared key with two maps, or two lists, goes to the same differ *)
  /\ (forall a b segs', diff_pair (JObj a) (JObj b) segs' = diff_objs a b segs')
  /\ (forall a b segs', diff_pair (JList a) (JList b) segs' = diff_list a b segs')
  (* two lists of unequal length *)
  /\ (forall a b segs',
        List.length a <> List.length b ->
        diff_list a b segs' = [mkDiff (encode_path segs') (JList a) (JList b)])
  /\ diff_objs [("a", JInt 1); ("b", JInt 2)] [("a", JInt 1); ("c", JInt 3)] []
     = [mkDiff "b" (JInt 2) JNull; mkDiff "c" JNull (JInt 3)].
Proof.
  intros Hw Hh. split.
  { intros x. rewrite diff_objs_loops, !in_app_iff.
    rewrite In_missing_diffs, In_unexpected_diffs, In_shared_diffs.
    split.
    - intros [(key & v & H1 & H2 & H3)|[(key & v & H1 & H2 & H3)|(key & va & vb & H1 & H2 & H3)]].
      + left. exists key, v. split; [apply In_lookup; assumption|auto].
      + right. left. exists key, v. split; [apply In_lookup; assumption|auto].
      + right. right. exists key, va, vb. split; [apply In_lookup; assumption|auto].
    - intros [(key & v & H1 & H2 & H3)|[(key & v & H1 & H2 & H3)|(key & va & vb & H1 & H2 & H3)]].
      + left. exists key, v. split; [apply lookup_In; assumption|auto].
      + right. left. exists key, v. split; [apply lookup_In; assumption|auto].
      + right. right. exists key, va, vb. split; [apply lookup_In; assumption|auto]. }
  split; [reflexivity|]. split; [reflexivity|]. split; [|reflexivity].
  intros a b segs' Hlen. unfold diff_list. cbn [diff_pair].
  apply Nat.eqb_neq in Hlen. rewrite Hlen. reflexivity.
Qed.

Lemma diff_objs_spec_witness :
  NoDup (keys [("a", JInt 1); ("b", JInt 2)])
  /\ NoDup (keys [("a", JInt 1); ("c", JInt 3)])
  /\ (In (mkDiff "b" (JInt 2) JNull)
         (diff_objs [("a", JInt 1); ("b", JInt 2)] [("a", JInt 1); ("c", JInt 3)] [])
      <-> (exists key v, lookup key [("a", JInt 1); ("b", JInt 2)] = Some v
                         /\ lookup key [("a", JInt 1); ("c", JInt 3)] = None
                         /\ mkDiff "b" (JInt 2) JNull
                            = mkDiff (encode_path ([] ++ [key])) v JNull)
          \/ (exists key v, lookup key [("a", JInt 1); ("c", JInt 3)] = Some v
                            /\ lookup key [("a", JInt 1); ("b", JInt 2)] = None
                            /\ mkDiff "b" (JInt 2) JNull
                               = mkDiff (encode_path ([] ++ [key])) JNull v)
          \/ (exists key va vb, lookup key [("a", JInt 1); ("b", JInt 2)] = Some va
                                /\ lookup key [("a", JInt 1); ("c", JInt 3)] = Some vb
                                /\ In (mkDiff "b" (JInt 2) JNull)
                                      (diff_pair va vb ([] ++ [key])))).
Proof.
  assert (H1 : NoDup (keys [("a", JInt 1); ("b", JInt 2)])).
  { repeat constructor; simpl; intuition discriminate. }
  assert (H2 : NoDup (keys [("a", JInt 1); ("c", JInt 3)])).
  { repeat constructor; simpl; intuition discriminate. }
  split; [exact H1|]. split; [exact H2|].
  apply (proj1 (diff_objs_spec [("a", JInt 1); ("b", JInt 2)]
                               [("a", JInt 1); ("c", JInt 3)] [] H1 H2)).
Defined.

(** ** The patch applier *)

Lemma split_char_cons sep s : exists p ps, split_char sep s = p :: ps.
Proof.
  destruct s as [|c s]; simpl; [eauto|].
  destruct (Ascii.eqb c sep); [eauto|].
  destruct (split_char sep s); eauto.
Qed.

Lemma split_char_join s :
  join "/" (split_char "/"%char s) = s.
Proof.
  induction s as [|c s IH]; [reflexivity|]. cbn [split_char].
  destruct (split_char_cons "/"%char s) as (p & ps & Hs). rewrite Hs in *.
  destruct (Ascii.eqb c "/"%char) eqn:E.
  - apply Ascii.eqb_eq in E. subst c.
    change (join "/" (EmptyString :: p :: ps)) with (String "/" (join "/" (p :: ps))).
    rewrite IH. reflexivity.
  - replace (join "/" (String c p :: ps)) with (String c (join "/" (p :: ps)))
      by (destruct ps; reflexivity).
    rewrite IH. reflexivity.
Qed.

Lemma split_char_no_slash s :
  Forall (fun p => has_slash p = false) (split_char "/"%char s).
Proof.
  induction s as [|c s IH]; cbn [split_char].
  - constructor; [reflexivity|constructor].
  - destruct (split_char_cons "/"%char s) as (p & ps & Hs). rewrite Hs in *.
    inversion IH; subst.
    destruct (Ascii.eqb c "/"%char) eqn:E.
    + constructor; [reflexivity|]. constructor; assumption.
    + constructor; [|assumption]. simpl. rewrite E. assumption.
Qed.

Lemma split_char_whole s : has_slash s = false -> split_char "/"%char s = [s].
Proof.
  induction s as [|c s IH]; [reflexivity|]. simpl.
  intros H. apply orb_false_iff in H as [E H]. rewrite E, (IH H). reflexivity.
Qed.

(** Claim C4, amended.  [apply_patchobject] walks the pieces of the key
    between slashes as they are written, for every key: a key without a
    slash that the map lacks is created under its own name, and [~1] stays
    [~1] below [localizations] and elsewhere. *)
Theorem apply_patchobject_raw_segments :
  (* one entry: the descent takes the pieces of the key between slashes *)
  (forall jscard key val,
      apply_patchobject jscard (JObj [(key, val)])
      = descend jscard (split_char "/"%char key) val)
  /\ (forall key,
        join "/" (split_char "/"%char key) = key
        /\ Forall (fun p => has_slash p = false) (split_char "/"%char key))
  (* a key without a slash is created under its own name *)
  /\ (forall d key val,
        has_slash key = false -> lookup key d = None ->
        apply_patchobject (JObj d) (JObj [(key, val)])
        = Ok (JObj (store key val d)))
  (* a tilde sequence stays what it is, below localizations or not *)
  /\ apply_patchobject (JObj [("a/b", JInt 1)]) (JObj [("a~1b", JInt 2)])
     = Ok (JObj [("a/b", JInt 1); ("a~1b", JInt 2)])
  /\ apply_patchobject (JObj [("localizations", JObj [("a/b", JInt 1)])])
                       (JObj [("localizations/a~1b", JInt 2)])
     = Ok (JObj [("localizations", JObj [("a/b", JInt 1); ("a~1b", JInt 2)])]).
Proof.
  split.
  { intros jscard key val. unfold apply_patchobject. cbn [apply_items].
    destruct (split_char_cons "/"%char key) as (p & ps & Hs). rewrite Hs.
    destruct (descend jscard (p :: ps) val); reflexivity. }
  split; [intros key; split; [apply split_char_join|apply split_char_no_slash]|].
  split.
  { intros d key val Hs Hl. unfold apply_patchobject. cbn [apply_items].
    rewrite (split_char_whole key Hs). cbn [descend]. rewrite Hl. reflexivity. }
  split; reflexivity.
Qed.

(** Claim C4 as stated fails.  With [~1] decoded, the key [a~1b] reaches
    the member [a/b], which is there, and nothing is added; the code adds a
    member [a~1b]. *)
Lemma apply_patchobject_decodes_nothing :
  apply_patchobject (JObj [("a/b", JInt 1)]) (JObj [("a~1b", JInt 2)])
  <> apply_entry_as_specified (JObj [("a/b", JInt 1)]) "a~1b" (JInt 2).
Proof. vm_compute. discriminate. Qed.

(** ** Localizations *)

Lemma mapM_Forall2 {A B} (f : A -> result B) l l' :
  mapM f l = Ok l' -> Forall2 (fun x y => f x = Ok y) l l'.
Proof.
  revert l'. induction l as [|x l IH]; simpl; intros l'.
  - intros [= <-]. constructor.
  - destruct (f x) as [y|e] eqn:Ef; simpl; [|discriminate].
    destruct (mapM f l) as [ys|e]; simpl; [|discriminate].
    intros [= <-]. constructor; auto.
Qed.

Lemma mapM_Raise {A B} (f : A -> result B) l e :
  mapM f l = Raise e -> exists x, In x l /\ f x = Raise e.
Proof.
  induction l as [|x l IH]; simpl; [discriminate|].
  destruct (f x) as [y|e'] eqn:Ef; simpl.
  - destruct (mapM f l) as [ys|e'] eqn:Em; simpl; [discriminate|].
    intros [= ->]. destruct (IH eq_refl) as (x' & Hx' & Hf). eauto.
  - intros [= ->]. eauto.
Qed.

Lemma filterM_Raise {A} (f : A -> result bool) l e :
  filterM f l = Raise e -> exists x, In x l /\ f x = Raise e.
Proof.
  induction l as [|x l IH]; simpl; [discriminate|].
  destruct (f x) as [b|e'] eqn:Ef; simpl.
  - destruct (filterM f l) as [r|e'] eqn:Em; simpl; [discriminate|].
    intros [= ->]. destruct (IH eq_refl) as (x' & Hx' & Hf). eauto.
  - intros [= ->]. eauto.
Qed.

(** *** What the steps of the normalization raise

    The steps before the loop over the locales raise neither the
    [ValueError] that the loop catches nor, [normalize_vcardparams] apart,
    the end of the fuel. *)

Ltac external :=
  let H := fresh in
  intros H; first [discriminate H | injection H as H; subst; reflexivity].

Lemma bind_raises {A B} (r : result A) (k : A -> result B) e :
  (r = Raise e -> internal e = false) ->
  (forall a, k a = Raise e -> internal e = false) ->
  bind r k = Raise e -> internal e = false.
Proof.
  destruct r as [a|e']; simpl; intros Hr Hk H; [exact (Hk a H)|].
  injection H as ->. apply Hr. reflexivity.
Qed.

Lemma mapM_raises {A B} (f : A -> result B) l e :
  (forall x, In x l -> f x = Raise e -> internal e = false) ->
  mapM f l = Raise e -> internal e = false.
Proof. intros H Em. apply mapM_Raise in Em as (x & Hx & Hf). eauto. Qed.

Lemma remove_defaultval_raises path dv :
  forall x e, remove_defaultval path dv x = Raise e -> internal e = false.
Proof.
  induction path as [|n sub IH]; intros x e; [external|].
  cbn [remove_defaultval].
  destruct (negb (truthy x)); [external|].
  destruct sub as [|s sub].
  - destruct x as [| | | | |d]; try external.
    destruct (py_eq (get n d) dv); [|external].
    destruct (lookup n d); external.
  - destruct (String.eqb n "*").
    + destruct x as [| | |str|l|d]; try external.
      * apply bind_raises; [|intros ?; external].
        apply mapM_raises. intros y _. apply IH.
      * apply bind_raises; [|intros ?; external].
        apply mapM_raises. intros y _. apply IH.
      * apply bind_raises; [|intros ?; external].
        apply mapM_raises. intros kv _.
        apply bind_raises; [apply IH|intros ?; external].
    + destruct x as [| | | | |d]; try external.
      destruct (lookup n d) as [v|];
        (apply bind_raises; [apply IH|intros ?; external]).
Qed.

Lemma remove_defaults_raises table :
  forall x e, remove_defaults table x = Raise e -> internal e = false.
Proof.
  induction table as [|[p dv] table IH]; intros x e; simpl; [external|].
  apply bind_raises; [apply remove_defaultval_raises|intros ?; apply IH].
Qed.

Lemma sort_unordered_components_raises x e :
  sort_unordered_components x = Raise e -> internal e = false.
Proof.
  unfold sort_unordered_components. destruct x as [| | | | |d]; try external.
  destruct (truthy _); [external|].
  destruct (lookup "components" d) as [comps|]; [|external].
  destruct (negb (truthy comps)); [external|].
  destruct comps; external.
Qed.

Lemma sort_name_raises d e : sort_name d = Raise e -> internal e = false.
Proof.
  unfold sort_name. destruct (lookup "name" d); [|external].
  apply bind_raises; [apply sort_unordered_components_raises|intros ?; external].
Qed.

Lemma sort_addresses_raises d e :
  sort_addresses d = Raise e -> internal e = false.
Proof.
  unfold sort_addresses. destruct (lookup "addresses" d) as [[| | | | |a]|];
    try external.
  apply bind_raises; [|intros ?; external].
  apply mapM_raises. intros kv _.
  apply bind_raises; [apply sort_unordered_components_raises|intros ?; external].
Qed.

Lemma drop_version_props_raises d e :
  drop_version_props d = Raise e -> internal e = false.
Proof.
  unfold drop_version_props. destruct (lookup "vCardProps" d) as [v|];
    [|external].
  apply bind_raises; [destruct v; external|]. intros ps.
  apply bind_raises; [|intros [|p props]; external].
  intros Em. apply filterM_Raise in Em as (p & _ & Hp). revert Hp.
  apply bind_raises; [|intros ?; external].
  destruct p as [| | |[|c str]|[|y l]|]; external.
Qed.

Lemma normalize_vcardparams_no_ValueError fuel :
  forall x, normalize_vcardparams fuel x <> Raise ValueError.
Proof.
  induction fuel as [|fuel IH]; intros x; [discriminate|].
  cbn [normalize_vcardparams]. destruct x as [| | | |l|d]; try discriminate.
  - destruct (mapM _ l) as [r|e] eqn:Em; simpl; [discriminate|].
    intros [= ->]. apply mapM_Raise in Em as (y & _ & Hy). exact (IH y Hy).
  - destruct (strip_group d) as [d1|e] eqn:Es; simpl.
    2:{ intros [= ->]. unfold strip_group in Es.
        destruct (lookup "vCardParams" d) as [[| | | | |p]|]; try discriminate.
        destruct (lookup "group" p); [destruct (remove "group" p)|]; discriminate. }
    destruct (mapM _ d1) as [r|e] eqn:Em; simpl; [discriminate|].
    intros [= ->]. apply mapM_Raise in Em as (kv & _ & Hkv).
    destruct (normalize_vcardparams fuel (snd kv)) as [v|e] eqn:Ev;
      simpl in Hkv; [discriminate|].
    injection Hkv as ->. exact (IH _ Ev).
Qed.

(** The steps of [normalize_base] before [normalize_vcardparams]. *)
Lemma normalize_base_steps d r :
  normalize_base d = r ->
  (exists e, r = Raise e /\ internal e = false)
  \/ (exists x, r = Ok x /\ forall d', x <> JObj d')
  \/ (exists d', r = normalize_vcardparams (depth (JObj d')) (JObj d')).
Proof.
  unfold normalize_base. intros <-.
  destruct (remove_defaults default_values (JObj d)) as [x|e] eqn:ED; cbn [bind].
  2:{ left. eauto using remove_defaults_raises. }
  destruct x as [| | | | |d1];
    try (right; left; eexists; split; [reflexivity|discriminate]).
  destruct (sort_name d1) as [d2|e] eqn:EN; cbn [bind].
  2:{ left. eauto using sort_name_raises. }
  destruct (sort_addresses d2) as [d3|e] eqn:EA; cbn [bind].
  2:{ left. eauto using sort_addresses_raises. }
  destruct (drop_version_props d3) as [d4|e] eqn:EV; cbn [bind].
  2:{ left. eauto using drop_version_props_raises. }
  right. right. eauto.
Qed.

Lemma normalize_base_no_ValueError d : normalize_base d <> Raise ValueError.
Proof.
  destruct (normalize_base_steps d _ eq_refl)
    as [(e & -> & He)|[(x & -> & _)|(d' & ->)]].
  - intros [= ->]. discriminate.
  - discriminate.
  - apply normalize_vcardparams_no_ValueError.
Qed.

Lemma bind_no_ValueError {A B} (r : result A) (k : A -> result B) :
  r <> Raise ValueError -> (forall a, k a <> Raise ValueError) ->
  bind r k <> Raise ValueError.
Proof. intros Hr Hk. destruct r as [a|e]; simpl; [apply Hk|congruence]. Qed.

(** [normalize_jscard] raises no [ValueError]: the one of the applier is
    caught, and no other step raises one. *)
Lemma normalize_jscard_no_ValueError fuel :
  forall card, normalize_jscard fuel card <> Raise ValueError.
Proof.
  induction fuel as [|fuel IH]; intros card; [discriminate|].
  cbn [normalize_jscard]. destruct card as [| | | | |d]; try discriminate.
  apply bind_no_ValueError; [apply normalize_base_no_ValueError|]. intros base.
  destruct (truthy (get "localizations" d)); [|discriminate].
  destruct (get "localizations" d) as [| | | | |locs]; try discriminate.
  destruct base as [| | | | |dbase]; try discriminate.
  apply bind_no_ValueError; [|discriminate].
  intros Em. apply mapM_Raise in Em as (kv & _ & Hkv). revert Hkv.
  apply bind_no_ValueError; [|discriminate].
  unfold except_ValueError.
  destruct (bind (apply_patchobject _ _) _) as [r|[]]; discriminate.
Qed.

Lemma resolve_locale_cases fuel base patch r :
  resolve_locale fuel base patch = Ok r ->
  match apply_patchobject base patch with
  | Raise ValueError => r = patch_after base patch
  | Ok patched => normalize_jscard fuel patched = Ok r
  | Raise _ => False
  end.
Proof.
  unfold resolve_locale.
  destruct (apply_patchobject base patch) as [patched|e]; cbn [bind].
  - destruct (normalize_jscard fuel patched) as [r'|e] eqn:En; simpl.
    + congruence.
    + destruct e; try discriminate.
      exfalso. exact (normalize_jscard_no_ValueError _ _ En).
  - destruct e; simpl; try discriminate. congruence.
Qed.

Lemma normalize_jscard_localized fuel d locs base card' :
  lookup "localizations" d = Some (JObj locs) -> locs <> [] ->
  normalize_base (remove "localizations" d) = Ok base ->
  normalize_jscard (S fuel) (JObj d) = Ok card' ->
  exists locs' dbase,
    base = JObj dbase
    /\ card' = JObj (store "localizations" (JObj locs') dbase)
    /\ Forall2 (fun kv kv' =>
                  fst kv' = fst kv
                  /\ resolve_locale fuel base (snd kv) = Ok (snd kv'))
               locs locs'.
Proof.
  intros Hl Hne Hb. cbn [normalize_jscard]. unfold get. rewrite Hl, Hb.
  cbn [bind truthy]. destruct locs as [|kv0 locs0]; [congruence|].
  set (locs := kv0 :: locs0) in *. cbv iota.
  destruct base as [| | | | |dbase]; try discriminate.
  destruct (mapM _ locs) as [locs'|e] eqn:Em; simpl; [|discriminate].
  intros [= <-]. exists locs', dbase. split; [reflexivity|]. split; [reflexivity|].
  apply mapM_Forall2 in Em. eapply Forall2_impl; [|exact Em].
  intros [k v] [k' v'] H. simpl in *. unfold resolve_locale.
  destruct (except_ValueError _ _) as [r|e]; simpl in H; [|discriminate].
  injection H as <- <-. auto.
Qed.

Lemma apply_items_cons jscard key val items :
  apply_items jscard ((key, val) :: items)
  = (jscard' <- descend jscard (split_char "/"%char key) val ;;
     apply_items jscard' items).
Proof.
  cbn [apply_items].
  destruct (split_char_cons "/"%char key) as (p & ps & Hs). rewrite Hs.
  reflexivity.
Qed.

Lemma apply_items_abort jscard items1 key val items2 j1 :
  apply_items jscard items1 = Ok j1 ->
  descend j1 (split_char "/"%char key) val = Raise ValueError ->
  apply_items jscard (items1 ++ (key, val) :: items2) = Raise ValueError.
Proof.
  revert jscard. induction items1 as [|[k v] items1 IH]; intros jscard.
  - intros [= ->] Hd. cbn [app]. rewrite apply_items_cons, Hd. reflexivity.
  - cbn [app]. rewrite !apply_items_cons.
    destruct (descend jscard (split_char "/"%char k) v) as [j|e]; simpl;
      [|discriminate].
    apply IH.
Qed.

(** *** The patch map that is kept *)

Lemma applied_abort jscard items1 key val items2 j1 e :
  apply_items jscard items1 = Ok j1 ->
  descend j1 (split_char "/"%char key) val = Raise e ->
  exists done,
    applied jscard (items1 ++ (key, val) :: items2)
    = (j1, done, (key, val) :: items2)
    /\ map (fun entry : string * json * option (list step) => fst (fst entry)) done
       = keys items1.
Proof.
  revert jscard. induction items1 as [|[k v] items1 IH]; intros jscard.
  - intros [= ->] Hd. exists []. cbn [app applied]. rewrite Hd. auto.
  - rewrite apply_items_cons. cbn [app applied].
    destruct (descend jscard (split_char "/"%char k) v) as [j|e']; simpl;
      [|discriminate].
    intros H1 H2. destruct (IH j H1 H2) as (done & Ea & Ek).
    rewrite Ea. eexists. split; [reflexivity|]. simpl. f_equal. exact Ek.
Qed.

(** The entries before the failing one keep their keys and their order;
    the failing entry and those after it are as they were. *)
Lemma patch_after_abort jscard items1 key val items2 j1 :
  apply_items jscard items1 = Ok j1 ->
  descend j1 (split_char "/"%char key) val = Raise ValueError ->
  exists items1',
    patch_after jscard (JObj (items1 ++ (key, val) :: items2))
    = JObj (items1' ++ (key, val) :: items2)
    /\ keys items1' = keys items1.
Proof.
  intros H1 H2.
  destruct (applied_abort jscard items1 key val items2 j1 _ H1 H2)
    as (done & Ea & Ek).
  unfold patch_after. rewrite Ea. eexists. split; [reflexivity|].
  rewrite <- Ek. unfold keys. rewrite map_map. apply map_ext.
  intros [[k v] loc]. reflexivity.
Qed.

(** The value that an entry puts into the card is the object of the patch
    map: what a later entry puts into it is in the patch map that is
    kept. *)
Example patch_after_shares_with_card :
  apply_patchobject (JObj [])
    (JObj [("x", JObj []); ("x/y", JInt 1); ("a/b", JInt 2)])
  = Raise ValueError
  /\ patch_after (JObj [])
       (JObj [("x", JObj []); ("x/y", JInt 1); ("a/b", JInt 2)])
     = JObj [("x", JObj [("y", JInt 1)]); ("x/y", JInt 1); ("a/b", JInt 2)].
Proof. split; vm_compute; reflexivity. Qed.

(** Claim C3, amended.  A patch entry that fails with [ValueError] ends
    the patch of its locale, whatever entries precede and follow it; the
    [ValueError] does not leave [normalize_jscard], and the locale keeps
    its patch map: the keys in their order, the failing entry and those
    after it as they were, the values of the entries before it as the
    applier left them.  A card that [normalize_jscard] returns holds, for
    every locale in the order of the input, that patch map where the patch
    raised [ValueError] and the normalized patched card where it
    applied. *)
Theorem failed_patch_keeps_the_patch_map
  (fuel : nat) (d : list (string * json)) (locs : list (string * json))
  (base card' : json) :
  lookup "localizations" d = Some (JObj locs) -> locs <> [] ->
  normalize_base (remove "localizations" d) = Ok base ->
  normalize_jscard (S fuel) (JObj d) = Ok card' ->
  (* an entry that fails ends the patch of its locale, and the patch map
     is left with the entries from the failing one on unchanged *)
  (forall items1 key val items2 j1,
      apply_items base items1 = Ok j1 ->
      descend j1 (split_char "/"%char key) val = Raise ValueError ->
      apply_patchobject base (JObj (items1 ++ (key, val) :: items2))
      = Raise ValueError
      /\ exists items1',
           patch_after base (JObj (items1 ++ (key, val) :: items2))
           = JObj (items1' ++ (key, val) :: items2)
           /\ keys items1' = keys items1)
  (* the ValueError stays inside: the locale resolves to its patch map *)
  /\ (forall patch,
        apply_patchobject base patch = Raise ValueError ->
        resolve_locale fuel base patch = Ok (patch_after base patch))
  (* the card holds, locale by locale, the patch map where the patch has
     failed and the resolved card where it has not *)
  /\ exists locs' dbase,
       base = JObj dbase
       /\ card' = JObj (store "localizations" (JObj locs') dbase)
       /\ Forall2 (fun kv kv' =>
                     fst kv' = fst kv
                     /\ match apply_patchobject base (snd kv) with
                        | Raise ValueError => snd kv' = patch_after base (snd kv)
                        | Ok patched => normalize_jscard fuel patched = Ok (snd kv')
                        | Raise _ => False
                        end)
                  locs locs'.
Proof.
  intros Hl Hne Hb Hn. split.
  { intros items1 key val items2 j1 H1 H2. split.
    - unfold apply_patchobject. eapply apply_items_abort; eassumption.
    - eapply patch_after_abort; eassumption. }
  split.
  { intros patch Hp. unfold resolve_locale. rewrite Hp. reflexivity. }
  destruct (normalize_jscard_localized fuel d locs base card' Hl Hne Hb Hn)
    as (locs' & dbase & E1 & E2 & HF).
  exists locs', dbase. split; [exact E1|]. split; [exact E2|].
  eapply Forall2_impl; [|exact HF].
  intros kv kv' [Hk Hr]. split; [exact Hk|].
  apply resolve_locale_cases, Hr.
Qed.

Lemma failed_patch_keeps_the_patch_map_witness :
  exists locs' dbase,
    JObj [("name", JObj [("full", JStr "A")])] = JObj dbase
    /\ JObj [("name", JObj [("full", JStr "A")]);
             ("localizations",
              JObj [("x", JObj [("a/b", JStr "B"); ("kind", JStr "group")]);
                    ("y", JObj [("name", JObj [("full", JStr "A")]);
                                ("kind", JStr "group")])])]
       = JObj (store "localizations" (JObj locs') dbase)
    /\ Forall2 (fun kv kv' =>
                  fst kv' = fst kv
                  /\ match apply_patchobject
                             (JObj [("name", JObj [("full", JStr "A")])]) (snd kv) with
                     | Raise ValueError =>
                         snd kv'
                         = patch_after (JObj [("name", JObj [("full", JStr "A")])])
                             (snd kv)
                     | Ok patched => normalize_jscard 1 patched = Ok (snd kv')
                     | Raise _ => False
                     end)
               [("x", JObj [("a/b", JStr "B"); ("kind", JStr "group")]);
                ("y", JObj [("kind", JStr "group")])]
               locs'.
Proof.
  refine (proj2 (proj2 (failed_patch_keeps_the_patch_map 1 card_with_failing_patch
           [("x", JObj [("a/b", JStr "B"); ("kind", JStr "group")]);
            ("y", JObj [("kind", JStr "group")])]
           (JObj [("name", JObj [("full", JStr "A")])])
           (JObj [("name", JObj [("full", JStr "A")]);
                  ("localizations",
                   JObj [("x", JObj [("a/b", JStr "B"); ("kind", JStr "group")]);
                         ("y", JObj [("name", JObj [("full", JStr "A")]);
                                     ("kind", JStr "group")])])])
           _ _ _ _))).
  - reflexivity.
  - discriminate.
  - vm_compute. reflexivity.
  - vm_compute. reflexivity.
Defined.

(** Claim C3 as stated fails.  With the failing entry dropped alone, the
    locale [x] would hold the base card with [kind] added; it holds its
    patch map.  And an entry that walks into a string raises [TypeError],
    which ends the normalization of the card. *)
Lemma failed_patch_is_not_dropped_alone :
  (exists resolved,
      normalize_jscard 1
        (apply_items_tolerant (JObj [("name", JObj [("full", JStr "A")])])
           [("a/b", JStr "B"); ("kind", JStr "group")]) = Ok resolved
      /\ forall card locs,
           normalize_jscard 2 (JObj card_with_failing_patch) = Ok (JObj card) ->
           lookup "localizations" card = Some (JObj locs) ->
           lookup "x" locs <> Some resolved)
  /\ normalize_jscard 2
       (JObj [("name", JObj [("full", JStr "A")]);
              ("localizations", JObj [("x", JObj [("name/full/z", JStr "B")])])])
     = Raise TypeError.
Proof.
  split; [|vm_compute; reflexivity].
  eexists. split; [vm_compute; reflexivity|].
  intros card locs H. vm_compute in H. injection H as <-.
  vm_compute. intros [= <-]. discriminate.
Qed.

(** ** Cards *)

(** Induction on a JSON value, with the hypothesis on every member. *)
Lemma json_induction (P : json -> Prop) :
  P JNull ->
  (forall b, P (JBool b)) ->
  (forall z, P (JInt z)) ->
  (forall s, P (JStr s)) ->
  (forall l, Forall P l -> P (JList l)) ->
  (forall d, Forall (fun kv => P (snd kv)) d -> P (JObj d)) ->
  forall x, P x.
Proof.
  intros HNull HBool HInt HStr HList HObj.
  fix IH 1. intros [|b|z|s|l|d].
  - exact HNull.
  - apply HBool.
  - apply HInt.
  - apply HStr.
  - apply HList. induction l as [|y l IHl]; constructor; [apply IH|exact IHl].
  - apply HObj. induction d as [|[k v] d IHd]; constructor; [apply IH|exact IHd].
Qed.

Lemma wf_list_inv l : wf (JList l) -> Forall wf l.
Proof. intros H. inversion H. assumption. Qed.

Lemma wf_obj_inv d :
  wf (JObj d) -> NoDup (keys d) /\ Forall (fun kv => wf (snd kv)) d.
Proof. intros H. inversion H. auto. Qed.

Lemma shrink_list_inv x' l :
  shrink x' (JList l) ->
  exists l', x' = JList l' /\ Forall (fun y' => exists y, In y l /\ shrink y' y) l'.
Proof. intros H. inversion H; subst. eauto. Qed.

Lemma shrink_obj_inv x' d :
  shrink x' (JObj d) ->
  exists d', x' = JObj d' /\ NoDup (keys d')
             /\ Forall (fun kv' => exists v, lookup (fst kv') d = Some v
                                             /\ shrink (snd kv') v) d'.
Proof. intros H. inversion H; subst. eauto. Qed.

Lemma shrink_refl x : wf x -> shrink x x.
Proof.
  induction x as [| | | |l IH|d IH] using json_induction; intros Hwf;
    try constructor.
  - apply wf_list_inv in Hwf. rewrite Forall_forall in *.
    intros y Hy. exists y. split; [exact Hy|]. apply IH; auto.
  - apply wf_obj_inv in Hwf as [Hnd _]. exact Hnd.
  - apply wf_obj_inv in Hwf as [Hnd Hv]. rewrite Forall_forall in *.
    intros [k v] Hkv. exists v. split; [apply In_lookup; assumption|].
    apply (IH (k, v)); [exact Hkv|]. apply (Hv (k, v)), Hkv.
Qed.

Lemma shrink_trans z : forall y x, shrink z y -> shrink y x -> shrink z x.
Proof.
  induction z as [| | | |l IH|d IH] using json_induction; intros y x Hzy Hyx;
    inversion Hzy; subst; inversion Hyx; subst; try constructor.
  - match goal with
    | Hz : Forall _ l, Hy : Forall _ ?ly |- _ =>
        rewrite Forall_forall in *; intros z' Hz';
        destruct (Hz z' Hz') as (y' & Hy' & Hs);
        destruct (Hy y' Hy') as (x' & Hx' & Hs')
    end.
    exists x'. split; [exact Hx'|]. eapply IH; eassumption.
  - assumption.
  - match goal with
    | Hz : Forall _ d, Hy : Forall _ ?dy |- _ =>
        rewrite Forall_forall in *; intros kv Hkv;
        destruct (Hz kv Hkv) as (vy & Hl & Hs);
        destruct (Hy _ (lookup_In _ _ _ Hl)) as (vx & Hl' & Hs')
    end.
    exists vx. split; [exact Hl'|]. eapply IH; eassumption.
Qed.

Lemma shrink_wf x' : forall x, wf x -> shrink x' x -> wf x'.
Proof.
  induction x' as [| | | |l IH|d IH] using json_induction; intros x Hwf Hs;
    inversion Hs as [| | | |l1 l2 Hl|d1 d2 Hnd Hd]; subst; try constructor.
  - apply wf_list_inv in Hwf. rewrite Forall_forall in *. intros y' Hy'.
    destruct (Hl y' Hy') as (y & Hy & Hsy). eapply IH; eauto.
  - assumption.
  - apply wf_obj_inv in Hwf as [_ Hv]. rewrite Forall_forall in *. intros kv Hkv.
    destruct (Hd kv Hkv) as (v & Hlk & Hsv).
    eapply IH; [exact Hkv| |exact Hsv].
    apply (Hv (fst kv, v)), lookup_In, Hlk.
Qed.

(** ** More on dictionaries *)

Section DictMore.
Context {V : Type}.
Implicit Types (d : list (string * V)) (k : string) (v : V).

Lemma store_same k v d : lookup k d = Some v -> store k v d = d.
Proof.
  induction d as [|[k0 v0] d IH]; simpl; [discriminate|].
  destruct (String.eqb k k0) eqn:E.
  - apply String.eqb_eq in E. intros [= ->]. congruence.
  - intros H. rewrite (IH H). reflexivity.
Qed.

Lemma store_store k v v' d : store k v (store k v' d) = store k v d.
Proof.
  induction d as [|[k0 v0] d IH]; simpl.
  - rewrite String.eqb_refl. reflexivity.
  - destruct (String.eqb k k0) eqn:E; simpl.
    + rewrite String.eqb_refl. reflexivity.
    + rewrite E, IH. reflexivity.
Qed.

Lemma keys_store k v d :
  lookup k d <> None -> keys (store k v d) = keys d.
Proof.
  induction d as [|[k0 v0] d IH]; simpl; [congruence|].
  destruct (String.eqb k k0) eqn:E; simpl.
  - apply String.eqb_eq in E. congruence.
  - intros H. rewrite (IH H). reflexivity.
Qed.

Lemma lookup_None_keys k d : lookup k d = None <-> ~ In k (keys d).
Proof.
  induction d as [|[k0 v0] d IH]; simpl; [tauto|].
  destruct (String.eqb k k0) eqn:E.
  - apply String.eqb_eq in E. split; [discriminate|]. intros H. exfalso. auto.
  - apply String.eqb_neq in E. rewrite IH. split; [intros H [H'|H']; auto|tauto].
Qed.

Lemma keys_remove_incl k d x : In x (keys (remove k d)) -> In x (keys d).
Proof.
  unfold keys. rewrite !in_map_iff. intros (kv & <- & H).
  exists kv. split; [reflexivity|]. eapply In_remove, H.
Qed.

Lemma NoDup_remove k d : NoDup (keys d) -> NoDup (keys (remove k d)).
Proof.
  induction d as [|[k0 v0] d IH]; simpl; [auto|].
  intros H. inversion H as [|? ? Hn Hd]; subst.
  destruct (String.eqb k k0); simpl; [exact Hd|].
  constructor; [|apply IH, Hd].
  intros Hin. apply Hn. eapply keys_remove_incl, Hin.
Qed.

Lemma lookup_remove_same k d : NoDup (keys d) -> lookup k (remove k d) = None.
Proof.
  induction d as [|[k0 v0] d IH]; simpl; [reflexivity|].
  intros H. inversion H as [|? ? Hn Hd]; subst.
  destruct (String.eqb k k0) eqn:E; simpl.
  - apply String.eqb_eq in E. subst. apply lookup_None_keys, Hn.
  - rewrite E. apply IH, Hd.
Qed.

Lemma lookup_remove_other k k' d :
  k <> k' -> lookup k (remove k' d) = lookup k d.
Proof.
  intros Hne. induction d as [|[k0 v0] d IH]; simpl; [reflexivity|].
  destruct (String.eqb k' k0) eqn:E; simpl.
  - apply String.eqb_eq in E. subst.
    apply String.eqb_neq in Hne. rewrite Hne. reflexivity.
  - rewrite IH. reflexivity.
Qed.

Lemma remove_shorter k v d :
  lookup k d = Some v -> List.length (remove k d) < List.length d.
Proof.
  induction d as [|[k0 v0] d IH]; simpl; [discriminate|].
  destruct (String.eqb k k0); simpl; [lia|].
  intros H. specialize (IH H). lia.
Qed.

Lemma store_eq_inv k v v' d :
  lookup k d = Some v -> store k v' d = d -> v' = v.
Proof.
  intros Hl Hs. assert (lookup k (store k v' d) = Some v') as H.
  { rewrite lookup_store, String.eqb_refl. reflexivity. }
  rewrite Hs in H. congruence.
Qed.

Lemma store_nonempty k v d : store k v d <> [].
Proof. destruct d as [|[k0 v0] d]; simpl; [|destruct (String.eqb k k0)]; discriminate. Qed.
End DictMore.

(** ** Comprehensions *)

Lemma mapM_fixed {A} (f : A -> result A) l :
  Forall (fun x => f x = Ok x) l -> mapM f l = Ok l.
Proof.
  induction 1 as [|x l Hx Hl IH]; simpl; [reflexivity|].
  rewrite Hx, IH. reflexivity.
Qed.

Lemma mapM_fixed_inv {A} (f : A -> result A) l :
  mapM f l = Ok l -> Forall (fun x => f x = Ok x) l.
Proof.
  intros H. apply mapM_Forall2 in H.
  induction l as [|x l IH]; [constructor|].
  inversion H; subst. constructor; auto.
Qed.

Lemma mapM_Ok_inv {A B} (f : A -> result B) x l r :
  mapM f (x :: l) = Ok r ->
  exists y ys, f x = Ok y /\ mapM f l = Ok ys /\ r = y :: ys.
Proof.
  simpl. destruct (f x) as [y|]; simpl; [|discriminate].
  destruct (mapM f l) as [ys|]; simpl; [|discriminate].
  intros [= <-]. eauto.
Qed.

Lemma on_value_Ok f kv kv' :
  on_value f kv = Ok kv' -> fst kv' = fst kv /\ f (snd kv) = Ok (snd kv').
Proof.
  unfold on_value. destruct (f (snd kv)) as [v|]; simpl; [|discriminate].
  intros [= <-]. auto.
Qed.

Lemma on_value_fixed f kv : f (snd kv) = Ok (snd kv) -> on_value f kv = Ok kv.
Proof. unfold on_value. intros ->. destruct kv; reflexivity. Qed.

Lemma mapM_on_value_keys f d d' :
  mapM (on_value f) d = Ok d' -> keys d' = keys d.
Proof.
  intros H. apply mapM_Forall2 in H. unfold keys.
  induction H as [|kv kv' d d' Hkv Hd IH]; [reflexivity|].
  simpl. apply on_value_Ok in Hkv as [-> _]. congruence.
Qed.

Lemma mapM_on_value_In f d d' kv' :
  mapM (on_value f) d = Ok d' -> In kv' d' ->
  exists v, In (fst kv', v) d /\ f v = Ok (snd kv').
Proof.
  intros H. apply mapM_Forall2 in H.
  induction H as [|kv kv2 d d' Hkv Hd IH]; [contradiction|].
  intros [<-|Hin].
  - apply on_value_Ok in Hkv as [Hk Hf]. exists (snd kv). split; [|exact Hf].
    left. rewrite Hk. destruct kv; reflexivity.
  - destruct (IH Hin) as (v & Hv & Hf). exists v. split; [right; exact Hv|exact Hf].
Qed.

Lemma mapM_In {A B} (f : A -> result B) l l' y :
  mapM f l = Ok l' -> In y l' -> exists x, In x l /\ f x = Ok y.
Proof.
  intros H. apply mapM_Forall2 in H.
  induction H as [|x y' l l' Hx Hl IH]; [contradiction|].
  intros [<-|Hin]; [exists x; split; [left; reflexivity|exact Hx]|].
  destruct (IH Hin) as (x' & Hx' & Hf). exists x'. split; [right; exact Hx'|exact Hf].
Qed.

(** ** Removing default values *)

Lemma py_eq_scalar v dv : scalar_default dv -> py_eq v dv = true -> is_scalar v.
Proof. destruct v, dv; simpl; intros H E; try exact I; try contradiction; discriminate. Qed.

Lemma py_eq_null dv : scalar_default dv -> py_eq JNull dv = false.
Proof. destruct dv; simpl; intros H; try contradiction; reflexivity. Qed.

Lemma shrink_scalar v' v : is_scalar v' -> shrink v' v -> v = v'.
Proof. intros H Hs. inversion Hs; subst; try reflexivity; contradiction. Qed.

Lemma shrink_truthy x' x : shrink x' x -> truthy x' = true -> truthy x = true.
Proof.
  intros Hs. inversion Hs as [| | | |l' l Hl|d' d Hnd Hd]; subst; auto.
  - destruct l' as [|y' l']; [discriminate|]. intros _.
    inversion Hl as [|? ? (y & Hy & _) _]; subst. destruct l; [contradiction|reflexivity].
  - destruct d' as [|kv' d']; [discriminate|]. intros _.
    inversion Hd as [|? ? (v & Hv & _) _]; subst. destruct d; [discriminate|reflexivity].
Qed.

Lemma shrink_lookup d' d k v' :
  shrink (JObj d') (JObj d) -> lookup k d' = Some v' ->
  exists v, lookup k d = Some v /\ shrink v' v.
Proof.
  intros Hs Hl. inversion Hs as [| | | | |? ? Hnd Hd]; subst.
  rewrite Forall_forall in Hd. apply (Hd (k, v')), lookup_In, Hl.
Qed.


(** The equations of [remove_defaultval] on a truthy value. *)
Lemma rd_star_obj s sub dv d :
  d <> [] ->
  remove_defaultval ("*" :: s :: sub) dv (JObj d)
  = (d' <- mapM (on_value (remove_defaultval (s :: sub) dv)) d ;; Ok (JObj d')).
Proof. destruct d; [congruence|reflexivity]. Qed.

Lemma rd_star_list s sub dv l :
  l <> [] ->
  remove_defaultval ("*" :: s :: sub) dv (JList l)
  = (l' <- mapM (remove_defaultval (s :: sub) dv) l ;; Ok (JList l')).
Proof. destruct l; [congruence|reflexivity]. Qed.

Lemma rd_name_obj n s sub dv d :
  d <> [] -> String.eqb n "*" = false ->
  remove_defaultval (n :: s :: sub) dv (JObj d)
  = match lookup n d with
    | Some v =>
        v' <- remove_defaultval (s :: sub) dv v ;; Ok (JObj (store n v' d))
    | None => Ok (JObj d)
    end.
Proof.
  intros Hd Hn. destruct d; [congruence|]. cbn [remove_defaultval truthy negb].
  rewrite Hn. destruct (lookup n _); reflexivity.
Qed.

Lemma rd_leaf_obj n dv d :
  d <> [] ->
  remove_defaultval [n] dv (JObj d)
  = if py_eq (get n d) dv then
      match lookup n d with
      | Some _ => Ok (JObj (remove n d))
      | None => Raise KeyError
      end
    else Ok (JObj d).
Proof. destruct d; [congruence|reflexivity]. Qed.

Lemma rd_falsy n sub dv x :
  truthy x = false -> remove_defaultval (n :: sub) dv x = Ok x.
Proof. intros H. cbn [remove_defaultval]. rewrite H. reflexivity. Qed.

Lemma truthy_obj d : truthy (JObj d) = true <-> d <> [].
Proof. destruct d; simpl; split; congruence. Qed.

Lemma truthy_list l : truthy (JList l) = true <-> l <> [].
Proof. destruct l; simpl; split; congruence. Qed.

Ltac rd_step H Ht :=
  cbn [remove_defaultval] in H; rewrite Ht in H; cbn [negb] in H;
  rewrite ?String.eqb_refl in H.

(** A value that [remove_defaultval] leaves as it is stays so when
    members are deleted from it. *)
Lemma rd_fixed_shrink path dv :
  scalar_default dv ->
  forall x x',
    remove_defaultval path dv x = Ok x -> shrink x' x ->
    remove_defaultval path dv x' = Ok x'.
Proof.
  intros Hdv. induction path as [|n sub IH]; intros x x' Hx Hs; [reflexivity|].
  destruct (truthy x') eqn:Ht'; [|apply rd_falsy, Ht'].
  pose proof (shrink_truthy _ _ Hs Ht') as Ht.
  destruct sub as [|s sub].
  - (* the last segment *)
    destruct x as [| | | |l|d]; try (rd_step Hx Ht; discriminate).
    apply shrink_obj_inv in Hs as Hs'. destruct Hs' as (d' & -> & Hnd & Hd).
    apply truthy_obj in Ht, Ht'.
    rewrite rd_leaf_obj in * by assumption.
    destruct (py_eq (get n d) dv) eqn:E.
    { destruct (lookup n d) eqn:El; [|discriminate]. injection Hx as Hx.
      pose proof (remove_shorter _ _ _ El) as Hlen. rewrite Hx in Hlen. lia. }
    assert (py_eq (get n d') dv = false) as ->; [|reflexivity].
    unfold get in *. destruct (lookup n d') as [v'|] eqn:El'.
    + destruct (shrink_lookup _ _ _ _ Hs El') as (v & Hv & Hsv). rewrite Hv in E.
      destruct (py_eq v' dv) eqn:E'; [|reflexivity].
      rewrite (shrink_scalar v' v (py_eq_scalar _ _ Hdv E') Hsv) in E. congruence.
    + apply py_eq_null, Hdv.
  - destruct (String.eqb n "*") eqn:En.
    + apply String.eqb_eq in En. subst n.
      destruct x as [| | |str|l|d]; try (rd_step Hx Ht; discriminate).
      * inversion Hs; subst. exact Hx.
      * apply shrink_list_inv in Hs as (l' & -> & Hl).
        apply truthy_list in Ht, Ht'. rewrite rd_star_list in * by assumption.
        destruct (mapM _ l) as [l2|] eqn:Em; simpl in Hx; [|discriminate].
        injection Hx as ->. apply mapM_fixed_inv in Em.
        rewrite mapM_fixed; [reflexivity|].
        rewrite Forall_forall in *. intros y' Hy'.
        destruct (Hl y' Hy') as (y & Hy & Hsy). eapply IH; [|exact Hsy]. auto.
      * apply shrink_obj_inv in Hs as (d' & -> & Hnd & Hd).
        apply truthy_obj in Ht, Ht'. rewrite rd_star_obj in * by assumption.
        destruct (mapM _ d) as [d2|] eqn:Em; simpl in Hx; [|discriminate].
        injection Hx as ->. apply mapM_fixed_inv in Em.
        rewrite mapM_fixed; [reflexivity|].
        rewrite Forall_forall in *. intros kv' Hkv'.
        destruct (Hd kv' Hkv') as (v & Hv & Hsv). apply on_value_fixed.
        eapply IH; [|exact Hsv].
        apply lookup_In, Em, on_value_Ok in Hv. apply Hv.
    + destruct x as [| | | |l|d]; try (rd_step Hx Ht; rewrite En in Hx; discriminate).
      apply shrink_obj_inv in Hs as Hs'. destruct Hs' as (d' & -> & Hnd & Hd).
      apply truthy_obj in Ht, Ht'. rewrite rd_name_obj in * by assumption.
      destruct (lookup n d') as [v'|] eqn:El'; [|reflexivity].
      destruct (shrink_lookup _ _ _ _ Hs El') as (v & Hv & Hsv). rewrite Hv in Hx.
      destruct (remove_defaultval (s :: sub) dv v) as [v2|] eqn:Ev; simpl in Hx;
        [|discriminate].
      injection Hx as Hx. apply (store_eq_inv _ _ _ _ Hv) in Hx. subst v2.
      rewrite (IH v v' Ev Hsv). simpl. rewrite (store_same _ _ _ El'). reflexivity.
Qed.

Lemma NoDup_keys_store {V} k (v : V) d :
  lookup k d <> None -> NoDup (keys d) -> NoDup (keys (store k v d)).
Proof. intros H Hnd. rewrite keys_store; assumption. Qed.

Lemma shrink_store d n v v' :
  wf (JObj d) -> lookup n d = Some v -> shrink v' v ->
  shrink (JObj (store n v' d)) (JObj d).
Proof.
  intros Hwf Hl Hs. apply wf_obj_inv in Hwf as [Hnd Hv].
  constructor; [apply NoDup_keys_store; congruence|].
  rewrite Forall_forall in *. intros kv Hkv.
  apply In_store in Hkv as [->|Hkv].
  - exists v. auto.
  - exists (snd kv). split; [apply In_lookup; [exact Hnd|destruct kv; exact Hkv]|].
    apply shrink_refl, Hv, Hkv.
Qed.

Lemma shrink_remove d n :
  wf (JObj d) -> shrink (JObj (remove n d)) (JObj d).
Proof.
  intros Hwf. apply wf_obj_inv in Hwf as [Hnd Hv].
  constructor; [apply NoDup_remove, Hnd|].
  rewrite Forall_forall in *. intros kv Hkv. apply In_remove in Hkv.
  exists (snd kv). split; [apply In_lookup; [exact Hnd|destruct kv; exact Hkv]|].
  apply shrink_refl, Hv, Hkv.
Qed.

(** [remove_defaultval] deletes members and does nothing else. *)
Lemma rd_shrink path dv :
  forall x x', wf x -> remove_defaultval path dv x = Ok x' -> shrink x' x.
Proof.
  induction path as [|n sub IH]; intros x x' Hwf Hx.
  { injection Hx as <-. apply shrink_refl, Hwf. }
  destruct (truthy x) eqn:Ht.
  2:{ rewrite rd_falsy in Hx by assumption. injection Hx as <-.
      apply shrink_refl, Hwf. }
  destruct sub as [|s sub].
  - destruct x as [| | | |l|d]; try (rd_step Hx Ht; discriminate).
    apply truthy_obj in Ht. rewrite rd_leaf_obj in Hx by assumption.
    destruct (py_eq (get n d) dv).
    + destruct (lookup n d); [|discriminate]. injection Hx as <-.
      apply shrink_remove, Hwf.
    + injection Hx as <-. apply shrink_refl, Hwf.
  - destruct (String.eqb n "*") eqn:En.
    + apply String.eqb_eq in En. subst n.
      destruct x as [| | |str|l|d]; try (rd_step Hx Ht; discriminate).
      * rd_step Hx Ht. destruct (mapM _ (chars str)); simpl in Hx; [|discriminate].
        injection Hx as <-. constructor.
      * apply truthy_list in Ht. rewrite rd_star_list in Hx by assumption.
        destruct (mapM _ l) as [l2|] eqn:Em; simpl in Hx; [|discriminate].
        injection Hx as <-. apply wf_list_inv in Hwf. constructor.
        rewrite Forall_forall in *. intros y' Hy'.
        destruct (mapM_In _ _ _ _ Em Hy') as (y & Hy & Hf).
        exists y. split; [exact Hy|]. eapply IH; [|exact Hf]. auto.
      * apply truthy_obj in Ht. rewrite rd_star_obj in Hx by assumption.
        destruct (mapM _ d) as [d2|] eqn:Em; simpl in Hx; [|discriminate].
        injection Hx as <-. apply wf_obj_inv in Hwf as [Hnd Hv]. constructor.
        { rewrite (mapM_on_value_keys _ _ _ Em). exact Hnd. }
        rewrite Forall_forall in *. intros kv' Hkv'.
        destruct (mapM_on_value_In _ _ _ _ Em Hkv') as (v & Hin & Hf).
        exists v. split; [apply In_lookup; assumption|].
        eapply IH; [|exact Hf]. apply (Hv _ Hin).
    + destruct x as [| | | |l|d]; try (rd_step Hx Ht; rewrite En in Hx; discriminate).
      apply truthy_obj in Ht. rewrite rd_name_obj in Hx by assumption.
      destruct (lookup n d) as [v|] eqn:El.
      * destruct (remove_defaultval (s :: sub) dv v) as [v2|] eqn:Ev; simpl in Hx;
          [|discriminate].
        injection Hx as <-. apply (shrink_store d n v v2); [exact Hwf|exact El|].
        eapply IH; [|exact Ev]. apply wf_obj_inv in Hwf as [_ Hv].
        rewrite Forall_forall in Hv. apply (Hv _ (lookup_In _ _ _ El)).
      * injection Hx as <-. apply shrink_refl, Hwf.
Qed.

(** What [remove_defaultval] returns, it leaves as it is. *)
Lemma rd_idempotent path dv :
  scalar_default dv ->
  forall x x', wf x -> remove_defaultval path dv x = Ok x' ->
               remove_defaultval path dv x' = Ok x'.
Proof.
  intros Hdv. induction path as [|n sub IH]; intros x x' Hwf Hx; [reflexivity|].
  destruct (truthy x') eqn:Ht'; [|apply rd_falsy, Ht'].
  destruct (truthy x) eqn:Ht.
  2:{ rewrite rd_falsy in Hx by assumption. congruence. }
  destruct sub as [|s sub].
  - destruct x as [| | | |l|d]; try (rd_step Hx Ht; discriminate).
    apply truthy_obj in Ht. rewrite rd_leaf_obj in Hx by assumption.
    destruct (py_eq (get n d) dv) eqn:E.
    + destruct (lookup n d) eqn:El; [|discriminate]. injection Hx as <-.
      apply truthy_obj in Ht'. rewrite rd_leaf_obj by assumption.
      unfold get. apply wf_obj_inv in Hwf as [Hnd _].
      rewrite (lookup_remove_same _ _ Hnd), (py_eq_null _ Hdv). reflexivity.
    + injection Hx as <-. rewrite rd_leaf_obj by assumption. rewrite E. reflexivity.
  - destruct (String.eqb n "*") eqn:En.
    + apply String.eqb_eq in En. subst n.
      destruct x as [| | |str|l|d]; try (rd_step Hx Ht; discriminate).
      * pose proof Hx as Hx0. rd_step Hx Ht.
        destruct (mapM _ (chars str)); simpl in Hx; [|discriminate].
        injection Hx as <-. exact Hx0.
      * apply truthy_list in Ht. rewrite rd_star_list in Hx by assumption.
        destruct (mapM _ l) as [l2|] eqn:Em; simpl in Hx; [|discriminate].
        injection Hx as <-. apply truthy_list in Ht'.
        rewrite rd_star_list by assumption. apply wf_list_inv in Hwf.
        rewrite mapM_fixed; [reflexivity|].
        rewrite Forall_forall in *. intros y' Hy'.
        destruct (mapM_In _ _ _ _ Em Hy') as (y & Hy & Hf).
        eapply IH; [|exact Hf]. auto.
      * apply truthy_obj in Ht. rewrite rd_star_obj in Hx by assumption.
        destruct (mapM _ d) as [d2|] eqn:Em; simpl in Hx; [|discriminate].
        injection Hx as <-. apply truthy_obj in Ht'.
        rewrite rd_star_obj by assumption. apply wf_obj_inv in Hwf as [Hnd Hv].
        rewrite mapM_fixed; [reflexivity|].
        rewrite Forall_forall in *. intros kv' Hkv'.
        destruct (mapM_on_value_In _ _ _ _ Em Hkv') as (v & Hin & Hf).
        apply on_value_fixed. eapply IH; [|exact Hf]. apply (Hv _ Hin).
    + destruct x as [| | | |l|d]; try (rd_step Hx Ht; rewrite En in Hx; discriminate).
      apply truthy_obj in Ht. rewrite rd_name_obj in Hx by assumption.
      destruct (lookup n d) as [v|] eqn:El.
      * destruct (remove_defaultval (s :: sub) dv v) as [v2|] eqn:Ev; simpl in Hx;
          [|discriminate].
        injection Hx as <-. rewrite rd_name_obj; [|apply store_nonempty|exact En].
        rewrite lookup_store, String.eqb_refl.
        assert (wf v) as Hwv.
        { apply wf_obj_inv in Hwf as [_ Hv]. rewrite Forall_forall in Hv.
          apply (Hv _ (lookup_In _ _ _ El)). }
        rewrite (IH v v2 Hwv Ev). simpl. rewrite store_store. reflexivity.
      * injection Hx as <-. rewrite rd_name_obj by assumption. rewrite El. reflexivity.
Qed.

(** ** The table of defaults *)


Lemma remove_defaults_shrink table :
  Forall (fun entry => scalar_default (snd entry)) table ->
  forall x y,
    wf x -> remove_defaults table x = Ok y ->
    shrink y x /\ forall z, shrink z y -> Forall (fixed_by z) table.
Proof.
  induction 1 as [|[p dv] table Hdv Ht IH]; intros x y Hwf Hy; simpl in Hy.
  - injection Hy as <-. split; [apply shrink_refl, Hwf|constructor].
  - destruct (remove_defaultval p dv x) as [x1|] eqn:E1; simpl in Hy; [|discriminate].
    pose proof (rd_shrink _ _ _ _ Hwf E1) as Hs1.
    pose proof (shrink_wf _ _ Hwf Hs1) as Hwf1.
    destruct (IH x1 y Hwf1 Hy) as [Hs Hfix].
    split; [exact (shrink_trans y x1 x Hs Hs1)|].
    intros z Hz. constructor; [|apply Hfix, Hz].
    unfold fixed_by. simpl.
    apply (rd_fixed_shrink p dv Hdv x1 z).
    + exact (rd_idempotent p dv Hdv x x1 Hwf E1).
    + exact (shrink_trans z y x1 Hz Hs).
Qed.


(** ** [vCardParams] *)


Lemma depth_list_member y l : In y l -> depth y < depth (JList l).
Proof.
  cbn [depth]. induction l as [|z l IH]; [contradiction|].
  intros [<-|H]; [lia|]. specialize (IH H). lia.
Qed.

Lemma depth_obj_member kv d : In kv d -> depth (snd kv) < depth (JObj d).
Proof.
  cbn [depth]. induction d as [|[k z] d IH]; [contradiction|].
  intros [<-|H]; [simpl; lia|]. specialize (IH H). lia.
Qed.


(** ** Sorting components *)


Lemma sort_by_key_In {A} (key : A -> string) l x :
  In x (sort_by_key key l) -> In x l.
Proof. apply Permutation_in. symmetry. apply sort_Permutation. Qed.


Lemma sort_unordered_components_cases x x' :
  sort_unordered_components x = Ok x' ->
  x' = x
  \/ exists d l,
       x = JObj d
       /\ truthy (match lookup "isOrdered" d with
                  | Some v => v
                  | None => JBool false
                  end) = false
       /\ lookup "components" d = Some (JList l) /\ l <> []
       /\ x' = JObj (store "components" (JList (sort_by_key json_dumps l)) d).
Proof.
  unfold sort_unordered_components. destruct x as [| | | | |d]; try discriminate.
  destruct (truthy (match lookup "isOrdered" d with Some v => v | None => JBool false end))
    eqn:Eo; [intros [= <-]; auto|].
  destruct (lookup "components" d) as [comps|] eqn:Ec; [|intros [= <-]; auto].
  destruct (truthy comps) eqn:Et; cbn [negb]; [|intros [= <-]; auto].
  destruct comps as [| | | |l|]; try discriminate.
  intros [= <-]. right. exists d, l. repeat split; auto.
  apply truthy_list, Et.
Qed.

Lemma sort_unordered_components_shrink x x' :
  wf x -> sort_unordered_components x = Ok x' -> shrink x' x.
Proof.
  intros Hwf H.
  destruct (sort_unordered_components_cases _ _ H) as [->|(d & l & -> & _ & Hc & _ & ->)].
  - apply shrink_refl, Hwf.
  - apply (shrink_store d "components" (JList l)); [exact Hwf|exact Hc|].
    assert (Forall wf l) as Hl.
    { apply wf_list_inv. apply wf_obj_inv in Hwf as [_ Hv].
      rewrite Forall_forall in Hv. apply (Hv _ (lookup_In _ _ _ Hc)). }
    constructor. rewrite Forall_forall in *. intros y Hy.
    apply sort_by_key_In in Hy. exists y. split; [exact Hy|].
    apply shrink_refl, Hl, Hy.
Qed.


(** ** The steps on the members of the card *)

Lemma sort_name_cases d d' :
  sort_name d = Ok d' ->
  (lookup "name" d = None /\ d' = d)
  \/ exists v v', lookup "name" d = Some v
                  /\ sort_unordered_components v = Ok v'
                  /\ d' = store "name" v' d.
Proof.
  unfold sort_name. destruct (lookup "name" d) as [v|]; [|intros [= <-]; auto].
  destruct (sort_unordered_components v) as [v'|] eqn:E; simpl; [|discriminate].
  intros [= <-]. right. eauto.
Qed.

Lemma sort_addresses_cases d d' :
  sort_addresses d = Ok d' ->
  (lookup "addresses" d = None /\ d' = d)
  \/ exists a a', lookup "addresses" d = Some (JObj a)
                  /\ mapM (on_value sort_unordered_components) a = Ok a'
                  /\ d' = store "addresses" (JObj a') d.
Proof.
  unfold sort_addresses. destruct (lookup "addresses" d) as [v|]; [|intros [= <-]; auto].
  destruct v as [| | | | |a]; try discriminate.
  change (mapM _ a) with (mapM (on_value sort_unordered_components) a).
  destruct (mapM _ a) as [a'|] eqn:E; simpl; [|discriminate].
  intros [= <-]. right. eauto.
Qed.

Lemma sort_name_shrink d d' :
  wf (JObj d) -> sort_name d = Ok d' -> shrink (JObj d') (JObj d).
Proof.
  intros Hwf H. destruct (sort_name_cases _ _ H) as [[_ ->]|(v & v' & Hl & Hs & ->)].
  - apply shrink_refl, Hwf.
  - apply (shrink_store d "name" v); [exact Hwf|exact Hl|].
    apply sort_unordered_components_shrink; [|exact Hs].
    apply wf_obj_inv in Hwf as [_ Hv]. rewrite Forall_forall in Hv.
    apply (Hv _ (lookup_In _ _ _ Hl)).
Qed.

Lemma sort_addresses_shrink d d' :
  wf (JObj d) -> sort_addresses d = Ok d' -> shrink (JObj d') (JObj d).
Proof.
  intros Hwf H. destruct (sort_addresses_cases _ _ H) as [[_ ->]|(a & a' & Hl & Hs & ->)].
  - apply shrink_refl, Hwf.
  - apply (shrink_store d "addresses" (JObj a)); [exact Hwf|exact Hl|].
    assert (wf (JObj a)) as Hwa.
    { apply wf_obj_inv in Hwf as [_ Hv]. rewrite Forall_forall in Hv.
      apply (Hv _ (lookup_In _ _ _ Hl)). }
    apply wf_obj_inv in Hwa as [Hnd Hv]. constructor.
    { rewrite (mapM_on_value_keys _ _ _ Hs). exact Hnd. }
    rewrite Forall_forall in *. intros kv' Hkv'.
    destruct (mapM_on_value_In _ _ _ _ Hs Hkv') as (v & Hin & Hf).
    exists v. split; [apply In_lookup; assumption|].
    apply sort_unordered_components_shrink; [apply (Hv _ Hin)|exact Hf].
Qed.



(** ** [vCardProps] *)

Lemma filterM_fixed {A} (f : A -> result bool) l r :
  filterM f l = Ok r -> filterM f r = Ok r /\ forall x, In x r -> In x l.
Proof.
  revert r. induction l as [|x l IH]; simpl; intros r.
  - intros [= <-]. split; [reflexivity|auto].
  - destruct (f x) as [b|] eqn:Ef; simpl; [|discriminate].
    destruct (filterM f l) as [r'|] eqn:Er; simpl; [|discriminate].
    intros [= <-]. destruct (IH r' eq_refl) as [H1 H2].
    destruct b; [|split; [exact H1|auto]].
    simpl. rewrite Ef, H1. simpl. split; [reflexivity|].
    intros y [<-|Hy]; auto.
Qed.

Lemma drop_version_props_cases d d' :
  drop_version_props d = Ok d' ->
  (lookup "vCardProps" d = None /\ d' = d)
  \/ (lookup "vCardProps" d <> None /\ d' = remove "vCardProps" d)
  \/ exists v ps props,
       lookup "vCardProps" d = Some v /\ py_iter v = Ok ps
       /\ filterM (fun p => x <- first_item p ;;
                            Ok (negb (py_eq x (JStr "version")))) ps = Ok props
       /\ props <> [] /\ d' = store "vCardProps" (JList props) d.
Proof.
  unfold drop_version_props.
  destruct (lookup "vCardProps" d) as [v|] eqn:El; [|intros [= <-]; auto].
  destruct (py_iter v) as [ps|] eqn:Ei; simpl; [|discriminate].
  destruct (filterM _ ps) as [props|] eqn:Ef; simpl; [|discriminate].
  destruct props as [|p props]; intros [= <-].
  - right. left. split; [discriminate|reflexivity].
  - right. right. exists v, ps, (p :: props). repeat split; auto. discriminate.
Qed.



Lemma wf_member d k v : wf (JObj d) -> lookup k d = Some v -> wf v.
Proof.
  intros Hwf Hl. apply wf_obj_inv in Hwf as [_ Hv]. rewrite Forall_forall in Hv.
  apply (Hv _ (lookup_In _ _ _ Hl)).
Qed.

Lemma py_iter_members v ps :
  py_iter v = Ok ps ->
  (wf v -> Forall wf ps) /\ (no_vcardparams v -> Forall no_vcardparams ps).
Proof.
  destruct v as [| | |s|l|d]; try discriminate; intros [= <-]; split; intros H.
  - unfold chars. apply Forall_map, Forall_forall. intros c _. constructor.
  - unfold chars. apply Forall_map, Forall_forall. intros c _. constructor.
  - apply wf_list_inv, H.
  - inversion H; assumption.
  - apply Forall_map, Forall_forall. intros c _. constructor.
  - apply Forall_map, Forall_forall. intros c _. constructor.
Qed.



Lemma default_values_ok : forallb entry_ok default_values = true.
Proof. reflexivity. Qed.

Lemma entry_ok_spec entry :
  entry_ok entry = true ->
  scalar_default (snd entry)
  /\ exists n sub, fst entry = n :: sub /\ String.eqb n "*" = false
                   /\ n <> "vCardProps".
Proof.
  unfold entry_ok. intros H. apply andb_true_iff in H as [H1 H2]. split.
  - destruct (snd entry); simpl; try exact I; discriminate.
  - destruct (fst entry) as [|n sub]; [discriminate|].
    apply andb_true_iff in H1 as [Ha Hb]. exists n, sub.
    apply negb_true_iff in Ha, Hb. split; [reflexivity|]. split; [exact Ha|].
    apply String.eqb_neq, Hb.
Qed.

Lemma default_values_scalar :
  Forall (fun entry => scalar_default (snd entry)) default_values.
Proof.
  apply Forall_forall. intros e He. apply entry_ok_spec.
  pose proof default_values_ok as H. rewrite forallb_forall in H. apply H, He.
Qed.





(** ** The depth bound of [normalize_vcardparams] *)

Lemma mapM_not_OutOfFuel {A B} (f : A -> result B) l :
  (forall x, In x l -> f x <> Raise OutOfFuel) -> mapM f l <> Raise OutOfFuel.
Proof.
  induction l as [|x l IH]; simpl; intros H; [discriminate|].
  destruct (f x) as [y|e] eqn:Ef; simpl.
  - destruct (mapM f l) as [ys|e] eqn:Em; simpl; [discriminate|].
    intros [= ->]. apply IH; auto.
  - intros [= ->]. apply (H x); auto.
Qed.

Lemma depth_obj_bound d n :
  (forall kv, In kv d -> depth (snd kv) <= n) -> depth (JObj d) <= S n.
Proof.
  cbn [depth]. induction d as [|[k v] d IH]; intros H; [lia|].
  specialize (IH (fun kv Hkv => H kv (or_intror Hkv))).
  specialize (H (k, v) (or_introl eq_refl)). simpl in H. lia.
Qed.

Lemma strip_group_depth d d1 kv :
  strip_group d = Ok d1 -> In kv d1 -> depth (snd kv) < depth (JObj d).
Proof.
  unfold strip_group. destruct (lookup "vCardParams" d) as [v|] eqn:El.
  2:{ intros [= <-]. apply depth_obj_member. }
  destruct v as [| | | | |p]; try discriminate.
  destruct (lookup "group" p); [|intros [= <-]; apply depth_obj_member].
  destruct (remove "group" p) as [|e p'] eqn:Er.
  - intros [= <-] Hin. apply depth_obj_member. eapply In_remove, Hin.
  - intros [= <-] Hin. apply In_store in Hin as [->|Hin]; [|apply depth_obj_member, Hin].
    simpl snd. pose proof (depth_obj_member _ _ (lookup_In _ _ _ El)) as Hp.
    simpl snd in Hp. eapply Nat.le_lt_trans; [|exact Hp].
    destruct (depth (JObj p)) as [|n] eqn:Ed; [simpl in Ed; lia|].
    apply depth_obj_bound. intros kv Hkv. rewrite <- Er in Hkv.
    apply In_remove in Hkv. pose proof (depth_obj_member _ _ Hkv). lia.
Qed.

(** The depth of the value is fuel enough. *)
Lemma normalize_vcardparams_fuel fuel :
  forall x, depth x <= fuel -> normalize_vcardparams fuel x <> Raise OutOfFuel.
Proof.
  induction fuel as [|fuel IH]; intros x Hd.
  - destruct x; simpl in Hd; lia.
  - destruct x as [| | | |l|d]; try discriminate; cbn [normalize_vcardparams].
    + destruct (mapM _ l) as [l'|e] eqn:Em; simpl; [discriminate|].
      intros [= ->]. revert Em. apply mapM_not_OutOfFuel.
      intros y Hy. apply IH. pose proof (depth_list_member y l Hy). lia.
    + destruct (strip_group d) as [d1|e] eqn:Es; simpl.
      2:{ unfold strip_group in Es.
          destruct (lookup "vCardParams" d) as [[| | | | |p]|]; try discriminate;
            try (injection Es as <-; discriminate).
          destruct (lookup "group" p); [destruct (remove "group" p)|]; discriminate. }
      destruct (mapM _ d1) as [d2|e] eqn:Em; simpl; [discriminate|].
      intros [= ->]. revert Em. apply mapM_not_OutOfFuel.
      intros kv Hkv. pose proof (strip_group_depth _ _ _ Es Hkv) as Hlt.
      destruct (normalize_vcardparams fuel (snd kv)) as [v|e] eqn:En; simpl;
        [discriminate|].
      intros [= ->]. revert En. apply IH. lia.
Qed.

(** ** The fuel of [normalize_jscard] *)

(** *** Sizes *)

Lemma size_JList l : size (JList l) = S (size_list l).
Proof.
  unfold size_list. cbn [size]. f_equal.
  induction l as [|x l IH]; simpl; auto.
Qed.

Lemma size_JObj d : size (JObj d) = S (size_dict d).
Proof.
  unfold size_dict. cbn [size]. f_equal.
  induction d as [|[k v] d IH]; simpl; auto.
Qed.

Lemma size_pos v : 1 <= size v.
Proof. destruct v; simpl; lia. Qed.

Lemma size_dict_cons k v d : size_dict ((k, v) :: d) = size v + size_dict d.
Proof. reflexivity. Qed.

Lemma size_list_cons x l : size_list (x :: l) = size x + size_list l.
Proof. reflexivity. Qed.

Lemma size_where_cons p k v d :
  size_where p ((k, v) :: d)
  = (if p k then size v else 0) + size_where p d.
Proof. unfold size_where. simpl. destruct (p k); reflexivity. Qed.

Lemma size_where_all d : size_where (fun _ => true) d = size_dict d.
Proof.
  induction d as [|[k v] d IH]; [reflexivity|].
  rewrite size_where_cons, size_dict_cons, IH. reflexivity.
Qed.

Lemma size_top_all v : size_top (fun _ => true) v = size v.
Proof.
  destruct v; try reflexivity. cbn [size_top].
  rewrite size_where_all, size_JObj. reflexivity.
Qed.

Lemma size_where_le p d : size_where p d <= size_dict d.
Proof.
  induction d as [|[k v] d IH]; [reflexivity|].
  rewrite size_where_cons, size_dict_cons. destruct (p k); lia.
Qed.

Lemma size_dict_In kv d : In kv d -> size (snd kv) <= size_dict d.
Proof.
  induction d as [|[k v] d IH]; intros []; rewrite size_dict_cons.
  - subst. simpl. lia.
  - specialize (IH H). lia.
Qed.

Lemma size_where_store p k v d n :
  match lookup k d with
  | Some old => size v <= size old + n
  | None => size v <= n
  end ->
  size_where p (store k v d) <= size_where p d + n.
Proof.
  induction d as [|[k' v'] d IH]; cbn [lookup store].
  - intros H. rewrite size_where_cons. change (size_where p []) with 0.
    destruct (p k); lia.
  - destruct (String.eqb k k') eqn:Ek.
    + apply String.eqb_eq in Ek as <-. intros H.
      rewrite !size_where_cons. destruct (p k); lia.
    + intros H. rewrite !size_where_cons. specialize (IH H). lia.
Qed.

Lemma size_where_store_other p k v d :
  p k = false -> size_where p (store k v d) = size_where p d.
Proof.
  intros Hp. induction d as [|[k' v'] d IH]; cbn [store].
  - rewrite size_where_cons, Hp. reflexivity.
  - destruct (String.eqb k k') eqn:Ek.
    + apply String.eqb_eq in Ek as <-. rewrite !size_where_cons, Hp.
      reflexivity.
    + rewrite !size_where_cons, IH. reflexivity.
Qed.

Lemma size_where_remove p k d : size_where p (remove k d) <= size_where p d.
Proof.
  induction d as [|[k' v'] d IH]; cbn [remove]; [reflexivity|].
  destruct (String.eqb k k'); rewrite !size_where_cons; lia.
Qed.

Lemma size_where_remove_lookup p k d v :
  p k = true -> lookup k d = Some v ->
  size_where p d = size v + size_where p (remove k d).
Proof.
  intros Hp. induction d as [|[k' v'] d IH]; cbn [lookup remove]; [discriminate|].
  destruct (String.eqb k k') eqn:Ek.
  - apply String.eqb_eq in Ek as <-. intros [= ->].
    rewrite size_where_cons, Hp. reflexivity.
  - intros H. rewrite !size_where_cons, (IH H). lia.
Qed.

Lemma size_where_mapM p (f : json -> result json) d d' :
  (forall kv v, In kv d -> f (snd kv) = Ok v -> size v <= size (snd kv)) ->
  mapM (fun kv => v <- f (snd kv) ;; Ok (fst kv, v)) d = Ok d' ->
  size_where p d' <= size_where p d.
Proof.
  revert d'. induction d as [|[k v] d IH]; intros d' Hf; cbn [mapM].
  - intros [= <-]. reflexivity.
  - cbn [fst snd]. destruct (f v) as [v'|e] eqn:Ev; cbn [bind]; [|discriminate].
    destruct (mapM _ d) as [r|e] eqn:Em; cbn [bind]; [|discriminate].
    intros [= <-]. rewrite !size_where_cons.
    pose proof (Hf (k, v) v' (or_introl eq_refl) Ev) as Hv. simpl in Hv.
    specialize (IH r (fun kv v Hin => Hf kv v (or_intror Hin)) eq_refl).
    destruct (p k); lia.
Qed.

Lemma size_list_mapM (f : json -> result json) l l' :
  (forall x y, In x l -> f x = Ok y -> size y <= size x) ->
  mapM f l = Ok l' -> size_list l' <= size_list l.
Proof.
  revert l'. induction l as [|x l IH]; intros l' Hf; cbn [mapM].
  - intros [= <-]. reflexivity.
  - destruct (f x) as [y|e] eqn:Ey; cbn [bind]; [|discriminate].
    destruct (mapM f l) as [r|e] eqn:Em; cbn [bind]; [|discriminate].
    intros [= <-]. rewrite !size_list_cons.
    pose proof (Hf x y (or_introl eq_refl) Ey).
    specialize (IH r (fun x y Hin => Hf x y (or_intror Hin)) eq_refl). lia.
Qed.

Lemma size_list_set l n x sub :
  nth_error l n = Some sub ->
  size_list (list_set l n x) + size sub = size_list l + size x.
Proof.
  revert n. induction l as [|y l IH]; intros [|n]; simpl; try discriminate.
  - intros [= ->]. rewrite !size_list_cons. lia.
  - intros H. rewrite !size_list_cons. specialize (IH n H). lia.
Qed.

(** *** The steps before the loop do not add to what is counted *)

Lemma remove_defaultval_size path dv :
  forall p x x',
    remove_defaultval path dv x = Ok x' -> size_top p x' <= size_top p x.
Proof.
  induction path as [|n sub IH]; intros p x x'; [intros [= <-]; reflexivity|].
  cbn [remove_defaultval].
  destruct (negb (truthy x)); [intros [= <-]; reflexivity|].
  assert (IHs : forall v v', remove_defaultval sub dv v = Ok v' ->
                             size v' <= size v).
  { intros v v' H. rewrite <- !size_top_all. eapply IH, H. }
  destruct sub as [|s sub].
  - destruct x as [| | | | |d]; try discriminate.
    destruct (py_eq (get n d) dv); [|intros [= <-]; reflexivity].
    destruct (lookup n d); [|discriminate].
    intros [= <-]. cbn [size_top]. pose proof (size_where_remove p n d). lia.
  - destruct (String.eqb n "*").
    + destruct x as [| | |str|l|d]; try discriminate.
      * destruct (mapM _ (chars str)); cbn [bind]; [|discriminate].
        intros [= <-]. reflexivity.
      * destruct (mapM _ l) as [l'|e] eqn:Em; cbn [bind]; [|discriminate].
        intros [= <-]. cbn [size_top]. rewrite !size_JList.
        apply le_n_S. eapply size_list_mapM; [|exact Em]. intros y y' _. apply IHs.
      * destruct (mapM _ d) as [d'|e] eqn:Em; cbn [bind]; [|discriminate].
        intros [= <-]. cbn [size_top]. apply le_n_S.
        eapply (size_where_mapM p (remove_defaultval (s :: sub) dv));
          [|exact Em].
        intros kv v _. apply IHs.
    + destruct x as [| | | | |d]; try discriminate.
      destruct (lookup n d) as [v|] eqn:El.
      * destruct (remove_defaultval (s :: sub) dv v) as [v'|e] eqn:Ev;
          cbn [bind]; [|discriminate].
        intros [= <-]. cbn [size_top].
        pose proof (size_where_store p n v' d 0) as Hs. rewrite El in Hs.
        pose proof (IHs _ _ Ev). lia.
      * destruct (remove_defaultval (s :: sub) dv JNull); cbn [bind];
          [|discriminate].
        intros [= <-]. reflexivity.
Qed.

Lemma remove_defaults_size table :
  forall p x x', remove_defaults table x = Ok x' -> size_top p x' <= size_top p x.
Proof.
  induction table as [|[path dv] table IH]; intros p x x'; cbn [remove_defaults].
  - intros [= <-]. reflexivity.
  - destruct (remove_defaultval path dv x) as [x1|e] eqn:E1; cbn [bind];
      [|discriminate].
    intros H. pose proof (remove_defaultval_size _ _ p _ _ E1).
    pose proof (IH p _ _ H). lia.
Qed.

Lemma remove_defaults_JObj table :
  forall d x', remove_defaults table (JObj d) = Ok x' -> exists d', x' = JObj d'.
Proof.
  assert (H1 : forall path dv d x', remove_defaultval path dv (JObj d) = Ok x' ->
                                    exists d', x' = JObj d').
  { intros [|n sub] dv d x'; cbn [remove_defaultval]; [intros [= <-]; eauto|].
    destruct (negb (truthy (JObj d))); [intros [= <-]; eauto|].
    destruct sub as [|s sub].
    - destruct (py_eq (get n d) dv); [|intros [= <-]; eauto].
      destruct (lookup n d); [intros [= <-]; eauto|discriminate].
    - destruct (String.eqb n "*").
      + destruct (mapM _ d); cbn [bind]; [intros [= <-]; eauto|discriminate].
      + destruct (lookup n d);
          (destruct (remove_defaultval (s :: sub) dv _); cbn [bind];
           [intros [= <-]; eauto|discriminate]). }
  induction table as [|[path dv] table IH]; intros d x'; cbn [remove_defaults].
  - intros [= <-]. eauto.
  - destruct (remove_defaultval path dv (JObj d)) as [x1|e] eqn:E1; cbn [bind];
      [|discriminate].
    destruct (H1 _ _ _ _ E1) as (d1 & ->). apply IH.
Qed.

Lemma strip_group_size p d d1 :
  strip_group d = Ok d1 -> size_where p d1 <= size_where p d.
Proof.
  unfold strip_group. destruct (lookup "vCardParams" d) as [v|] eqn:El.
  2:{ intros [= <-]. reflexivity. }
  destruct v as [| | | | |pr]; try discriminate.
  destruct (lookup "group" pr); [|intros [= <-]; reflexivity].
  destruct (remove "group" pr) as [|e pr'] eqn:Er.
  - intros [= <-]. apply size_where_remove.
  - intros [= <-].
    pose proof (size_where_store p "vCardParams" (JObj (e :: pr')) d 0) as Hs.
    rewrite El in Hs.
    assert (Hr : size (JObj (e :: pr')) <= size (JObj pr)).
    { rewrite <- Er, !size_JObj, <- !size_where_all.
      apply le_n_S, size_where_remove. }
    lia.
Qed.

Lemma normalize_vcardparams_size fuel :
  forall p x x',
    normalize_vcardparams fuel x = Ok x' -> size_top p x' <= size_top p x.
Proof.
  induction fuel as [|fuel IH]; intros p x x'; [discriminate|].
  assert (IHs : forall v v', normalize_vcardparams fuel v = Ok v' ->
                             size v' <= size v).
  { intros v v' H. rewrite <- !size_top_all. eapply IH, H. }
  cbn [normalize_vcardparams]. destruct x as [| | | |l|d];
    try (intros [= <-]; reflexivity).
  - destruct (mapM _ l) as [l'|e] eqn:Em; cbn [bind]; [|discriminate].
    intros [= <-]. cbn [size_top]. rewrite !size_JList. apply le_n_S.
    eapply size_list_mapM; [|exact Em]. intros y y' _. apply IHs.
  - destruct (strip_group d) as [d1|e] eqn:Es; cbn [bind]; [|discriminate].
    destruct (mapM _ d1) as [d2|e] eqn:Em; cbn [bind]; [|discriminate].
    intros [= <-]. cbn [size_top]. apply le_n_S.
    pose proof (strip_group_size p _ _ Es).
    pose proof (size_where_mapM p (normalize_vcardparams fuel) d1 d2
                  (fun kv v _ => IHs _ _) Em). lia.
Qed.

Lemma sort_name_size p d d' :
  p "name" = false -> sort_name d = Ok d' -> size_where p d' = size_where p d.
Proof.
  intros Hp. unfold sort_name. destruct (lookup "name" d);
    [|intros [= <-]; reflexivity].
  destruct (sort_unordered_components _); cbn [bind]; [|discriminate].
  intros [= <-]. apply size_where_store_other, Hp.
Qed.

Lemma sort_addresses_size p d d' :
  p "addresses" = false -> sort_addresses d = Ok d' ->
  size_where p d' = size_where p d.
Proof.
  intros Hp. unfold sort_addresses.
  destruct (lookup "addresses" d) as [[| | | | |a]|]; try discriminate;
    [|intros [= <-]; reflexivity].
  destruct (mapM _ a); cbn [bind]; [|discriminate].
  intros [= <-]. apply size_where_store_other, Hp.
Qed.

Lemma size_where_remove_other p k d :
  p k = false -> size_where p (remove k d) = size_where p d.
Proof.
  intros Hp. induction d as [|[k' v'] d IH]; cbn [remove]; [reflexivity|].
  destruct (String.eqb k k') eqn:Ek.
  - apply String.eqb_eq in Ek as <-. rewrite size_where_cons, Hp. reflexivity.
  - rewrite !size_where_cons, IH. reflexivity.
Qed.

Lemma drop_version_props_size p d d' :
  p "vCardProps" = false -> drop_version_props d = Ok d' ->
  size_where p d' = size_where p d.
Proof.
  intros Hp. unfold drop_version_props. destruct (lookup "vCardProps" d);
    [|intros [= <-]; reflexivity].
  destruct (py_iter _); cbn [bind]; [|discriminate].
  destruct (filterM _ _) as [[|x props]|]; cbn [bind]; [| |discriminate].
  - intros [= <-]. apply size_where_remove_other, Hp.
  - intros [= <-]. apply size_where_store_other, Hp.
Qed.

Lemma normalize_base_loc_size d base :
  normalize_base d = Ok base -> loc_size base <= loc_size (JObj d).
Proof.
  unfold normalize_base, loc_size.
  destruct (remove_defaults default_values (JObj d)) as [x|e] eqn:ED; cbn [bind];
    [|discriminate].
  pose proof (remove_defaults_size _ (String.eqb "localizations") _ _ ED) as H0.
  destruct (remove_defaults_JObj _ _ _ ED) as (d1 & ->).
  destruct (sort_name d1) as [d2|e] eqn:EN; cbn [bind]; [|discriminate].
  destruct (sort_addresses d2) as [d3|e] eqn:EA; cbn [bind]; [|discriminate].
  destruct (drop_version_props d3) as [d4|e] eqn:EV; cbn [bind]; [|discriminate].
  intros H4.
  apply (normalize_vcardparams_size _ (String.eqb "localizations")) in H4.
  apply (sort_name_size (String.eqb "localizations")) in EN; [|reflexivity].
  apply (sort_addresses_size (String.eqb "localizations")) in EA; [|reflexivity].
  apply (drop_version_props_size (String.eqb "localizations")) in EV;
    [|reflexivity].
  cbn [size_top] in *. lia.
Qed.

(** *** A patch adds the size of its values at most *)

Lemma descend_size path val :
  forall p x x',
    descend x path val = Ok x' -> size_top p x' <= size_top p x + size val.
Proof.
  induction path as [|seg rest IH]; intros p x x'; cbn [descend].
  - intros [= <-]. lia.
  - assert (IHs : forall v v', descend v rest val = Ok v' ->
                               size v' <= size v + size val).
    { intros v v' H. rewrite <- (size_top_all v), <- (size_top_all v').
      eapply IH, H. }
    destruct x as [| | | |l|d]; try discriminate.
    + destruct (py_int seg) as [i|]; [|discriminate].
      destruct (list_pos l i) as [n|]; [|discriminate].
      destruct (nth_error l n) as [sub|] eqn:En; [|discriminate].
      destruct (descend sub rest val) as [sub'|e] eqn:Ed; cbn [bind];
        [|discriminate].
      intros [= <-]. cbn [size_top]. rewrite !size_JList.
      pose proof (size_list_set l n sub' sub En). pose proof (IHs _ _ Ed). lia.
    + destruct (lookup seg d) as [sub|] eqn:El.
      * destruct (descend sub rest val) as [sub'|e] eqn:Ed; cbn [bind];
          [|discriminate].
        intros [= <-]. cbn [size_top].
        pose proof (size_where_store p seg sub' d (size val)) as Hs.
        rewrite El in Hs. pose proof (IHs _ _ Ed). lia.
      * destruct rest; [|discriminate].
        intros [= <-]. cbn [size_top].
        pose proof (size_where_store p seg val d (size val)) as Hs.
        rewrite El in Hs. lia.
Qed.

Lemma apply_items_size p items :
  forall x x',
    apply_items x items = Ok x' -> size_top p x' <= size_top p x + size_dict items.
Proof.
  induction items as [|[key val] items IH]; intros x x'.
  - intros [= <-]. unfold size_dict. simpl. lia.
  - rewrite apply_items_cons.
    destruct (descend x (split_char "/"%char key) val) as [x1|e] eqn:Ed;
      cbn [bind]; [|discriminate].
    intros H. pose proof (descend_size _ _ p _ _ Ed). pose proof (IH _ _ H).
    rewrite size_dict_cons. lia.
Qed.

(** *** What ends the fuel *)

Lemma normalize_base_no_OutOfFuel d : normalize_base d <> Raise OutOfFuel.
Proof.
  destruct (normalize_base_steps d _ eq_refl)
    as [(e & -> & He)|[(x & -> & _)|(d' & ->)]].
  - intros [= ->]. discriminate.
  - discriminate.
  - apply normalize_vcardparams_fuel, le_n.
Qed.

Lemma descend_no_OutOfFuel path val :
  forall x, descend x path val <> Raise OutOfFuel.
Proof.
  induction path as [|seg rest IH]; intros x; cbn [descend]; [discriminate|].
  destruct x as [| | | |l|d]; try discriminate.
  - destruct (py_int seg) as [i|]; [|discriminate].
    destruct (list_pos l i) as [n|]; [|discriminate].
    destruct (nth_error l n) as [sub|]; [|discriminate].
    destruct (descend sub rest val) as [sub'|e] eqn:Ed; cbn [bind];
      [discriminate|].
    intros [= ->]. exact (IH _ Ed).
  - destruct (lookup seg d) as [sub|].
    + destruct (descend sub rest val) as [sub'|e] eqn:Ed; cbn [bind];
        [discriminate|].
      intros [= ->]. exact (IH _ Ed).
    + destruct rest; discriminate.
Qed.

Lemma apply_items_no_OutOfFuel items :
  forall x, apply_items x items <> Raise OutOfFuel.
Proof.
  induction items as [|[key val] items IH]; intros x; [discriminate|].
  rewrite apply_items_cons.
  destruct (descend x (split_char "/"%char key) val) as [x1|e] eqn:Ed;
    cbn [bind]; [apply IH|].
  intros [= ->]. exact (descend_no_OutOfFuel _ _ _ Ed).
Qed.

(** What a card holds under [localizations] is fuel enough. *)
Lemma normalize_jscard_fuel fuel :
  forall card, loc_size card <= fuel -> normalize_jscard fuel card <> Raise OutOfFuel.
Proof.
  induction fuel as [|fuel IH]; intros card Hs.
  { destruct card; unfold loc_size in Hs; simpl in Hs; lia. }
  cbn [normalize_jscard]. destruct card as [| | | | |d]; try discriminate.
  set (d0 := match lookup "localizations" d with
             | Some _ => remove "localizations" d
             | None => d
             end).
  destruct (normalize_base d0) as [base|e] eqn:Eb; cbn [bind].
  2:{ intros [= ->]. exact (normalize_base_no_OutOfFuel _ Eb). }
  destruct (truthy (get "localizations" d)) eqn:Et; [|discriminate].
  unfold get in *. destruct (lookup "localizations" d) as [locs|] eqn:El;
    [|discriminate].
  destruct locs as [| | | | |locs]; try discriminate.
  destruct base as [| | | | |dbase]; try discriminate.
  pose proof (normalize_base_loc_size _ _ Eb) as Hb.
  assert (Hd : loc_size (JObj d) = size (JObj locs) + loc_size (JObj d0)).
  { unfold loc_size, d0. cbn [size_top].
    rewrite (size_where_remove_lookup _ _ _ _ eq_refl El). lia. }
  destruct (mapM _ locs) as [locs'|e] eqn:Em; cbn [bind]; [discriminate|].
  intros [= ->]. revert Em. apply mapM_not_OutOfFuel. intros kv Hkv.
  destruct (apply_patchobject (JObj dbase) (snd kv)) as [patched|e] eqn:Ea;
    cbn [bind].
  - destruct (normalize_jscard fuel patched) as [r|e] eqn:En;
      cbn [except_ValueError bind]; [discriminate|].
    assert (He : e <> OutOfFuel).
    { intros ->. revert En. apply IH.
      unfold apply_patchobject in Ea.
      destruct (snd kv) as [| | | | |items] eqn:Ekv; try discriminate.
      pose proof (apply_items_size (String.eqb "localizations") _ _ _ Ea) as Hp.
      pose proof (size_dict_In _ _ Hkv) as Hk. rewrite Ekv, size_JObj in Hk.
      rewrite size_JObj in Hd. unfold loc_size in *. lia. }
    destruct e; cbn [bind]; congruence.
  - assert (He : e <> OutOfFuel).
    { intros ->. unfold apply_patchobject in Ea.
      destruct (snd kv); try discriminate.
      exact (apply_items_no_OutOfFuel _ _ Ea). }
    destruct e; cbn [except_ValueError bind]; congruence.
Qed.

(** *** More fuel changes nothing *)

Lemma mapM_agree {A B} (f g : A -> result B) l :
  (forall x, In x l -> f x <> Raise OutOfFuel -> g x = f x) ->
  mapM f l <> Raise OutOfFuel -> mapM g l = mapM f l.
Proof.
  induction l as [|x l IH]; intros H; cbn [mapM]; [reflexivity|].
  destruct (f x) as [y|e] eqn:Ef; cbn [bind].
  - rewrite (H x (or_introl eq_refl)), Ef by (rewrite Ef; discriminate).
    cbn [bind]. intros Hm. rewrite IH; [reflexivity| |].
    + intros x' Hx'. apply H. right. exact Hx'.
    + destruct (mapM f l); cbn [bind] in Hm; congruence.
  - intros He. rewrite (H x (or_introl eq_refl)), Ef by (rewrite Ef; congruence).
    reflexivity.
Qed.

Lemma normalize_jscard_more_fuel fuel :
  forall fuel' card,
    fuel <= fuel' ->
    normalize_jscard fuel card <> Raise OutOfFuel ->
    normalize_jscard fuel' card = normalize_jscard fuel card.
Proof.
  induction fuel as [|fuel IH]; intros fuel' card Hle;
    [intros H; exfalso; apply H; reflexivity|].
  destruct fuel' as [|fuel']; [lia|]. apply le_S_n in Hle.
  cbn [normalize_jscard].
  destruct card as [| | | | |d]; try reflexivity.
  destruct (normalize_base _) as [base|e]; cbn [bind]; [|reflexivity].
  destruct (truthy _); [|reflexivity].
  destruct (get "localizations" d) as [| | | | |locs]; try reflexivity.
  destruct base as [| | | | |dbase]; try reflexivity.
  intros H.
  rewrite (mapM_agree
             (fun kv => v <- except_ValueError
                               (patched_jscard <- apply_patchobject (JObj dbase) (snd kv) ;;
                                normalize_jscard fuel patched_jscard)
                               (patch_after (JObj dbase) (snd kv)) ;;
                        Ok (fst kv, v))).
  - reflexivity.
  - intros kv _ Hkv.
    destruct (apply_patchobject (JObj dbase) (snd kv)) as [patched|e];
      cbn [bind]; [|reflexivity].
    rewrite (IH fuel' patched Hle); [reflexivity|].
    intros En. apply Hkv. cbn [bind]. rewrite En. reflexivity.
  - intros Em. apply H. rewrite Em. reflexivity.
Qed.

(** Property X23.  The recursion of [normalize_jscard] ends: it goes on
    through what the patches of the locales put under [localizations],
    and that gets smaller at every level.  From the size of what the card
    holds under [localizations] on, the bound on the depth of the
    recursion is not reached and the result is the same for every
    bound. *)
Theorem normalize_jscard_total (card : json) :
  exists r,
    r <> Raise OutOfFuel
    /\ forall fuel, loc_size card <= fuel -> normalize_jscard fuel card = r.
Proof.
  exists (normalize_jscard (loc_size card) card). split.
  - apply normalize_jscard_fuel, le_n.
  - intros fuel Hle. apply normalize_jscard_more_fuel; [exact Hle|].
    apply normalize_jscard_fuel, le_n.
Qed.

(** ** Printing and parsing a property *)

Lemma span_app p a rest :
  all_chars p a = true -> starts_outside p rest ->
  span p (a ++ rest)%string = String.length a.
Proof.
  induction a as [|c a IH]; simpl.
  - intros _ H. destruct rest as [|c r]; simpl in *; [reflexivity|].
    rewrite H. reflexivity.
  - intros H Hr. apply andb_true_iff in H as [-> H]. f_equal. auto.
Qed.

Lemma take_app a b : take (String.length a) (a ++ b)%string = a.
Proof. induction a as [|c a IH]; simpl; [destruct b; reflexivity|congruence]. Qed.

Lemma drop_app a b : drop (String.length a) (a ++ b)%string = b.
Proof. induction a as [|c a IH]; simpl; [destruct b; reflexivity|exact IH]. Qed.

Lemma get_app a c b :
  String.get (String.length a) (a ++ String c b)%string = Some c.
Proof. induction a as [|x a IH]; simpl; [reflexivity|exact IH]. Qed.

Lemma app_assoc_str (a b c : string) : ((a ++ b) ++ c = a ++ (b ++ c))%string.
Proof. induction a as [|x a IH]; simpl; congruence. Qed.

Lemma length_app_str (a b : string) :
  String.length (a ++ b)%string = String.length a + String.length b.
Proof. induction a as [|x a IH]; simpl; congruence. Qed.

Lemma re_match_name_app a rest :
  is_name a = true -> starts_outside is_name_char rest ->
  re_match_name (a ++ rest)%string = Some (String.length a).
Proof.
  intros Ha Hr. unfold re_match_name.
  destruct a as [|c a]; [discriminate|].
  rewrite span_app by assumption. reflexivity.
Qed.

Lemma quoted_end_app r rest :
  forall prev j,
    closes prev r = true ->
    quoted_end prev (r ++ rest)%string j = Some (j + String.length r).
Proof.
  induction r as [|c r IH]; intros prev j; cbn [closes]; [discriminate|].
  cbn [append quoted_end String.length].
  destruct (Ascii.eqb c dquote && negb (Ascii.eqb prev bslash)).
  - destruct r; [|discriminate]. intros _. f_equal. simpl. lia.
  - intros H. apply andb_true_iff in H as [Hlf H].
    apply negb_true_iff in Hlf. rewrite Hlf, (IH c (S j) H). f_equal. lia.
Qed.

Lemma ends_value_plain rest : ends_value rest -> starts_outside is_plain_char rest.
Proof. intros (r & [-> | ->]); reflexivity. Qed.

Lemma ends_value_name rest : ends_value rest -> starts_outside is_name_char rest.
Proof. intros (r & [-> | ->]); reflexivity. Qed.

Lemma param_value_end_app v rest :
  is_param_value v = true -> ends_value rest ->
  param_value_end (v ++ rest)%string = String.length v.
Proof.
  unfold is_param_value, param_value_end. intros Hv Hr.
  destruct v as [|c v].
  - cbn [append]. destruct Hr as (r & [-> | ->]); reflexivity.
  - cbn [append]. apply orb_true_iff in Hv as [Hv|Hv].
    + assert (Hc : Ascii.eqb c dquote = false).
      { simpl in Hv. apply andb_true_iff in Hv as [Hc _].
        unfold is_plain_char in Hc. apply negb_true_iff in Hc.
        apply orb_false_iff in Hc as [Hc _]. apply orb_false_iff in Hc as [Hc _].
        exact Hc. }
      rewrite Hc.
      exact (span_app is_plain_char (String c v) rest Hv (ends_value_plain _ Hr)).
    + apply andb_true_iff in Hv as [Hc Hv]. rewrite Hc.
      rewrite (quoted_end_app v rest c 1 Hv). reflexivity.
Qed.

Lemma re_match_param_app n v rest :
  is_name n = true -> is_param_value v = true -> ends_value rest ->
  re_match_param (String ";" (n ++ String "=" (v ++ rest)))%string
  = Some (n, v, 1 + String.length n + 1 + String.length v).
Proof.
  intros Hn Hv Hr. unfold re_match_param. cbn [Ascii.eqb Bool.eqb].
  change (Ascii.eqb ";" ";") with true. cbv iota.
  rewrite (re_match_name_app n _ Hn) by reflexivity.
  rewrite get_app. change (Ascii.eqb "=" "=") with true. cbv iota.
  assert (Hd : drop (S (String.length n)) (n ++ String "=" (v ++ rest))%string
               = (v ++ rest)%string).
  { clear. induction n as [|x n IH]; simpl; [reflexivity|exact IH]. }
  rewrite Hd, (param_value_end_app v rest Hv Hr), !take_app.
  reflexivity.
Qed.

Lemma append_nil_r (a : string) : (a ++ EmptyString)%string = a.
Proof. induction a as [|x a IH]; simpl; congruence. Qed.

Lemma join_empty_cons x l :
  join EmptyString (x :: l) = (x ++ join EmptyString l)%string.
Proof. destruct l; cbn [join]; [rewrite append_nil_r|]; reflexivity. Qed.

Lemma params_str_cons p ps tail :
  (params_str (p :: ps) ++ tail)%string
  = String ";" (p_name p ++ String "=" (p_value p ++ (params_str ps ++ tail)))%string.
Proof.
  unfold params_str. cbn [map]. rewrite join_empty_cons. unfold Param_str.
  cbn [append]. f_equal. rewrite !app_assoc_str. reflexivity.
Qed.

Lemma params_str_ends ps tail :
  ends_value (params_str ps ++ String ":" tail)%string.
Proof.
  destruct ps as [|p ps].
  - exists tail. right. reflexivity.
  - rewrite params_str_cons. eexists. left. reflexivity.
Qed.

Lemma params_str_length ps tail :
  List.length ps <= String.length (params_str ps ++ tail)%string.
Proof.
  revert tail. induction ps as [|p ps IH]; intros tail; [simpl; lia|].
  rewrite params_str_cons. cbn [String.length List.length].
  rewrite length_app_str. cbn [String.length]. rewrite length_app_str.
  specialize (IH tail). lia.
Qed.

Lemma parse_params_eq fuel s acc :
  parse_params fuel s acc
  = (c <- index s 0 ;;
     if Ascii.eqb c ";"%char then
       match re_match_param s with
       | None => Raise (ParseError s)
       | Some (n, v, e) =>
           match fuel with
           | 0 => Raise OutOfFuel
           | S fuel' => parse_params fuel' (drop e s) (acc ++ [mkParam (upper n) v])
           end
       end
     else Ok (acc, s)).
Proof. destruct fuel; reflexivity. Qed.

Lemma drop_param n v rest :
  drop (1 + String.length n + 1 + String.length v)
       (String ";" (n ++ String "=" (v ++ rest)))%string
  = rest.
Proof.
  cbn [plus drop]. induction n as [|x n IH]; cbn [String.length plus append drop].
  - apply drop_app.
  - exact IH.
Qed.

Lemma parse_params_printed ps :
  forall fuel acc tail,
    forallb printable_param ps = true -> List.length ps <= fuel ->
    parse_params fuel (params_str ps ++ String ":" tail)%string acc
    = Ok (acc ++ ps, String ":" tail).
Proof.
  induction ps as [|p ps IH]; intros fuel acc tail Hp Hf; rewrite parse_params_eq.
  - cbn. rewrite app_nil_r. reflexivity.
  - cbn [forallb] in Hp. apply andb_true_iff in Hp as [Hp Hps].
    unfold printable_param in Hp. apply andb_true_iff in Hp as [Hp Hv].
    apply andb_true_iff in Hp as [Hn Hu]. apply String.eqb_eq in Hu.
    rewrite params_str_cons.
    rewrite (re_match_param_app _ _ _ Hn Hv (params_str_ends ps tail)).
    cbn [index String.get bind]. change (Ascii.eqb ";" ";") with true. cbv iota.
    destruct fuel as [|fuel]; [simpl in Hf; lia|].
    rewrite drop_param, Hu, IH; [|exact Hps|simpl in Hf; lia].
    rewrite <- app_assoc. destruct p. reflexivity.
Qed.

Lemma index_head c s : index (String c s) 0 = Ok c.
Proof. reflexivity. Qed.

(** The part of [Prop.fromstr] from the name on. *)
Lemma fromstr_tail g nm ps val :
  is_name nm = true -> upper nm = nm -> forallb printable_param ps = true ->
  forall e,
    e = String.length nm ->
    (let s := (nm ++ (params_str ps ++ String ":" val))%string in
     let nm' := upper (take e s) in
     let s := drop e s in
     '(ps', s) <- parse_params (String.length s) s [] ;;
     c <- index s 0 ;;
     if negb (Ascii.eqb c ":"%char) then Raise (ParseError s)
     else Ok (mkProp g nm' ps' (drop 1 s)))
    = Ok (mkProp g nm ps val).
Proof.
  intros Hn Hu Hp e ->. cbv zeta. rewrite take_app, drop_app, Hu.
  rewrite (parse_params_printed ps _ [] val Hp (params_str_length ps _)).
  reflexivity.
Qed.

(** Property X1.  Parsing inverts printing: [Prop.fromstr] gives back
    every property that [Prop.__str__] has printed, when the property is
    one that [Prop.fromstr] can give, its names in upper case and made
    of [A-Za-z0-9-], its parameter values unquoted runs or quoted
    strings. *)
Theorem fromstr_Prop_str (prop : VProp) :
  printable prop = true -> fromstr (Prop_str prop) = Ok prop.
Proof.
  destruct prop as [g nm ps val]. unfold printable, Prop_str. cbn [group name params value].
  fold (params_str ps). intros H.
  apply andb_true_iff in H as [H Hp]. apply andb_true_iff in H as [H Hg].
  apply andb_true_iff in H as [Hn Hu]. apply String.eqb_eq in Hu.
  pose proof (params_str_ends ps val) as Hend.
  assert (Hget : exists c r, (params_str ps ++ String ":" val)%string = String c r
                             /\ Ascii.eqb c "."%char = false).
  { destruct Hend as (r & [-> | ->]); eauto. }
  destruct Hget as (c & r & Er & Hc).
  unfold fromstr. destruct g as [[|x g]|].
  - discriminate.
  - set (gs := String x g) in *.
    rewrite app_assoc_str. cbn [append].
    rewrite (re_match_name_app gs _ Hg) by reflexivity.
    unfold index. rewrite get_app. cbn [bind].
    change (Ascii.eqb "." ".") with true. cbv iota.
    rewrite take_app.
    replace (String.length gs + 1) with (String.length (gs ++ "."))
      by (rewrite length_app_str; reflexivity).
    replace (gs ++ String "." (nm ++ params_str ps ++ String ":" val))%string
      with ((gs ++ ".") ++ (nm ++ params_str ps ++ String ":" val))%string
      by (rewrite app_assoc_str; reflexivity).
    rewrite drop_app.
    rewrite (re_match_name_app nm _ Hn (ends_value_name _ Hend)). cbn [bind].
    apply (fromstr_tail (Some gs) nm ps val Hn Hu Hp). reflexivity.
  - cbn [append].
    rewrite (re_match_name_app nm _ Hn (ends_value_name _ Hend)).
    unfold index. rewrite Er, get_app, <- Er. cbn [bind]. rewrite Hc. cbn [bind].
    apply (fromstr_tail None nm ps val Hn Hu Hp). reflexivity.
Qed.

Lemma fromstr_Prop_str_witness :
  fromstr (Prop_str (mkProp (Some "item1") "TEL"
                            [mkParam "TYPE" "home"; mkParam "X-A" (quoted "a;b")]
                            "+1:555"))
  = Ok (mkProp (Some "item1") "TEL"
               [mkParam "TYPE" "home"; mkParam "X-A" (quoted "a;b")] "+1:555").
Proof. apply fromstr_Prop_str. vm_compute. reflexivity. Defined.

(** ** The lines of a record *)

Lemma unfold_lines_other c s :
  Ascii.eqb c CR = false -> unfold_lines (String c s) = String c (unfold_lines s).
Proof.
  intros Hc. destruct s as [|c2 [|c3 s3]]; cbn [unfold_lines]; try reflexivity.
  rewrite Hc. reflexivity.
Qed.

Lemma no_line_break_cons c s :
  no_line_break (String c s) = true ->
  Ascii.eqb c CR = false /\ Ascii.eqb c LF = false /\ no_line_break s = true.
Proof.
  unfold no_line_break. cbn [all_chars]. intros H.
  apply andb_true_iff in H as [Hc H]. apply negb_true_iff, orb_false_iff in Hc.
  tauto.
Qed.

Lemma unfold_lines_line l rest :
  no_line_break l = true -> starts_outside is_fold_space rest ->
  unfold_lines (l ++ crlf ++ rest)%string = (l ++ crlf ++ unfold_lines rest)%string.
Proof.
  intros Hl Hr. induction l as [|c l IH].
  - cbn [append crlf]. destruct rest as [|c3 s3].
    + reflexivity.
    + cbn [unfold_lines]. simpl in Hr. unfold is_fold_space in Hr.
      rewrite Hr. cbn [andb].
      change (String CR (unfold_lines (String LF (String c3 s3)))
              = String CR (String LF (unfold_lines (String c3 s3)))).
      f_equal. apply unfold_lines_other. reflexivity.
  - apply no_line_break_cons in Hl as (Hc & _ & Hl). cbn [append].
    rewrite unfold_lines_other by exact Hc. f_equal. apply IH, Hl.
Qed.

Lemma unfold_lines_plain t :
  no_line_break t = true -> unfold_lines t = t.
Proof.
  induction t as [|c t IH]; [reflexivity|]. intros H.
  apply no_line_break_cons in H as (Hc & _ & Ht).
  rewrite unfold_lines_other by exact Hc. f_equal. auto.
Qed.

Lemma is_line_inv l :
  is_line l = true -> no_line_break l = true /\ starts_outside is_fold_space l.
Proof.
  unfold is_line. intros H. apply andb_true_iff in H as [H1 H2]. split; [exact H1|].
  destruct l; simpl; [exact I|]. apply negb_true_iff, H2.
Qed.

Lemma lines_text_head lines t :
  Forall (fun l => is_line l = true) lines -> is_line t = true ->
  starts_outside is_fold_space (lines_text lines ++ t)%string.
Proof.
  intros Hl Ht. destruct Hl as [|l ls Hl _].
  - apply is_line_inv, Ht.
  - cbn [lines_text]. apply is_line_inv in Hl as [_ Hl].
    destruct l; [reflexivity|exact Hl].
Qed.

Lemma unfold_lines_text lines t :
  Forall (fun l => is_line l = true) lines -> is_line t = true ->
  unfold_lines (lines_text lines ++ t)%string = (lines_text lines ++ t)%string.
Proof.
  intros Hl Ht. induction Hl as [|l ls Hl Hls IH].
  - apply unfold_lines_plain, is_line_inv, Ht.
  - cbn [lines_text]. rewrite !app_assoc_str.
    rewrite unfold_lines_line;
      [|apply is_line_inv, Hl|apply lines_text_head; assumption].
    rewrite IH. reflexivity.
Qed.

Lemma split_crlf_other c s :
  Ascii.eqb c CR = false ->
  split_crlf (String c s)
  = match split_crlf s with
    | [] => [String c EmptyString]
    | p :: ps => String c p :: ps
    end.
Proof.
  intros Hc. cbn [split_crlf]. destruct s as [|c2 s2]; [reflexivity|].
  rewrite Hc. reflexivity.
Qed.

Lemma split_crlf_line l rest :
  no_line_break l = true ->
  split_crlf (l ++ crlf ++ rest)%string = l :: split_crlf rest.
Proof.
  intros Hl. induction l as [|c l IH].
  - reflexivity.
  - apply no_line_break_cons in Hl as (Hc & _ & Hl). cbn [append].
    rewrite split_crlf_other by exact Hc. rewrite (IH Hl). reflexivity.
Qed.

Lemma split_crlf_plain t : no_line_break t = true -> split_crlf t = [t].
Proof.
  induction t as [|c t IH]; [reflexivity|]. intros H.
  apply no_line_break_cons in H as (Hc & _ & Ht).
  rewrite split_crlf_other by exact Hc. rewrite (IH Ht). reflexivity.
Qed.

Lemma split_crlf_text lines t :
  Forall (fun l => is_line l = true) lines -> no_line_break t = true ->
  split_crlf (lines_text lines ++ t)%string = lines ++ [t].
Proof.
  intros Hl Ht. induction Hl as [|l ls Hl Hls IH].
  - apply split_crlf_plain, Ht.
  - cbn [lines_text]. rewrite !app_assoc_str.
    rewrite split_crlf_line by (apply is_line_inv, Hl). rewrite IH. reflexivity.
Qed.

Lemma drop_last_empty_snoc lines t :
  drop_last_empty (lines ++ [t])
  = match t with
    | EmptyString => lines
    | String _ _ => lines ++ [t]
    end.
Proof.
  unfold drop_last_empty. rewrite rev_app_distr. cbn [rev app].
  destruct t; [apply rev_involutive|reflexivity].
Qed.

(** Property X2.  [parse] reads a text line by line: a text of lines that
    each end in CR LF gives the properties of the lines, in their order,
    and the first exception of a line; a last line without CR LF is read
    like the others.  A line here has no CR and no LF inside and does not
    begin with a space or a tab. *)
Theorem parse_lines (lines : list string) :
  Forall (fun l => is_line l = true) lines ->
  parse (lines_text lines) = mapM fromstr lines
  /\ forall c t,
       is_line (String c t) = true ->
       parse (lines_text lines ++ String c t)%string
       = mapM fromstr (lines ++ [String c t]).
Proof.
  intros Hl. split.
  - unfold parse. rewrite <- (append_nil_r (lines_text lines)).
    rewrite unfold_lines_text, split_crlf_text, drop_last_empty_snoc;
      auto.
  - intros c t Ht. unfold parse.
    rewrite unfold_lines_text, split_crlf_text, drop_last_empty_snoc;
      auto.
    apply is_line_inv, Ht.
Qed.

Lemma parse_lines_witness :
  parse (lines_text ["BEGIN:VCARD"; "FN;X=1:a"; "END:VCARD"])
  = mapM fromstr ["BEGIN:VCARD"; "FN;X=1:a"; "END:VCARD"].
Proof.
  apply (proj1 (parse_lines ["BEGIN:VCARD"; "FN;X=1:a"; "END:VCARD"]
                  ltac:(repeat constructor))).
Defined.

(** ** Folded lines *)

Lemma ends_inside_line_tl c s :
  ends_inside_line (String c s) = true -> ends_inside_line s = true.
Proof. destruct s; [reflexivity|]. intros H. exact H. Qed.

Lemma unfold_lines_fold w b :
  is_fold_space w = true ->
  forall n a,
    String.length a <= n -> ends_inside_line a = true ->
    unfold_lines (a ++ String CR (String LF (String w b)))%string
    = unfold_lines (a ++ b)%string.
Proof.
  intros Hw. unfold is_fold_space in Hw.
  assert (H0 : unfold_lines (String CR (String LF (String w b))) = unfold_lines b).
  { cbn [unfold_lines]. rewrite Hw. reflexivity. }
  induction n as [|n IH]; intros a Hn Ha.
  { destruct a; [exact H0|simpl in Hn; lia]. }
  destruct a as [|c [|c2 [|c3 a3]]].
  - exact H0.
  - cbn [ends_inside_line] in Ha. apply negb_true_iff, orb_false_iff in Ha as [Hc _].
    cbn [append]. rewrite (unfold_lines_other c _ Hc), (unfold_lines_other c b Hc), H0.
    reflexivity.
  - cbn [ends_inside_line] in Ha.
    apply negb_true_iff, orb_false_iff in Ha as [Hc2r Hc2].
    assert (E1 : forall s, unfold_lines (String c (String c2 s))
                           = String c (unfold_lines (String c2 s))).
    { intros [|c3 s3]; cbn [unfold_lines]; [reflexivity|].
      rewrite Hc2, andb_false_r. reflexivity. }
    cbn [append]. rewrite !E1. f_equal.
    apply (IH (String c2 EmptyString)); [simpl in *; lia|].
    cbn [ends_inside_line]. rewrite Hc2r, Hc2. reflexivity.
  - pose proof (ends_inside_line_tl _ _ Ha) as Ha2.
    pose proof (ends_inside_line_tl _ _ Ha2) as Ha3.
    pose proof (ends_inside_line_tl _ _ Ha3) as Ha4.
    cbn [append unfold_lines].
    destruct (Ascii.eqb c CR && Ascii.eqb c2 LF
              && (Ascii.eqb c3 " " || Ascii.eqb c3 TAB)).
    + apply IH; [simpl in *; lia|exact Ha4].
    + f_equal. apply (IH (String c2 (String c3 a3))); [simpl in *; lia|exact Ha2].
Qed.

(** Property X3.  A folded line is read as the line: a CR LF with a space
    or a tab after it, put into a text after a character that is no CR
    and no LF, or at the head of the text, changes nothing of what
    [parse] gives. *)
Theorem parse_folded (a b : string) (w : ascii) :
  ends_inside_line a = true -> is_fold_space w = true ->
  parse (a ++ crlf ++ String w b)%string = parse (a ++ b)%string.
Proof.
  intros Ha Hw. unfold parse. cbn [crlf append].
  rewrite (unfold_lines_fold w b Hw (String.length a) a (le_n _) Ha).
  reflexivity.
Qed.

Lemma parse_folded_witness :
  parse ("FN:Jo" ++ crlf ++ String " " "hn")%string = parse ("FN:Jo" ++ "hn")%string.
Proof. apply parse_folded; reflexivity. Defined.

(** ** Escaped commas *)

Lemma escape_commas_head c s :
  exists c' s', escape_commas (String c s) = String c' s'
                /\ Ascii.eqb c' ","%char = false.
Proof.
  cbn [escape_commas]. destruct (Ascii.eqb c ","%char) eqn:E; eauto.
Qed.

(** Property X4.  [MaybeEscaped] accepts its value written with a
    backslash before every comma: the substitution of its [match] undoes
    that escaping, whatever the value holds. *)
Theorem MaybeEscaped_accepts_escaped (val : string) :
  unescape_commas (escape_commas val) = val
  /\ match_value (WValue (MaybeEscaped val)) (escape_commas val) = true.
Proof.
  assert (H : unescape_commas (escape_commas val) = val).
  { induction val as [|c s IH]; [reflexivity|].
    cbn [escape_commas]. destruct (Ascii.eqb c ","%char) eqn:E.
    - apply Ascii.eqb_eq in E. subst c. cbn [unescape_commas].
      change (Ascii.eqb bslash bslash && Ascii.eqb "," ",") with true. cbv iota.
      rewrite IH. reflexivity.
    - destruct s as [|c2 s2]; [reflexivity|].
      destruct (escape_commas_head c2 s2) as (c' & s' & Es & Hc').
      rewrite Es in *. cbn [unescape_commas]. rewrite Hc', andb_false_r.
      cbn [unescape_commas] in IH. rewrite IH. reflexivity. }
  split; [exact H|].
  cbn [match_value Value_match]. rewrite H, String.eqb_refl.
  destruct (String.eqb val (escape_commas val)); reflexivity.
Qed.

(** ** What [normalize_vcard] keeps and how it orders *)

Lemma canonical_map_fixed l : canonical l -> map sort_params l = l.
Proof.
  intros [_ Hp]. induction Hp as [|x l Hx Hl IH]; simpl; congruence.
Qed.

Lemma inner_wrap {A} (x y : A) l : inner (x :: l ++ [y]) = l.
Proof. unfold inner. cbn [tl]. apply removelast_last. Qed.

Lemma last_wrap {A} (x y d : A) l : last (x :: l ++ [y]) d = y.
Proof. rewrite app_comm_cons. apply last_last. Qed.

Lemma wrapped_has_wrapper first middle last_ :
  middle <> [] -> name first = "BEGIN" -> name last_ = "END" ->
  wrapped (first :: middle ++ [last_]) = true.
Proof.
  intros Hm Hb He. unfold wrapped.
  rewrite app_comm_cons, last_last, Hb, He.
  rewrite !String.eqb_refl, !andb_true_r. apply Nat.ltb_lt.
  cbn [List.length]. rewrite length_app. cbn [List.length].
  destruct middle; [congruence|simpl; lia].
Qed.

Lemma wrapped_decompose l :
  wrapped l = true ->
  exists first middle last_,
    l = first :: middle ++ [last_] /\ middle <> []
    /\ name first = "BEGIN" /\ name last_ = "END".
Proof.
  intros H. apply missing_begin_or_end_spec.
  apply wrapped_inv in H as (first & rest & -> & Hl & Hb & He).
  unfold missing_begin_or_end. rewrite Hb, He.
  rewrite !String.eqb_refl. cbn [negb orb]. rewrite orb_false_r.
  apply Nat.leb_gt. exact Hl.
Qed.

Lemma normalize_vcard_decomposed first middle last_ :
  middle <> [] -> name first = "BEGIN" -> name last_ = "END" ->
  normalize_vcard (first :: middle ++ [last_])
  = first :: sort_props middle ++ [last_].
Proof.
  intros Hm Hb He.
  rewrite normalize_vcard_wrapped by (apply wrapped_has_wrapper; assumption).
  rewrite inner_wrap, last_wrap. reflexivity.
Qed.

(** Property X5.  [normalize_vcard] loses and adds no property: up to the
    order of the parameters of each property, its result is a permutation
    of its input. *)
Theorem normalize_vcard_Permutation (vprops : list VProp) :
  Permutation (map sort_params vprops) (map sort_params (normalize_vcard vprops)).
Proof.
  destruct (wrapped vprops) eqn:Hw.
  - apply wrapped_decompose in Hw as (first & middle & last_ & -> & Hm & Hb & He).
    rewrite normalize_vcard_decomposed by assumption.
    cbn [map]. rewrite !map_app. apply perm_skip, Permutation_app_tail.
    rewrite (canonical_map_fixed _ (sort_props_canonical middle)).
    apply sort_props_Permutation.
  - rewrite normalize_vcard_unwrapped by exact Hw.
    rewrite (canonical_map_fixed _ (sort_props_canonical vprops)).
    apply sort_props_Permutation.
Qed.

(** Property X6.  [normalize_vcard] orders a record: with the wrapper,
    the first and the last property stay where and as they are, and the
    properties between them come out ordered by name, by value where the
    names agree, each with its parameters ordered in the same way;
    without the wrapper the whole record comes out so. *)
Theorem normalize_vcard_ordered (vprops : list VProp) :
  if wrapped vprops
  then exists first middle last_,
         vprops = first :: middle ++ [last_]
         /\ exists sorted,
              normalize_vcard vprops = first :: sorted ++ [last_]
              /\ canonical sorted
  else canonical (normalize_vcard vprops).
Proof.
  destruct (wrapped vprops) eqn:Hw.
  - apply wrapped_decompose in Hw as (first & middle & last_ & -> & Hm & Hb & He).
    exists first, middle, last_. split; [reflexivity|].
    exists (sort_props middle). split; [|apply sort_props_canonical].
    apply normalize_vcard_decomposed; assumption.
  - rewrite normalize_vcard_unwrapped by exact Hw. apply sort_props_canonical.
Qed.

(** ** Tables of candidates by name *)

Section Grouping.
Context {A : Type} (key : A -> string).

Let add (d : list (string * list A)) (x : A) := append_to (key x) x d.

Lemma lookup_append_to n k (x : A) d :
  lookup n (append_to k x d)
  = if String.eqb n k
    then Some (match lookup k d with
               | Some l => l ++ [x]
               | None => [x]
               end)
    else lookup n d.
Proof.
  unfold append_to. destruct (lookup k d); rewrite lookup_store; reflexivity.
Qed.

Lemma lookup_grouped xs :
  forall d n,
    lookup n (fold_left add xs d)
    = match lookup n d, with_key key n xs with
      | Some l, fl => Some (l ++ fl)
      | None, [] => None
      | None, fl => Some fl
      end.
Proof.
  induction xs as [|x xs IH]; intros d n; cbn [fold_left with_key filter].
  - destruct (lookup n d); [rewrite app_nil_r|]; reflexivity.
  - rewrite IH. unfold add. rewrite lookup_append_to.
    fold (with_key key n xs). rewrite (String.eqb_sym (key x) n).
    destruct (String.eqb n (key x)) eqn:E.
    + apply String.eqb_eq in E. subst n.
      destruct (lookup (key x) d); [rewrite <- app_assoc|]; reflexivity.
    + reflexivity.
Qed.

Lemma In_grouped xs :
  forall d k l x,
    In (k, l) (fold_left add xs d) -> In x l ->
    (In x xs /\ key x = k) \/ exists l0, In (k, l0) d /\ In x l0.
Proof.
  induction xs as [|y xs IH]; intros d k l x; cbn [fold_left].
  - eauto.
  - intros Hin Hx. destruct (IH _ _ _ _ Hin Hx) as [[H1 H2]|(l0 & H1 & H2)].
    + left. split; [right; exact H1|exact H2].
    + unfold add, append_to in H1.
      destruct (lookup (key y) d) as [l1|] eqn:El;
        apply In_store in H1 as [[= -> ->]|H1]; eauto.
      * apply in_app_iff in H2 as [H2|[<-|[]]].
        -- right. exists l1. split; [eapply lookup_In, El|exact H2].
        -- left. split; [left; reflexivity|reflexivity].
      * destruct H2 as [<-|[]]. left. split; [left; reflexivity|reflexivity].
Qed.

Lemma grouped_has xs x :
  In x xs ->
  exists l, lookup (key x) (fold_left add xs []) = Some l /\ In x l.
Proof.
  intros Hx. rewrite lookup_grouped. cbn [lookup].
  assert (Hf : In x (with_key key (key x) xs)).
  { apply filter_In. split; [exact Hx|apply String.eqb_refl]. }
  destruct (with_key key (key x) xs) as [|y fl]; [contradiction|]. eauto.
Qed.

Lemma with_key_nil n xs : with_key key n xs = [] <-> ~ In n (map key xs).
Proof.
  induction xs as [|x xs IH]; cbn [with_key filter map In]; [tauto|].
  fold (with_key key n xs).
  destruct (String.eqb (key x) n) eqn:E.
  - apply String.eqb_eq in E. split; [discriminate|]. intros H. exfalso. auto.
  - apply String.eqb_neq in E. rewrite IH. tauto.
Qed.
End Grouping.

(** ** The parameters of a candidate *)

(** ** The parameters of a candidate *)

Lemma scan_unit_spec {A} (f : A -> bool) l hit rest u :
  scan (fun x (_ : unit) => (f x, tt)) l tt = (Some (hit, rest), u) ->
  f hit = true /\ In hit l /\ forall x, In x rest -> In x l.
Proof.
  intros Hs.
  pose proof (scan_spec (fun x (_ : unit) => (f x, tt)) (fun _ => True)
                (fun _ _ _ => I) l tt I) as [_ H].
  rewrite Hs in H. cbn [fst snd] in H.
  destruct H as ((s & _ & Ht) & Hin & _ & Hrest).
  split; [congruence|]. split; assumption.
Qed.

Lemma params_table_initial all :
  params_table_ok all
    (fold_left (fun d pm => append_to (pm_name pm) pm d) all []).
Proof.
  intros k l pm Hin Hpm.
  destruct (In_grouped pm_name all [] k l pm Hin Hpm) as [[H1 H2]|(l0 & [] & _)].
  auto.
Qed.

Lemma params_table_step all d k l hit rest :
  params_table_ok all d -> In (k, l) d -> In hit l ->
  (forall x, In x rest -> In x l) ->
  pm_name hit = k
  /\ params_table_ok all (match rest with
                          | _ :: _ => store (pm_name hit) rest d
                          | [] => remove (pm_name hit) d
                          end).
Proof.
  intros Hok Hin Hhit Hrest. destruct (Hok k l hit Hin Hhit) as [Hk _].
  split; [exact Hk|]. intros k' l' pm Hin' Hpm.
  destruct rest as [|r rest].
  - apply In_remove in Hin'. eauto.
  - apply In_store in Hin' as [[= -> ->]|Hin']; [|eauto].
    rewrite Hk. eapply Hok; [exact Hin|]. apply Hrest, Hpm.
Qed.

(** Every parameter that the loop has passed, ALTID apart, has the name
    of a parameter pattern. *)
Lemma match_params_names all ps :
  forall d left_over,
    params_table_ok all d -> match_params ps d = Some left_over ->
    forall param, In param ps -> p_name param <> "ALTID" ->
                  In (p_name param) (map pm_name all).
Proof.
  induction ps as [|param0 ps IH]; intros d left_over Hok; cbn [match_params].
  - intros _ param [].
  - destruct (String.eqb (p_name param0) "ALTID") eqn:Ea.
    + apply String.eqb_eq in Ea. intros Hm param [<-|Hp] Hne; [congruence|].
      eapply IH; eassumption.
    + destruct (lookup (p_name param0) d) as [[|c cs]|] eqn:El; try discriminate.
      destruct (scan _ (c :: cs) tt) as [[[hit rest]|] u] eqn:Es; [|discriminate].
      apply scan_unit_spec in Es as (_ & Hhit & Hrest).
      destruct (params_table_step all d _ _ hit rest Hok (lookup_In _ _ _ El)
                  Hhit Hrest) as [Hk Hok'].
      intros Hm param [<-|Hp] Hne.
      * rewrite <- Hk. apply in_map. eapply Hok; [eapply lookup_In, El|exact Hhit].
      * eapply IH; eassumption.
Qed.

(** A parameter pattern stays in the table when no parameter that the
    loop looks at has its name. *)
Lemma match_params_keeps all ps pm :
  (forall param, In param ps -> p_name param = pm_name pm ->
                 p_name param = "ALTID") ->
  forall d left_over,
    params_table_ok all d -> match_params ps d = Some left_over ->
    (exists l, In (pm_name pm, l) d /\ In pm l) ->
    exists l, In (pm_name pm, l) left_over /\ In pm l.
Proof.
  induction ps as [|param0 ps IH]; intros Hps d left_over Hok; cbn [match_params].
  - intros [= <-] H. exact H.
  - assert (Hps' : forall param, In param ps -> p_name param = pm_name pm ->
                                 p_name param = "ALTID").
    { intros param Hp. apply Hps. right. exact Hp. }
    destruct (String.eqb (p_name param0) "ALTID") eqn:Ea.
    + apply IH; assumption.
    + apply String.eqb_neq in Ea.
      destruct (lookup (p_name param0) d) as [[|c cs]|] eqn:El; try discriminate.
      destruct (scan _ (c :: cs) tt) as [[[hit rest]|] u] eqn:Es; [|discriminate].
      apply scan_unit_spec in Es as (_ & Hhit & Hrest).
      destruct (params_table_step all d _ _ hit rest Hok (lookup_In _ _ _ El)
                  Hhit Hrest) as [Hk Hok'].
      intros Hm (l & Hl & Hpm). apply (IH Hps' _ _ Hok' Hm).
      exists l. split; [|exact Hpm].
      assert (Hne : pm_name pm <> pm_name hit).
      { rewrite Hk. intros E. apply Ea. apply Hps; [left; reflexivity|].
        symmetry. exact E. }
      destruct rest as [|r rest].
      * destruct (In_remove_cases (pm_name hit) _ _ Hl) as [H|[H _]];
          [exact H|]. simpl in H. congruence.
      * destruct (In_store_cases (pm_name hit) (r :: rest) _ _ Hl) as [H|[H _]];
          [exact H|]. simpl in H. congruence.
Qed.

(** Property X7.  A candidate rejects a property that carries a
    parameter, other than ALTID, whose name no parameter pattern of the
    candidate has; the binding tables are left as they were. *)
Theorem unknown_parameter_rejects
  (self : PropMatch) (prop : VProp) (t : Tables) (param : Param) :
  In param (params prop) -> p_name param <> "ALTID" ->
  ~ In (p_name param) (map pm_name (m_params self)) ->
  PropMatch_match self prop t = (false, t).
Proof.
  intros Hin Hne Hnot. unfold PropMatch_match. destruct t as [g a].
  destruct (negb (match_value (m_value self) (value prop))); [reflexivity|].
  destruct (match_params _ _) as [left_over|] eqn:Em; [|reflexivity].
  exfalso. apply Hnot.
  exact (match_params_names _ _ _ _ (params_table_initial _) Em param Hin Hne).
Qed.

Lemma unknown_parameter_rejects_witness :
  PropMatch_match
    (mkPropMatch "TEL" WAnyClass [mkParamMatch "TYPE" WAnyClass false] true None None)
    (mkProp None "TEL" [mkParam "PREF" "1"] "x") ([], [])
  = (false, ([], [])).
Proof.
  apply (unknown_parameter_rejects _ _ _ (mkParam "PREF" "1")).
  - left. reflexivity.
  - discriminate.
  - intros [H|[]]. discriminate H.
Defined.

(** Property X8.  A candidate rejects a property that lacks a mandatory
    parameter: when no parameter of the property has the name of a
    mandatory parameter pattern, or the name is ALTID, which the
    parameter loop passes over, the candidate does not match and the
    binding tables are left as they were. *)
Theorem missing_mandatory_parameter_rejects
  (self : PropMatch) (prop : VProp) (t : Tables) (pm : ParamMatch) :
  In pm (m_params self) -> pm_mandatory pm = true ->
  (forall param, In param (params prop) -> p_name param = pm_name pm ->
                 p_name param = "ALTID") ->
  PropMatch_match self prop t = (false, t).
Proof.
  intros Hin Hm Hps. unfold PropMatch_match. destruct t as [g a].
  destruct (negb (match_value (m_value self) (value prop))); [reflexivity|].
  destruct (match_params _ _) as [left_over|] eqn:Em; [|reflexivity].
  assert (H0 : exists l,
             In (pm_name pm, l)
                (fold_left (fun d pm => append_to (pm_name pm) pm d)
                           (m_params self) [])
             /\ In pm l).
  { destruct (grouped_has pm_name (m_params self) pm Hin) as (l & Hl & Hpm).
    exists l. split; [eapply lookup_In, Hl|exact Hpm]. }
  destruct (match_params_keeps _ _ pm Hps _ _ (params_table_initial _) Em H0)
    as (l & Hl & Hpm).
  assert (He : existsb (fun pms => existsb pm_mandatory pms) (values left_over)
               = true).
  { apply existsb_exists. exists l. split.
    - unfold values. apply in_map_iff. exists (pm_name pm, l). auto.
    - apply existsb_exists. exists pm. auto. }
  rewrite He. reflexivity.
Qed.

Lemma missing_mandatory_parameter_rejects_witness :
  PropMatch_match
    (mkPropMatch "TEL" WAnyClass [mkParamMatch "TYPE" WAnyClass true] true None None)
    (mkProp None "TEL" [mkParam "ALTID" "1"] "x") ([], [])
  = (false, ([], [])).
Proof.
  apply (missing_mandatory_parameter_rejects _ _ _ (mkParamMatch "TYPE" WAnyClass true)).
  - left. reflexivity.
  - reflexivity.
  - intros param [<-|[]] H. discriminate H.
Defined.

(** ** The group binding table *)

Lemma opt_str_eqb_eq a b : opt_str_eqb a b = true <-> a = b.
Proof.
  destruct a as [x|], b as [y|]; simpl; try (split; congruence).
  rewrite String.eqb_eq. split; congruence.
Qed.

(** What a successful group step leaves. *)
Lemma match_group_Some g pg t t' :
  match_group g pg t = Some t' ->
  (forall k v, lookup k t = Some v -> lookup k t' = Some v)
  /\ (one_to_one t -> one_to_one t')
  /\ (forall id, g = Some (GroupMatch id) -> lookup id t' = Some pg).
Proof.
  unfold match_group. destruct g as [[id|s]|].
  - destruct (lookup id t) as [bound|] eqn:Ek.
    + destruct (opt_str_eqb pg bound) eqn:E; cbn [negb]; [|discriminate].
      apply opt_str_eqb_eq in E. subst bound. intros [= <-].
      split; [auto|]. split; [auto|]. intros id0 [= <-]. exact Ek.
    + destruct (existsb (opt_str_eqb pg) (values t)) eqn:Em; [discriminate|].
      intros [= <-].
      assert (Hfresh : forall k', lookup k' t <> Some pg).
      { intros k' Hk'. apply lookup_In_values in Hk'.
        assert (existsb (opt_str_eqb pg) (values t) = true); [|congruence].
        apply existsb_exists. exists pg. split; [exact Hk'|].
        apply opt_str_eqb_eq. reflexivity. }
      split.
      { intros k0 v H. rewrite lookup_store.
        destruct (String.eqb k0 id) eqn:E; [|exact H].
        apply String.eqb_eq in E. subst. congruence. }
      split.
      { intros Hinj k1 k2 v. rewrite !lookup_store.
        destruct (String.eqb k1 id) eqn:E1; destruct (String.eqb k2 id) eqn:E2.
        - apply String.eqb_eq in E1, E2. congruence.
        - intros [= <-] H. exfalso. apply (Hfresh k2 H).
        - intros H [= <-]. exfalso. apply (Hfresh k1 H).
        - apply Hinj. }
      intros id0 [= <-]. rewrite lookup_store, String.eqb_refl. reflexivity.
  - destruct s as [|c s].
    + intros [= <-]. split; [auto|]. split; [auto|]. discriminate.
    + destruct (negb _); [discriminate|]. intros [= <-].
      split; [auto|]. split; [auto|]. discriminate.
  - intros [= <-]. split; [auto|]. split; [auto|]. discriminate.
Qed.

Lemma PropMatch_match_group (self : PropMatch) (prop : VProp) (t : Tables) :
  (forall k v, lookup k (fst t) = Some v ->
               lookup k (fst (snd (PropMatch_match self prop t))) = Some v)
  /\ (one_to_one (fst t) -> one_to_one (fst (snd (PropMatch_match self prop t))))
  /\ (fst (PropMatch_match self prop t) = false ->
      fst (snd (PropMatch_match self prop t)) = fst t)
  /\ (fst (PropMatch_match self prop t) = true ->
      forall id, m_group self = Some (GroupMatch id) ->
                 lookup id (fst (snd (PropMatch_match self prop t)))
                 = Some (group prop)).
Proof.
  unfold PropMatch_match. destruct t as [g a]. cbn [fst].
  destruct (negb (match_value (m_value self) (value prop)));
    [cbn [fst snd]; intuition discriminate|].
  destruct (match_params _ _) as [left_over|];
    [|cbn [fst snd]; intuition discriminate].
  destruct (existsb _ (values left_over));
    [cbn [fst snd]; intuition discriminate|].
  destruct (match_altid _ _ a) as [a'|];
    [|cbn [fst snd]; intuition discriminate].
  destruct (match_group (m_group self) (group prop) g) as [g'|] eqn:Eg;
    cbn [fst snd]; [|intuition discriminate].
  apply match_group_Some in Eg as (H1 & H2 & H3).
  split; [exact H1|]. split; [exact H2|]. split; [discriminate|].
  intros _. exact H3.
Qed.

Lemma match_prop_group st prop :
  one_to_one (fst (tables st)) -> one_to_one (fst (tables (match_prop st prop))).
Proof.
  intros H. unfold match_prop.
  destruct (lookup (name prop) (matches_by_name st)) as [matches|]; [|exact H].
  pose proof (scan_spec (fun pm t => PropMatch_match pm prop t)
                (fun t : Tables => one_to_one (fst t))
                (fun x s Hs => proj1 (proj2 (PropMatch_match_group x prop s)) Hs)
                matches (tables st) H) as [Ht _].
  destruct (scan _ matches (tables st)) as [[[pm rest]|] t']; exact Ht.
Qed.

(** Property X9.  The group table of [match_vcard] is bind-once and
    one-to-one.  The test of a candidate keeps every binding of a
    symbolic group id; a candidate that rejects leaves the group table as
    it was, and one that accepts through a [GroupMatch] leaves its id
    bound to the group of the property.  Whatever the properties and the
    patterns, no two symbolic ids are bound to one group at the end of
    the run. *)
Theorem group_table_bind_once_one_to_one :
  (forall self prop t,
      (forall k v, lookup k (fst t) = Some v ->
                   lookup k (fst (snd (PropMatch_match self prop t))) = Some v)
      /\ (fst (PropMatch_match self prop t) = false ->
          fst (snd (PropMatch_match self prop t)) = fst t)
      /\ (fst (PropMatch_match self prop t) = true ->
          forall id, m_group self = Some (GroupMatch id) ->
                     lookup id (fst (snd (PropMatch_match self prop t)))
                     = Some (group prop)))
  /\ (forall props want defaults,
        one_to_one (fst (tables (match_props props want defaults)))).
Proof.
  split.
  - intros self prop t.
    destruct (PropMatch_match_group self prop t) as (H1 & _ & H3 & H4). auto.
  - intros props want defaults.
    destruct (match_props_state props want defaults) as [_ ->].
    assert (H0 : one_to_one
                   (fst (tables (mkState (initial_matches want defaults)
                                         ([], []) [])))).
    { intros k1 k2 v H. discriminate H. }
    revert H0. generalize (mkState (initial_matches want defaults) ([], []) []).
    induction props as [|prop props IH]; intros st Hst; cbn [fold_left].
    + exact Hst.
    + apply IH, match_prop_group, Hst.
Qed.

(** ** The candidates of a run *)

Lemma fold_left_skip {A B} (f : B -> A -> B) (skip : A -> bool) l :
  forall d,
    fold_left (fun d x => if skip x then d else f d x) l d
    = fold_left f (filter (fun x => negb (skip x)) l) d.
Proof.
  induction l as [|x l IH]; intros d; cbn [fold_left filter]; [reflexivity|].
  destruct (skip x); cbn [negb fold_left]; apply IH.
Qed.

Lemma with_key_filter {A} (key : A -> string) (keep : A -> bool) n l :
  with_key key n (filter keep l)
  = filter keep (with_key key n l).
Proof.
  unfold with_key. induction l as [|x l IH]; cbn [filter]; [reflexivity|].
  destruct (keep x) eqn:Ek, (String.eqb (key x) n) eqn:En; cbn [filter];
    rewrite ?Ek, ?En, IH; reflexivity.
Qed.

Lemma filter_all {A} (keep : A -> bool) l :
  (forall x, In x l -> keep x = true) -> filter keep l = l.
Proof.
  induction l as [|x l IH]; intros H; cbn [filter]; [reflexivity|].
  rewrite (H x (or_introl eq_refl)), IH; [reflexivity|].
  intros y Hy. apply H. right. exact Hy.
Qed.

Lemma filter_none {A} (keep : A -> bool) l :
  (forall x, In x l -> keep x = false) -> filter keep l = [].
Proof.
  induction l as [|x l IH]; intros H; cbn [filter]; [reflexivity|].
  rewrite (H x (or_introl eq_refl)), IH; [reflexivity|].
  intros y Hy. apply H. right. exact Hy.
Qed.

Lemma with_key_In {A} (key : A -> string) n l x :
  In x (with_key key n l) <-> In x l /\ key x = n.
Proof. unfold with_key. rewrite filter_In, String.eqb_eq. reflexivity. Qed.

Lemma mem_str_false s l : mem_str s l = false <-> ~ In s l.
Proof.
  rewrite <- mem_str_In. destruct (mem_str s l); split; congruence.
Qed.

Lemma initial_matches_lookup
  (want_matches default_matches : list PropMatch) (n : string) :
  lookup n (initial_matches want_matches default_matches)
  = match (if mem_str n (map m_name want_matches)
           then with_key m_name n want_matches
           else with_key m_name n default_matches) with
    | [] => None
    | candidates => Some candidates
    end.
Proof.
  unfold initial_matches.
  rewrite (fold_left_skip (fun d pm => append_to (m_name pm) pm d)
             (fun pm => mem_str (m_name pm) (map m_name want_matches))).
  rewrite !lookup_grouped. cbn [lookup]. rewrite with_key_filter.
  destruct (mem_str n (map m_name want_matches)) eqn:Em.
  - assert (Hne : with_key m_name n want_matches <> []).
    { intros H. apply with_key_nil in H. apply mem_str_In in Em. auto. }
    rewrite filter_none.
    + destruct (with_key m_name n want_matches); [congruence|].
      rewrite app_nil_r. reflexivity.
    + intros x Hx. apply with_key_In in Hx as [_ ->]. rewrite Em. reflexivity.
  - apply mem_str_false in Em. apply with_key_nil in Em. rewrite Em.
    rewrite filter_all; [reflexivity|].
    intros x Hx. apply with_key_In in Hx as [_ ->].
    apply with_key_nil, mem_str_false in Em. rewrite Em. reflexivity.
Qed.

(** Property X10.  The patterns of the caller replace the default
    patterns of the same name: the candidates that [match_vcard] starts
    with under a name are the wanted patterns of that name, in their
    order, when there is one, and the default patterns of that name
    otherwise; a name without pattern has no entry. *)
Theorem initial_matches_candidates
  (want_matches default_matches : list PropMatch) (n : string) :
  (In n (map m_name want_matches) ->
   lookup n (initial_matches want_matches default_matches)
   = Some (with_key m_name n want_matches))
  /\ (~ In n (map m_name want_matches) ->
      In n (map m_name default_matches) ->
      lookup n (initial_matches want_matches default_matches)
      = Some (with_key m_name n default_matches))
  /\ (~ In n (map m_name want_matches) ->
      ~ In n (map m_name default_matches) ->
      lookup n (initial_matches want_matches default_matches) = None).
Proof.
  rewrite initial_matches_lookup.
  assert (Hsome : forall l : list PropMatch,
             In n (map m_name l) ->
             match with_key m_name n l with
             | [] => None
             | candidates => Some candidates
             end = Some (with_key m_name n l)).
  { intros l Hl. destruct (with_key m_name n l) eqn:E; [|reflexivity].
    apply with_key_nil in E. contradiction. }
  split; [|split].
  - intros Hw. apply mem_str_In in Hw as Hm. rewrite Hm. apply Hsome, Hw.
  - intros Hw Hd. apply mem_str_false in Hw. rewrite Hw. apply Hsome, Hd.
  - intros Hw Hd. apply mem_str_false in Hw. rewrite Hw.
    apply with_key_nil in Hd. rewrite Hd. reflexivity.
Qed.

(** ** What a run reports *)

Lemma run_ok_initial want defaults :
  run_ok (fun _ => True) []
         (mkState (initial_matches want defaults) ([], []) []).
Proof.
  constructor; cbn [tables matches_by_name snd].
  - split; [intros ? ? ? H; discriminate H|auto].
  - apply initial_matches_ok.
  - intros pm [].
Qed.

Lemma match_prop_errors st prop e :
  In e (match_errors st) -> In e (match_errors (match_prop st prop)).
Proof.
  intros H. unfold match_prop.
  destruct (lookup (name prop) (matches_by_name st)) as [matches|].
  - destruct (scan _ matches (tables st)) as [[[pm rest]|] t];
      cbn [match_errors]; [exact H|]. apply in_app_iff. auto.
  - cbn [match_errors]. apply in_app_iff. auto.
Qed.

Lemma fold_match_prop_errors props :
  forall st e,
    In e (match_errors st) -> In e (match_errors (fold_left match_prop props st)).
Proof.
  induction props as [|prop props IH]; intros st e H; cbn [fold_left];
    [exact H|]. apply IH, match_prop_errors, H.
Qed.

(** The table after a property: only the entry under the name of the
    property changes. *)
Lemma match_prop_table st prop :
  well_keyed (matches_by_name st) ->
  (forall n, n <> name prop ->
             lookup n (matches_by_name (match_prop st prop))
             = lookup n (matches_by_name st))
  /\ (forall n l, n <> name prop -> In (n, l) (matches_by_name st) ->
                  In (n, l) (matches_by_name (match_prop st prop))).
Proof.
  intros Hk. unfold match_prop.
  destruct (lookup (name prop) (matches_by_name st)) as [matches|] eqn:El;
    [|cbn [matches_by_name]; auto].
  pose proof (scan_spec (fun pm t => PropMatch_match pm prop t) (fun _ => True)
                (fun _ _ _ => I) matches (tables st) I) as [_ Hhit].
  destruct (scan _ matches (tables st)) as [[[pm rest]|] t];
    cbn [matches_by_name fst] in *; [|auto].
  destruct Hhit as (_ & Hin & _).
  assert (Hname : m_name pm = name prop).
  { eapply Hk; [eapply lookup_In, El|exact Hin]. }
  rewrite Hname. split.
  - intros n Hn. destruct rest.
    + apply lookup_remove_other, Hn.
    + rewrite lookup_store. apply String.eqb_neq in Hn. rewrite Hn. reflexivity.
  - intros n l Hn Hl. destruct rest as [|r rest].
    + destruct (In_remove_cases (name prop) _ _ Hl) as [H|[H _]]; [exact H|].
      simpl in H. congruence.
    + destruct (In_store_cases (name prop) (r :: rest) _ _ Hl) as [H|[H _]];
        [exact H|]. simpl in H. congruence.
Qed.

Lemma fold_match_prop_unexpected props prop :
  In prop props ->
  forall st,
    run_ok (fun _ => True) [] st ->
    lookup (name prop) (matches_by_name st) = None ->
    In (unexpected prop) (match_errors (fold_left match_prop props st)).
Proof.
  induction props as [|p props IH]; intros Hin st Hok Hnone; [contradiction|].
  cbn [fold_left]. destruct Hin as [->|Hin].
  - apply fold_match_prop_errors. unfold match_prop. rewrite Hnone.
    cbn [match_errors]. apply in_app_iff. right. left. reflexivity.
  - apply IH; [exact Hin| |].
    + apply match_prop_ok; [auto|exact Hok].
    + destruct (String.eqb (name prop) (name p)) eqn:E.
      * apply String.eqb_eq in E. unfold match_prop. rewrite <- E, Hnone.
        exact Hnone.
      * apply String.eqb_neq in E.
        rewrite (proj1 (match_prop_table st p (ok_keyed _ _ _ Hok)) _ E).
        exact Hnone.
Qed.

Lemma match_props_errors_incl props want defaults e :
  In e (match_errors (fold_left match_prop props
          (mkState (initial_matches want defaults) ([], []) []))) ->
  In e (match_errors (match_props props want defaults)).
Proof.
  unfold match_props. destruct (flat_map _ _); cbn [match_errors]; [auto|].
  intros H. apply in_app_iff. auto.
Qed.

Lemma match_vcard_wrapped vcard props want defaults :
  parse vcard = Ok props -> missing_begin_or_end props = false ->
  exists first middle last_,
    props = first :: middle ++ [last_]
    /\ match_vcard vcard want defaults
       = match match_errors (match_props (sort_props middle) want defaults) with
         | [] => Returns
         | errs => RaisesVCardMatchError errs
         end.
Proof.
  intros Hp Hm. unfold match_vcard. rewrite Hp, Hm.
  apply missing_begin_or_end_spec in Hm
    as (first & middle & last_ & -> & Hne & Hb & He).
  exists first, middle, last_. split; [reflexivity|].
  rewrite normalize_vcard_decomposed by assumption.
  rewrite inner_wrap. reflexivity.
Qed.

(** Property X11.  A property without pattern fails the record: when a
    property between BEGIN and END has a name that no wanted and no
    default pattern has, [match_vcard] raises [VCardMatchError], and its
    errors hold the property, its parameters in order, as unexpected. *)
Theorem unexpected_property_raises
  (vcard : string) (props : list VProp) (want defaults : list PropMatch)
  (prop : VProp) :
  parse vcard = Ok props -> missing_begin_or_end props = false ->
  In prop (inner props) ->
  ~ In (name prop) (map m_name want) -> ~ In (name prop) (map m_name defaults) ->
  exists errs,
    match_vcard vcard want defaults = RaisesVCardMatchError errs
    /\ In (unexpected (sort_params prop)) errs.
Proof.
  intros Hp Hm Hin Hw Hd.
  destruct (match_vcard_wrapped vcard props want defaults Hp Hm)
    as (first & middle & last_ & -> & ->).
  rewrite inner_wrap in Hin.
  assert (He : In (unexpected (sort_params prop))
                  (match_errors (match_props (sort_props middle) want defaults))).
  { apply match_props_errors_incl, fold_match_prop_unexpected.
    - eapply Permutation_in; [apply sort_props_Permutation|].
      apply in_map, Hin.
    - apply run_ok_initial.
    - cbn [matches_by_name]. change (name (sort_params prop)) with (name prop).
      rewrite initial_matches_lookup.
      apply mem_str_false in Hw. rewrite Hw.
      apply with_key_nil in Hd. rewrite Hd. reflexivity. }
  destruct (match_errors _) as [|e errs]; [contradiction|]. eauto.
Qed.

Lemma unexpected_property_raises_witness :
  exists errs,
    match_vcard (vcard_of ["X-FOO;B=2;A=1:bar"]) [] default_matches
    = RaisesVCardMatchError errs
    /\ In (unexpected (sort_params
                         (mkProp None "X-FOO" [mkParam "B" "2"; mkParam "A" "1"] "bar")))
          errs.
Proof.
  apply (unexpected_property_raises (vcard_of ["X-FOO;B=2;A=1:bar"])
           [mkProp None "BEGIN" [] "VCARD"; mkProp None "VERSION" [] "4.0";
            mkProp None "UID" [] "u"; mkProp None "FN" [] "n";
            mkProp None "X-FOO" [mkParam "B" "2"; mkParam "A" "1"] "bar";
            mkProp None "END" [] "VCARD"]).
  - vm_compute. reflexivity.
  - reflexivity.
  - simpl. auto.
  - simpl. tauto.
  - simpl. intuition discriminate.
Defined.

Lemma fold_match_prop_keeps props pm :
  (forall prop, In prop props -> name prop <> m_name pm) ->
  forall st,
    run_ok (fun _ => True) [] st ->
    (exists l, In (m_name pm, l) (matches_by_name st) /\ In pm l) ->
    exists l,
      In (m_name pm, l) (matches_by_name (fold_left match_prop props st))
      /\ In pm l.
Proof.
  induction props as [|p props IH]; intros Hn st Hok H; cbn [fold_left];
    [exact H|].
  apply IH.
  - intros prop Hp. apply Hn. right. exact Hp.
  - apply match_prop_ok; [auto|exact Hok].
  - destruct H as (l & Hl & Hpm). exists l. split; [|exact Hpm].
    apply (proj2 (match_prop_table st p (ok_keyed _ _ _ Hok))); [|exact Hl].
    intros E. apply (Hn p (or_introl eq_refl)). symmetry. exact E.
Qed.

Lemma initial_matches_has want defaults pm :
  In pm want \/ (In pm defaults /\ ~ In (m_name pm) (map m_name want)) ->
  exists l, In (m_name pm, l) (initial_matches want defaults) /\ In pm l.
Proof.
  intros H.
  assert (Hl : exists l, lookup (m_name pm) (initial_matches want defaults) = Some l
                         /\ In pm l).
  { rewrite initial_matches_lookup. destruct H as [Hw|[Hd Hn]].
    - assert (Hm : mem_str (m_name pm) (map m_name want) = true)
        by (apply mem_str_In, in_map, Hw).
      rewrite Hm.
      assert (Hin : In pm (with_key m_name (m_name pm) want))
        by (apply with_key_In; auto).
      destruct (with_key m_name (m_name pm) want); [contradiction|]. eauto.
    - apply mem_str_false in Hn. rewrite Hn.
      assert (Hin : In pm (with_key m_name (m_name pm) defaults))
        by (apply with_key_In; auto).
      destruct (with_key m_name (m_name pm) defaults); [contradiction|]. eauto. }
  destruct Hl as (l & Hl & Hpm). exists l. split; [eapply lookup_In, Hl|exact Hpm].
Qed.

(** Property X12.  A mandatory pattern without property fails the
    record: when no property between BEGIN and END has the name of a
    mandatory pattern, one that is wanted or a default one that no wanted
    pattern replaces, [match_vcard] raises [VCardMatchError], and the
    last of its errors lists the pattern as unmatched. *)
Theorem unmatched_mandatory_pattern_raises
  (vcard : string) (props : list VProp) (want defaults : list PropMatch)
  (pm : PropMatch) :
  parse vcard = Ok props -> missing_begin_or_end props = false ->
  In pm want \/ (In pm defaults /\ ~ In (m_name pm) (map m_name want)) ->
  m_mandatory pm = true ->
  (forall prop, In prop (inner props) -> name prop <> m_name pm) ->
  exists errs candidates,
    match_vcard vcard want defaults
    = RaisesVCardMatchError (errs ++ [unmatched candidates])
    /\ In pm candidates.
Proof.
  intros Hp Hm Hpm Hmand Hnames.
  destruct (match_vcard_wrapped vcard props want defaults Hp Hm)
    as (first & middle & last_ & -> & ->).
  rewrite inner_wrap in Hnames.
  assert (Hn : forall prop, In prop (sort_props middle) -> name prop <> m_name pm).
  { intros prop Hin. apply In_sort_props in Hin as (y & Hy & ->).
    apply (Hnames y Hy). }
  destruct (fold_match_prop_keeps (sort_props middle) pm Hn _
              (run_ok_initial want defaults) (initial_matches_has _ _ _ Hpm))
    as (l & Hl & Hin).
  unfold match_props.
  set (st := fold_left match_prop (sort_props middle) _) in *.
  assert (Hu : In pm (flat_map (fun matches => filter m_mandatory matches)
                               (values (matches_by_name st)))).
  { apply in_flat_map. exists l. split.
    - unfold values. apply in_map_iff. exists (m_name pm, l). auto.
    - apply filter_In. auto. }
  destruct (flat_map _ (values (matches_by_name st))) as [|u us];
    [contradiction|].
  cbn [match_errors]. exists (match_errors st), (u :: us). split; [|exact Hu].
  destruct (match_errors st); reflexivity.
Qed.

Lemma unmatched_mandatory_pattern_raises_witness :
  exists errs candidates,
    match_vcard (lines_text ["BEGIN:VCARD"; "VERSION:4.0"; "UID:u"; "END:VCARD"])
                [] default_matches
    = RaisesVCardMatchError (errs ++ [unmatched candidates])
    /\ In (mkPropMatch "FN" (WValue AnyValue)
             [mkParamMatch "DERIVED" (WValue (NoCaseValue "TRUE")) false]
             true None None)
          candidates.
Proof.
  apply (unmatched_mandatory_pattern_raises
           (lines_text ["BEGIN:VCARD"; "VERSION:4.0"; "UID:u"; "END:VCARD"])
           [mkProp None "BEGIN" [] "VCARD"; mkProp None "VERSION" [] "4.0";
            mkProp None "UID" [] "u"; mkProp None "END" [] "VCARD"]).
  - vm_compute. reflexivity.
  - reflexivity.
  - right. split; [simpl; tauto|]. simpl. tauto.
  - reflexivity.
  - simpl. intros prop [<-|[<-|[]]]; discriminate.
Defined.

(** ** Patterns without parameters *)

Lemma match_params_empty ps :
  match_params ps []
  = if forallb (fun param => String.eqb (p_name param) "ALTID") ps
    then Some [] else None.
Proof.
  induction ps as [|param ps IH]; cbn [match_params forallb]; [reflexivity|].
  destruct (String.eqb (p_name param) "ALTID"); [exact IH|reflexivity].
Qed.

(** Property X24.  A pattern with a name and a value only accepts the
    properties whose value matches and that carry no parameter but at
    most one ALTID: for a candidate without parameter patterns, ALTID
    reference and group, [PropMatch.match] is that test, and it leaves
    the binding tables as they are. *)
Theorem plain_pattern_match
  (n : string) (want : Want) (mandatory : bool) (prop : VProp) (t : Tables) :
  PropMatch_match (mkPropMatch n want [] mandatory None None) prop t
  = (match_value want (value prop)
     && forallb (fun param => String.eqb (p_name param) "ALTID") (params prop)
     && (List.length (params prop) <=? 1)%nat,
     t).
Proof.
  unfold PropMatch_match. destruct t as [g a]. cbn [m_value m_params m_alt_id m_group fold_left].
  destruct (match_value want (value prop)); cbn [negb andb]; [|reflexivity].
  rewrite match_params_empty.
  destruct (forallb _ (params prop)) eqn:Ea; cbn [andb]; [|reflexivity].
  cbn [values map existsb].
  assert (Hf : filter (fun param => String.eqb (p_name param) "ALTID") (params prop)
               = params prop).
  { rewrite forallb_forall in Ea. apply filter_all. exact Ea. }
  rewrite Hf. unfold match_altid, match_group.
  destruct (params prop) as [|p1 [|p2 ps]]; reflexivity.
Qed.

(** ** The paths of the differ *)

Lemma escape_seg_no_slash p : has_slash (escape_seg p) = false.
Proof.
  induction p as [|c p IH]; [reflexivity|]. cbn [escape_seg].
  destruct (Ascii.eqb c "~"%char) eqn:Et; [exact IH|].
  destruct (Ascii.eqb c "/"%char) eqn:Es; [exact IH|].
  cbn [has_slash]. rewrite Es. exact IH.
Qed.

Lemma unescape_seg_other c s :
  Ascii.eqb c "~"%char = false ->
  unescape_seg (String c s) = String c (unescape_seg s).
Proof.
  intros Hc. destruct s as [|c2 s2]; cbn [unescape_seg]; [reflexivity|].
  rewrite Hc. reflexivity.
Qed.

Lemma unescape_escape_seg p : unescape_seg (escape_seg p) = p.
Proof.
  induction p as [|c p IH]; [reflexivity|]. cbn [escape_seg].
  destruct (Ascii.eqb c "~"%char) eqn:Et.
  - apply Ascii.eqb_eq in Et. subst c. cbn [unescape_seg].
    change (Ascii.eqb "~" "~" && Ascii.eqb "0" "1") with false.
    change (Ascii.eqb "~" "~" && Ascii.eqb "0" "0") with true.
    cbv iota. rewrite IH. reflexivity.
  - destruct (Ascii.eqb c "/"%char) eqn:Es.
    + apply Ascii.eqb_eq in Es. subst c. cbn [unescape_seg].
      change (Ascii.eqb "~" "~" && Ascii.eqb "1" "1") with true.
      cbv iota. rewrite IH. reflexivity.
    + rewrite unescape_seg_other by exact Et. rewrite IH. reflexivity.
Qed.

Lemma split_char_piece x rest :
  has_slash x = false ->
  split_char "/"%char (x ++ String "/" rest) = x :: split_char "/"%char rest.
Proof.
  induction x as [|c x IH]; intros Hx.
  - reflexivity.
  - cbn [has_slash] in Hx. apply orb_false_iff in Hx as [Hc Hx].
    cbn [append split_char]. rewrite Hc, (IH Hx). reflexivity.
Qed.

Lemma split_char_of_join l :
  l <> [] -> Forall (fun p => has_slash p = false) l ->
  split_char "/"%char (join "/" l) = l.
Proof.
  intros Hne Hl. induction Hl as [|x l Hx Hl IH]; [congruence|].
  destruct l as [|y l].
  - apply split_char_whole, Hx.
  - change (join "/" (x :: y :: l)) with (x ++ String "/" (join "/" (y :: l)))%string.
    rewrite (split_char_piece _ _ Hx), IH; [reflexivity|discriminate].
Qed.

(** Property X13.  The paths that the differ writes can be read back,
    but for those under [localizations]: for segments of which the first
    is not [localizations], cutting [encode_path] at the slashes and
    undoing [~1] and [~0] gives the segments; a path under
    [localizations] is written as it is, so that a segment that holds a
    slash is written like two segments. *)
Theorem encode_path_decodes :
  (forall first rest,
      first <> "localizations" ->
      map unescape_seg (split_char "/"%char (encode_path (first :: rest)))
      = first :: rest)
  /\ (forall a b rest,
        encode_path ("localizations" :: (a ++ "/" ++ b)%string :: rest)
        = encode_path ("localizations" :: a :: b :: rest)).
Proof.
  split.
  - intros first rest Hne. unfold encode_path.
    apply String.eqb_neq in Hne. rewrite Hne.
    rewrite split_char_of_join.
    + rewrite map_map. rewrite <- (map_id (first :: rest)) at 2.
      apply map_ext. intros p. apply unescape_escape_seg.
    + discriminate.
    + apply Forall_map, Forall_forall. intros p _. apply escape_seg_no_slash.
  - intros a b rest. unfold encode_path. rewrite String.eqb_refl.
    change (join "/" ("localizations" :: (a ++ "/" ++ b)%string :: rest))
      with ("localizations" ++ String "/" (join "/" ((a ++ "/" ++ b)%string :: rest)))%string.
    change (join "/" ("localizations" :: a :: b :: rest))
      with ("localizations" ++ String "/" (a ++ String "/" (join "/" (b :: rest))))%string.
    f_equal. f_equal. destruct rest as [|r rest].
    + reflexivity.
    + change (join "/" ((a ++ "/" ++ b)%string :: r :: rest))
        with ((a ++ "/" ++ b) ++ String "/" (join "/" (r :: rest)))%string.
      change (join "/" (b :: r :: rest))
        with (b ++ String "/" (join "/" (r :: rest)))%string.
      rewrite !app_assoc_str. reflexivity.
Qed.

(** ** The differ and Python's equality *)

Lemma py_eq_list la lb :
  py_eq (JList la) (JList lb) = true
  <-> Forall2 (fun x y => py_eq x y = true) la lb.
Proof.
  cbn [py_eq]. revert lb. induction la as [|x la IH]; intros [|y lb].
  - split; [constructor|reflexivity].
  - split; [discriminate|]. intros H. inversion H.
  - split; [discriminate|]. intros H. inversion H.
  - rewrite andb_true_iff, IH. split.
    + intros [H1 H2]. constructor; assumption.
    + intros H. inversion H; subst. auto.
Qed.

Lemma py_eq_obj da db :
  py_eq (JObj da) (JObj db) = true
  <-> List.length da = List.length db
      /\ Forall (fun kv => exists v', lookup (fst kv) db = Some v'
                                      /\ py_eq (snd kv) v' = true) da.
Proof.
  cbn [py_eq]. rewrite andb_true_iff, Nat.eqb_eq.
  apply and_iff_compat_l.
  induction da as [|[k v] da IH].
  - split; [constructor|reflexivity].
  - destruct (lookup k db) as [v'|] eqn:El.
    + rewrite andb_true_iff, IH. split.
      * intros [H1 H2]. constructor; [|exact H2]. exists v'. auto.
      * intros H. inversion H as [|? ? (v2 & Hl & Hp) Hr]; subst.
        cbn [fst snd] in *. rewrite El in Hl. injection Hl as <-. auto.
    + split; [discriminate|]. intros H.
      inversion H as [|? ? (v2 & Hl & Hp) Hr]; subst.
      cbn [fst] in Hl. congruence.
Qed.

Lemma missing_diffs_nil db segs d :
  missing_diffs db segs d = []
  <-> Forall (fun kv => lookup (fst kv) db <> None) d.
Proof.
  induction d as [|[k v] d IH]; cbn [missing_diffs].
  - split; [constructor|reflexivity].
  - destruct (lookup k db) eqn:El.
    + rewrite IH. split.
      * intros H. constructor; [cbn [fst]; congruence|exact H].
      * intros H. inversion H. assumption.
    + split; [discriminate|]. intros H. inversion H; subst.
      cbn [fst] in *. congruence.
Qed.

Lemma unexpected_diffs_nil da segs db :
  unexpected_diffs da segs db = []
  <-> Forall (fun kv => lookup (fst kv) da <> None) db.
Proof.
  unfold unexpected_diffs. induction db as [|[k v] db IH]; cbn [flat_map].
  - split; [constructor|reflexivity].
  - cbn [fst snd]. destruct (lookup k da) eqn:El; cbn [app].
    + rewrite IH. split.
      * intros H. constructor; [cbn [fst]; congruence|exact H].
      * intros H. inversion H. assumption.
    + split; [discriminate|]. intros H. inversion H; subst.
      cbn [fst] in *. congruence.
Qed.

Lemma shared_diffs_nil db segs d :
  shared_diffs db segs d = []
  <-> Forall (fun kv => forall v', lookup (fst kv) db = Some v' ->
                                   diff_pair (snd kv) v' (segs ++ [fst kv]) = []) d.
Proof.
  induction d as [|[k v] d IH]; cbn [shared_diffs].
  - split; [constructor|reflexivity].
  - destruct (lookup k db) as [v'|] eqn:El.
    + split.
      * intros H. apply app_eq_nil in H as [H1 H2]. constructor.
        -- cbn [fst snd]. intros v2 Hv2. rewrite El in Hv2. injection Hv2 as <-.
           exact H1.
        -- apply IH, H2.
      * intros H. inversion H as [|? ? H1 H2]; subst. cbn [fst snd] in H1.
        rewrite (H1 v' El). apply IH, H2.
    + rewrite IH. split.
      * intros H. constructor; [|exact H]. cbn [fst]. intros v' Hv'. congruence.
      * intros H. inversion H. assumption.
Qed.

Lemma keys_incl_of_lookup {V W} (d : list (string * V)) (d' : list (string * W)) :
  Forall (fun kv => lookup (fst kv) d' <> None) d -> incl (keys d) (keys d').
Proof.
  rewrite Forall_forall. intros H k Hk. unfold keys in Hk.
  apply in_map_iff in Hk as (kv & <- & Hin).
  specialize (H kv Hin).
  destruct (lookup (fst kv) d') eqn:El; [|congruence].
  apply lookup_In in El. unfold keys. apply in_map_iff. exists (fst kv, w). auto.
Qed.

Lemma lookup_of_keys_incl {V W} (d : list (string * V)) (d' : list (string * W)) :
  incl (keys d) (keys d') -> Forall (fun kv => lookup (fst kv) d' <> None) d.
Proof.
  intros H. apply Forall_forall. intros kv Hin.
  intros Hn. apply lookup_None_keys in Hn. apply Hn, H.
  unfold keys. apply in_map_iff. exists kv. auto.
Qed.

Lemma fallback_nil (c : bool) (x : JSPropDiff) :
  (if negb c then [x] else []) = [] <-> c = true.
Proof. destruct c; cbn [negb]; split; congruence. Qed.

(** Property X14.  The differ agrees with Python's equality: on values
    whose maps have no key twice, [diff_objs], [diff_list] and the choice
    they make for a pair of values report nothing exactly when the two
    values are equal for [==], which takes [True] for [1], lists by
    position and maps by key. *)
Theorem diff_empty_iff_equal (a : json) :
  forall (b : json) (segs : list string),
    wf a -> wf b -> (diff_pair a b segs = [] <-> py_eq a b = true).
Proof.
  induction a as [|bo|z|s|la IH|da IH] using json_induction; intros b segs Ha Hb.
  - destruct b; apply fallback_nil.
  - destruct b; apply fallback_nil.
  - destruct b; apply fallback_nil.
  - destruct b; apply fallback_nil.
  - destruct b as [| | | |lb|]; try apply fallback_nil.
    rewrite py_eq_list. cbn [diff_pair].
    apply wf_list_inv in Ha, Hb.
    destruct (List.length la =? List.length lb)%nat eqn:El; cbn [negb].
    + apply Nat.eqb_eq in El. generalize 0 as i. revert lb Hb El.
      induction la as [|x la IHla]; intros [|y lb] Hb El i.
      * split; [constructor|intros _; reflexivity].
      * split; [intros _|intros H; inversion H].
        exfalso. cbn [List.length] in El. discriminate.
      * split; [intros _|intros H; inversion H].
        exfalso. cbn [List.length] in El. discriminate.
      * inversion IH as [|? ? IHx IHr]; subst.
        inversion Ha as [|? ? Hx Hr]; subst.
        inversion Hb as [|? ? Hy Hs]; subst.
        cbn [List.length] in El. injection El as El.
        specialize (IHla IHr Hr lb Hs El (S i)).
        split.
        -- intros H. apply app_eq_nil in H as [H1 H2]. constructor.
           ++ apply (IHx y (segs ++ [str_of_nat i]) Hx Hy), H1.
           ++ apply IHla, H2.
        -- intros H. inversion H as [|? ? ? ? H1 H2]; subst.
           apply (IHx y (segs ++ [str_of_nat i]) Hx Hy) in H1.
           apply IHla in H2. rewrite H1, H2. reflexivity.
    + apply Nat.eqb_neq in El. split; [discriminate|].
      intros H. apply Forall2_length in H. contradiction.
  - destruct b as [| | | | |db]; try apply fallback_nil.
    change (diff_pair (JObj da) (JObj db) segs) with (diff_objs da db segs).
    rewrite diff_objs_loops, py_eq_obj.
    apply wf_obj_inv in Ha as [Hnda Hwa], Hb as [Hndb Hwb].
    assert (Hshared :
              Forall (fun kv => lookup (fst kv) db <> None) da ->
              (shared_diffs db segs da = []
               <-> Forall (fun kv => exists v', lookup (fst kv) db = Some v'
                                                /\ py_eq (snd kv) v' = true) da)).
    { intros Hm. rewrite shared_diffs_nil. rewrite !Forall_forall in *.
      split.
      - intros H kv Hin. specialize (Hm kv Hin).
        destruct (lookup (fst kv) db) as [v'|] eqn:El; [|congruence].
        exists v'. split; [reflexivity|].
        apply (IH kv Hin v' (segs ++ [fst kv]) (Hwa kv Hin)).
        + apply (Hwb (fst kv, v')). eapply lookup_In, El.
        + apply (H kv Hin), El.
      - intros H kv Hin v' El. destruct (H kv Hin) as (v2 & Hl & Hp).
        rewrite El in Hl. injection Hl as <-.
        apply (IH kv Hin v' (segs ++ [fst kv]) (Hwa kv Hin)); [|exact Hp].
        apply (Hwb (fst kv, v')). eapply lookup_In, El. }
    split.
    + intros H. apply app_eq_nil in H as [H1 H]. apply app_eq_nil in H as [H2 H3].
      apply missing_diffs_nil in H1. apply unexpected_diffs_nil in H2.
      split; [|apply Hshared; assumption].
      apply keys_incl_of_lookup in H1 as Hi1. apply keys_incl_of_lookup in H2 as Hi2.
      pose proof (NoDup_incl_length Hnda Hi1) as L1.
      pose proof (NoDup_incl_length Hndb Hi2) as L2.
      unfold keys in L1, L2. rewrite !length_map in L1, L2. lia.
    + intros [Hlen Hall].
      assert (Hm : Forall (fun kv => lookup (fst kv) db <> None) da).
      { eapply Forall_impl; [|exact Hall]. intros kv (v' & Hl & _). congruence. }
      rewrite (proj2 (missing_diffs_nil db segs da) Hm).
      rewrite (proj2 (Hshared Hm) Hall), app_nil_r. cbn [app].
      apply unexpected_diffs_nil, lookup_of_keys_incl.
      apply NoDup_length_incl; [exact Hnda| |apply keys_incl_of_lookup, Hm].
      unfold keys. rewrite !length_map. lia.
Qed.

Lemma diff_empty_iff_equal_witness :
  diff_pair (JObj [("a", JBool true); ("l", JList [JInt 2])])
            (JObj [("l", JList [JInt 2]); ("a", JInt 1)]) [] = []
  <-> py_eq (JObj [("a", JBool true); ("l", JList [JInt 2])])
            (JObj [("l", JList [JInt 2]); ("a", JInt 1)]) = true.
Proof.
  apply diff_empty_iff_equal.
  - constructor.
    + repeat constructor; simpl; intuition discriminate.
    + repeat constructor.
  - constructor.
    + repeat constructor; simpl; intuition discriminate.
    + repeat constructor.
Defined.

(** ** What a patch entry does to the card *)

Lemma nth_error_list_set_same {A} (l : list A) n x y :
  nth_error l n = Some y -> nth_error (list_set l n x) n = Some x.
Proof.
  revert n. induction l as [|z l IH]; intros [|n]; simpl; try discriminate.
  - reflexivity.
  - apply IH.
Qed.

Lemma nth_error_list_set_other {A} (l : list A) n m x :
  m <> n -> nth_error (list_set l n x) m = nth_error l m.
Proof.
  revert n m. induction l as [|z l IH]; intros [|n] [|m] H; simpl;
    try reflexivity; try congruence.
  apply IH. congruence.
Qed.

Lemma list_set_same {A} (l : list A) n y :
  nth_error l n = Some y -> list_set l n y = l.
Proof.
  revert n. induction l as [|z l IH]; intros [|n]; simpl; try discriminate.
  - intros [= ->]. reflexivity.
  - intros H. rewrite (IH n H). reflexivity.
Qed.

(** Property X15.  A patch entry adds or does nothing: when the descent
    of [apply_patchobject] for an entry ends without exception, either
    the last segment was missing in the map the descent had reached, and
    the value of the entry is read in the card at the place the path
    names, or the whole path was there already and the card is as it
    was. *)
Theorem descend_adds_or_keeps (path : list string) (val : json) :
  forall jsobj jsobj',
    descend jsobj path val = Ok jsobj' ->
    match inserted_at jsobj path with
    | Some loc => read jsobj' loc = Some val
    | None => jsobj' = jsobj
    end.
Proof.
  induction path as [|seg rest IH]; intros x x'; cbn [descend inserted_at].
  - intros [= <-]. reflexivity.
  - destruct x as [| | | |l|d]; try discriminate.
    + destruct (py_int seg) as [i|]; [|discriminate].
      destruct (list_pos l i) as [n|]; [|discriminate].
      destruct (nth_error l n) as [sub|] eqn:En; [|discriminate].
      destruct (descend sub rest val) as [sub'|e] eqn:Ed; cbn [bind];
        [|discriminate].
      intros [= <-]. specialize (IH _ _ Ed).
      destruct (inserted_at sub rest) as [loc|]; cbn [option_map read].
      * rewrite (nth_error_list_set_same _ _ _ _ En). exact IH.
      * subst sub'. rewrite (list_set_same _ _ _ En). reflexivity.
    + destruct (lookup seg d) as [sub|] eqn:El.
      * destruct (descend sub rest val) as [sub'|e] eqn:Ed; cbn [bind];
          [|discriminate].
        intros [= <-]. specialize (IH _ _ Ed).
        destruct (inserted_at sub rest) as [loc|]; cbn [option_map read].
        -- rewrite lookup_store, String.eqb_refl. exact IH.
        -- subst sub'. rewrite (store_same _ _ _ El). reflexivity.
      * destruct rest; [|discriminate]. intros [= <-]. cbn [read].
        rewrite lookup_store, String.eqb_refl. reflexivity.
Qed.

Lemma descend_adds_or_keeps_witness :
  match inserted_at (JObj [("name", JObj [("full", JStr "A")])]) ["name"; "given"] with
  | Some loc =>
      read (JObj [("name", JObj [("full", JStr "A"); ("given", JStr "B")])]) loc
      = Some (JStr "B")
  | None =>
      JObj [("name", JObj [("full", JStr "A"); ("given", JStr "B")])]
      = JObj [("name", JObj [("full", JStr "A")])]
  end.
Proof.
  apply (descend_adds_or_keeps ["name"; "given"] (JStr "B")). reflexivity.
Defined.

Lemma descend_keeps_places (path : list string) (val : json) :
  forall jsobj jsobj' loc v,
    descend jsobj path val = Ok jsobj' ->
    read jsobj loc = Some v ->
    exists v', read jsobj' loc = Some v' /\ (is_scalar v -> v' = v).
Proof.
  induction path as [|seg rest IH]; intros x x' loc v; cbn [descend].
  - intros [= <-] H. eauto.
  - destruct x as [| | | |l|d]; try discriminate.
    + destruct (py_int seg) as [i|]; [|discriminate].
      destruct (list_pos l i) as [n|]; [|discriminate].
      destruct (nth_error l n) as [sub|] eqn:En; [|discriminate].
      destruct (descend sub rest val) as [sub'|e] eqn:Ed; cbn [bind];
        [|discriminate].
      intros [= <-]. destruct loc as [|[k|m] loc]; cbn [read].
      * intros [= <-]. eexists. split; [reflexivity|]. intros [].
      * discriminate.
      * destruct (Nat.eq_dec m n) as [->|Hne].
        -- rewrite En, (nth_error_list_set_same _ _ _ _ En). apply IH, Ed.
        -- rewrite (nth_error_list_set_other _ _ _ _ Hne).
           destruct (nth_error l m); [|discriminate]. eauto.
    + assert (Hstore : forall sub',
                (forall loc', match lookup seg d with
                              | Some sub => forall v0, read sub loc' = Some v0 ->
                                  exists v', read sub' loc' = Some v'
                                             /\ (is_scalar v0 -> v' = v0)
                              | None => True
                              end) ->
                read (JObj d) loc = Some v ->
                exists v', read (JObj (store seg sub' d)) loc = Some v'
                           /\ (is_scalar v -> v' = v)).
      { intros sub' Hsub. destruct loc as [|[k|m] loc]; cbn [read].
        - intros [= <-]. eexists. split; [reflexivity|]. intros [].
        - rewrite lookup_store. destruct (String.eqb k seg) eqn:E.
          + apply String.eqb_eq in E. subst k. specialize (Hsub loc).
            destruct (lookup seg d); [|discriminate]. apply Hsub.
          + destruct (lookup k d); [|discriminate]. eauto.
        - discriminate. }
      destruct (lookup seg d) as [sub|] eqn:El.
      * destruct (descend sub rest val) as [sub'|e] eqn:Ed; cbn [bind];
          [|discriminate].
        intros [= <-]. apply Hstore. intros loc' v0. apply IH, Ed.
      * destruct rest; [|discriminate]. intros [= <-]. apply Hstore. auto.
Qed.

(** Property X16.  A patch replaces and deletes nothing: whatever is
    read at a place of the card before [apply_patchobject] is read
    there after it, a number, string, boolean or null unchanged, a map
    or a list with what the patch has added to it. *)
Theorem apply_patchobject_keeps_places
  (jscard pobj patched : json) (loc : list step) (v : json) :
  apply_patchobject jscard pobj = Ok patched ->
  read jscard loc = Some v ->
  exists v', read patched loc = Some v' /\ (is_scalar v -> v' = v).
Proof.
  unfold apply_patchobject. destruct pobj as [| | | | |items]; try discriminate.
  revert jscard v. induction items as [|[key val] items IH]; intros jscard v.
  - intros [= <-] H. eauto.
  - rewrite apply_items_cons.
    destruct (descend jscard (split_char "/"%char key) val) as [j1|e] eqn:Ed;
      cbn [bind]; [|discriminate].
    intros Ha Hr.
    destruct (descend_keeps_places _ _ _ _ _ _ Ed Hr) as (v1 & Hr1 & Hs1).
    destruct (IH _ _ Ha Hr1) as (v2 & Hr2 & Hs2).
    exists v2. split; [exact Hr2|]. intros Hs.
    specialize (Hs1 Hs). subst v1. apply Hs2, Hs.
Qed.

Lemma apply_patchobject_keeps_places_witness :
  exists v',
    read (JObj [("name", JObj [("full", JStr "A"); ("given", JStr "C")])])
         [Key "name"; Key "full"] = Some v'
    /\ (is_scalar (JStr "A") -> v' = JStr "A").
Proof.
  apply (apply_patchobject_keeps_places
           (JObj [("name", JObj [("full", JStr "A")])])
           (JObj [("name/full", JStr "B"); ("name/given", JStr "C")])).
  - reflexivity.
  - reflexivity.
Defined.

(** ** Unordered components *)

(** Property X17.  [sort_unordered_components] makes the order of
    unordered components canonical: with [isOrdered] truthy the map is
    left as it is; with [isOrdered] falsy or absent and a list under
    [components], the list is replaced by a permutation of itself that
    is in order by the JSON text of its elements, and nothing else
    changes. *)
Theorem sort_unordered_components_sorts :
  (forall d,
      truthy (isOrdered d) = true ->
      sort_unordered_components (JObj d) = Ok (JObj d))
  /\ (forall d l,
        truthy (isOrdered d) = false ->
        lookup "components" d = Some (JList l) ->
        exists l',
          sort_unordered_components (JObj d)
          = Ok (JObj (store "components" (JList l') d))
          /\ Permutation l l'
          /\ Sorted (fun a b => str_le (json_dumps a) (json_dumps b) = true) l').
Proof.
  split.
  - intros d H. unfold sort_unordered_components. fold (isOrdered d).
    rewrite H. reflexivity.
  - intros d l H Hc. unfold sort_unordered_components. fold (isOrdered d).
    rewrite H, Hc. destruct l as [|x l].
    + exists []. cbn [truthy negb]. split; [|split; constructor].
      rewrite (store_same _ _ _ Hc). reflexivity.
    + exists (sort_by_key json_dumps (x :: l)). cbn [truthy negb].
      split; [reflexivity|]. split.
      * apply sort_Permutation.
      * apply (sort_Sorted (fun a b => str_le (json_dumps a) (json_dumps b))).
        intros a b. apply str_le_total.
Qed.

(** ** Group parameters *)

Lemma mapM_on_value_lookup f d d' k v' :
  mapM (on_value f) d = Ok d' -> lookup k d' = Some v' ->
  exists v, lookup k d = Some v /\ f v = Ok v'.
Proof.
  intros H. apply mapM_Forall2 in H.
  induction H as [|[k1 v1] [k2 v2] d d' Hkv Hd IH]; cbn [lookup]; [discriminate|].
  apply on_value_Ok in Hkv as [Hk Hf]. cbn [fst snd] in *. subst k2.
  destruct (String.eqb k k1); [|exact IH].
  intros [= <-]. eauto.
Qed.

Lemma lookup_None_remove {V} k k' (d : list (string * V)) :
  lookup k d = None -> lookup k (remove k' d) = None.
Proof.
  rewrite !lookup_None_keys. intros H Hin. apply H.
  eapply keys_remove_incl, Hin.
Qed.

Lemma wf_lookup d k v : wf (JObj d) -> lookup k d = Some v -> wf v.
Proof.
  intros Hwf Hl. apply wf_obj_inv in Hwf as [_ Hv].
  rewrite Forall_forall in Hv. apply (Hv (k, v)). eapply lookup_In, Hl.
Qed.

Lemma NoDup_keys_store_any {V} k (v : V) d :
  NoDup (keys d) -> NoDup (keys (store k v d)).
Proof.
  induction d as [|[k0 v0] d IH]; cbn [store keys map].
  - intros _. constructor; [intros []|constructor].
  - intros H. inversion H as [|? ? Hn Hd]; subst.
    destruct (String.eqb k k0) eqn:E; cbn [map fst].
    + apply String.eqb_eq in E. subst k0. constructor; assumption.
    + constructor; [|apply IH, Hd]. intros Hin. apply Hn.
      unfold keys in Hin. apply in_map_iff in Hin as (kv & Hk & Hin).
      apply In_store in Hin as [->|Hin].
      * cbn [fst] in Hk. apply String.eqb_neq in E. congruence.
      * apply in_map_iff. exists kv. auto.
Qed.

Lemma wf_store d k v : wf (JObj d) -> wf v -> wf (JObj (store k v d)).
Proof.
  intros Hd Hv. apply wf_obj_inv in Hd as [Hnd Hall]. constructor.
  - apply NoDup_keys_store_any, Hnd.
  - rewrite Forall_forall in *. intros kv Hin.
    apply In_store in Hin as [->|Hin]; [exact Hv|apply Hall, Hin].
Qed.

Lemma wf_remove d k : wf (JObj d) -> wf (JObj (remove k d)).
Proof.
  intros Hd. apply wf_obj_inv in Hd as [Hnd Hall]. constructor.
  - apply NoDup_remove, Hnd.
  - rewrite Forall_forall in *. intros kv Hin. eapply Hall, In_remove, Hin.
Qed.

Lemma strip_group_wf d d1 :
  wf (JObj d) -> strip_group d = Ok d1 -> wf (JObj d1).
Proof.
  intros Hwf. unfold strip_group.
  destruct (lookup "vCardParams" d) as [[| | | | |p]|] eqn:El; try discriminate;
    [|intros [= <-]; exact Hwf].
  destruct (lookup "group" p); [|intros [= <-]; exact Hwf].
  pose proof (wf_remove p "group" (wf_lookup _ _ _ Hwf El)) as Hp.
  destruct (remove "group" p) as [|e p'].
  - intros [= <-]. apply wf_remove, Hwf.
  - intros [= <-]. apply wf_store; assumption.
Qed.

(** After the [try] block no [group] is left in the [vCardParams] of the
    map. *)
Lemma strip_group_no_group d d1 :
  wf (JObj d) -> strip_group d = Ok d1 ->
  forall p, lookup "vCardParams" d1 = Some (JObj p) -> lookup "group" p = None.
Proof.
  intros Hwf. unfold strip_group.
  destruct (lookup "vCardParams" d) as [[| | | | |p]|] eqn:El; try discriminate.
  - destruct (lookup "group" p) eqn:Eg.
    + pose proof (wf_lookup _ _ _ Hwf El) as Hp.
      apply wf_obj_inv in Hp as [Hndp _].
      pose proof (lookup_remove_same "group" p Hndp) as Hr.
      destruct (remove "group" p) as [|e p'] eqn:Er.
      * intros [= <-] q Hq. apply wf_obj_inv in Hwf as [Hnd _].
        rewrite (lookup_remove_same "vCardParams" d Hnd) in Hq. discriminate.
      * intros [= <-] q Hq. rewrite lookup_store, String.eqb_refl in Hq.
        injection Hq as <-. exact Hr.
    + intros [= <-] q Hq. rewrite El in Hq. injection Hq as <-. exact Eg.
  - intros [= <-] q Hq. congruence.
Qed.

Lemma strip_group_absent d d1 k :
  strip_group d = Ok d1 -> lookup k d = None -> lookup k d1 = None.
Proof.
  unfold strip_group.
  destruct (lookup "vCardParams" d) as [[| | | | |p]|] eqn:El; try discriminate;
    [|intros [= <-]; auto].
  destruct (lookup "group" p); [|intros [= <-]; auto].
  destruct (remove "group" p) as [|e p'].
  - intros [= <-]. apply lookup_None_remove.
  - intros [= <-] H. rewrite lookup_store.
    destruct (String.eqb k "vCardParams") eqn:E; [|exact H].
    apply String.eqb_eq in E. congruence.
Qed.

Lemma normalize_vcardparams_obj fuel d x' :
  normalize_vcardparams fuel (JObj d) = Ok x' ->
  exists fuel' d1 d2,
    fuel = S fuel' /\ strip_group d = Ok d1
    /\ mapM (on_value (normalize_vcardparams fuel')) d1 = Ok d2
    /\ x' = JObj d2.
Proof.
  destruct fuel as [|fuel']; [discriminate|]. cbn [normalize_vcardparams].
  destruct (strip_group d) as [d1|e]; cbn [bind]; [|discriminate].
  change (fun kv : string * json =>
            v <- normalize_vcardparams fuel' (snd kv) ;; Ok (fst kv, v))
    with (on_value (normalize_vcardparams fuel')).
  destruct (mapM _ d1) as [d2|e] eqn:Em; cbn [bind]; [|discriminate].
  intros [= <-]. exists fuel', d1, d2. auto.
Qed.

Lemma normalize_vcardparams_absent fuel p x' k :
  normalize_vcardparams fuel (JObj p) = Ok x' -> lookup k p = None ->
  exists p', x' = JObj p' /\ lookup k p' = None.
Proof.
  intros H Hk.
  apply normalize_vcardparams_obj in H as (fuel' & d1 & d2 & _ & Hs & Hm & ->).
  exists d2. split; [reflexivity|].
  apply lookup_None_keys. rewrite (mapM_on_value_keys _ _ _ Hm).
  apply lookup_None_keys. eapply strip_group_absent; eassumption.
Qed.

Lemma normalize_vcardparams_shape fuel x x' :
  normalize_vcardparams fuel x = Ok x' ->
  forall p', x' = JObj p' -> exists p, x = JObj p.
Proof.
  destruct fuel as [|fuel]; [discriminate|]. cbn [normalize_vcardparams].
  destruct x as [| | | |l|d]; try (intros [= <-]; discriminate).
  - destruct (mapM _ l); cbn [bind]; [|discriminate].
    intros [= <-]. discriminate.
  - eauto.
Qed.

(** Property X18.  [normalize_vcardparams] leaves no group parameter: in
    what it returns for a value whose maps have no key twice, no map has
    a [vCardParams] map with a [group] member, at any depth. *)
Theorem normalize_vcardparams_no_group (fuel : nat) :
  forall jsobj jsobj',
    wf jsobj -> normalize_vcardparams fuel jsobj = Ok jsobj' ->
    no_group jsobj'.
Proof.
  induction fuel as [|fuel IH]; intros x x' Hwf; [discriminate|].
  destruct x as [| | | |l|d];
    try (cbn [normalize_vcardparams]; intros [= <-]; constructor).
  - cbn [normalize_vcardparams].
    destruct (mapM _ l) as [l'|e] eqn:Em; cbn [bind]; [|discriminate].
    intros [= <-]. constructor. apply Forall_forall. intros y' Hy'.
    destruct (mapM_In _ _ _ _ Em Hy') as (y & Hy & Hf).
    apply (IH y y'); [|exact Hf].
    apply wf_list_inv in Hwf. rewrite Forall_forall in Hwf. apply Hwf, Hy.
  - intros H.
    apply normalize_vcardparams_obj in H as (fuel' & d1 & d2 & [= <-] & Hs & Hm & ->).
    pose proof (strip_group_wf _ _ Hwf Hs) as Hwf1.
    constructor.
    + intros p2 Hp2.
      destruct (mapM_on_value_lookup _ _ _ _ _ Hm Hp2) as (v1 & Hv1 & Hf).
      destruct (normalize_vcardparams_shape _ _ _ Hf p2 eq_refl) as (p1 & ->).
      pose proof (strip_group_no_group _ _ Hwf Hs p1 Hv1) as Hg.
      destruct (normalize_vcardparams_absent _ _ _ _ Hf Hg) as (p' & [= <-] & Hn).
      exact Hn.
    + apply Forall_forall. intros kv' Hkv'.
      destruct (mapM_on_value_In _ _ _ _ Hm Hkv') as (v & Hv & Hf).
      apply (IH v (snd kv')); [|exact Hf].
      apply wf_obj_inv in Hwf1 as [_ Hall]. rewrite Forall_forall in Hall.
      apply (Hall _ Hv).
Qed.

Lemma normalize_vcardparams_no_group_witness :
  no_group (JObj [("name", JObj [("vCardParams", JObj [("x", JStr "1")])])]).
Proof.
  apply (normalize_vcardparams_no_group 4
           (JObj [("name", JObj [("vCardParams",
                                  JObj [("group", JStr "g"); ("x", JStr "1")])]);
                  ("vCardParams", JObj [("group", JStr "h")])])).
  - repeat (constructor; simpl; try (intuition discriminate)).
  - reflexivity.
Defined.

(** ** What [match_jscard] does not compare *)

Lemma remove_absent {V} k (d : list (string * V)) :
  lookup k d = None -> remove k d = d.
Proof.
  induction d as [|[k0 v0] d IH]; cbn [lookup remove]; [reflexivity|].
  destruct (String.eqb k k0); [discriminate|]. intros H. rewrite (IH H).
  reflexivity.
Qed.

Lemma remove_app_last_same {V} k (v : V) d :
  lookup k d = None -> remove k (d ++ [(k, v)]) = d.
Proof.
  induction d as [|[k0 v0] d IH]; cbn [lookup remove app].
  - rewrite String.eqb_refl. reflexivity.
  - destruct (String.eqb k k0); [discriminate|]. intros H. rewrite (IH H).
    reflexivity.
Qed.

Lemma remove_app_last_other {V} k k' (v : V) d :
  k' <> k -> remove k' (d ++ [(k, v)]) = remove k' d ++ [(k, v)].
Proof.
  intros Hne. induction d as [|[k0 v0] d IH]; cbn [remove app].
  - apply String.eqb_neq in Hne. rewrite Hne. reflexivity.
  - destruct (String.eqb k' k0); [reflexivity|]. rewrite IH. reflexivity.
Qed.

Lemma pop_unwanted_absent key want have k :
  lookup k have = None -> lookup k (pop_unwanted key want have) = None.
Proof.
  unfold pop_unwanted. destruct (lookup key want); [auto|].
  apply lookup_None_remove.
Qed.

Lemma pop_unwanted_other key want have k v :
  key <> k ->
  pop_unwanted key want (have ++ [(k, v)])
  = pop_unwanted key want have ++ [(k, v)].
Proof.
  intros Hne. unfold pop_unwanted. destruct (lookup key want); [reflexivity|].
  apply remove_app_last_other, Hne.
Qed.

Lemma pop_unwanted_same want have k v :
  lookup k want = None -> lookup k have = None ->
  pop_unwanted k want (have ++ [(k, v)]) = pop_unwanted k want have.
Proof.
  intros Hw Hh. unfold pop_unwanted. rewrite Hw.
  rewrite (remove_absent _ _ Hh). apply remove_app_last_same, Hh.
Qed.

Lemma vendor_fold (want : list (string * json)) k (v : json) ks :
  forall have,
    ~ In k ks -> lookup k have = None ->
    let step := fun (have : list (string * json)) (prop : string) =>
                  if has_colon prop then
                    match lookup prop want with
                    | None => remove prop have
                    | Some _ => have
                    end
                  else have in
    fold_left step ks (have ++ [(k, v)]) = fold_left step ks have ++ [(k, v)]
    /\ lookup k (fold_left step ks have) = None.
Proof.
  induction ks as [|k0 ks IH]; intros have Hks Hk step; cbn [fold_left].
  - auto.
  - assert (Hne : k0 <> k) by (intros ->; apply Hks; left; reflexivity).
    assert (Hks' : ~ In k ks) by (intros H; apply Hks; right; exact H).
    assert (Hstep : step (have ++ [(k, v)]) k0 = step have k0 ++ [(k, v)]
                    /\ lookup k (step have k0) = None).
    { unfold step. destruct (has_colon k0); [|auto].
      destruct (lookup k0 want); [auto|]. split.
      - apply remove_app_last_other, Hne.
      - apply lookup_None_remove, Hk. }
    destruct Hstep as [-> Hk']. apply IH; assumption.
Qed.

Lemma remove_unknown_vendorprops_extra want have k v :
  has_colon k = true -> lookup k want = None -> lookup k have = None ->
  remove_unknown_vendorprops want (have ++ [(k, v)])
  = remove_unknown_vendorprops want have.
Proof.
  intros Hc Hw Hh. unfold remove_unknown_vendorprops, keys.
  rewrite map_app, fold_left_app. cbn [map fold_left fst].
  destruct (vendor_fold want k v (map fst have) have) as [-> Hk].
  - apply lookup_None_keys, Hh.
  - exact Hh.
  - rewrite Hc, Hw. apply remove_app_last_same, Hk.
Qed.

Lemma has_colon_optional k :
  has_colon k = true -> ~ In k optional_members.
Proof.
  intros Hc [<-|[<-|[<-|[<-|[]]]]]; discriminate Hc.
Qed.

(** Property X19.  [match_jscard] does not compare what the wanted card
    does not ask for: a member [created], [updated], [prodId] or
    [vCardProps], or a member whose name holds a colon, that the card
    received has and the wanted card has not, changes nothing of what
    [match_jscard] does. *)
Theorem match_jscard_ignores_member
  (fuel : nat) (want_card have_card : list (string * json))
  (k : string) (v : json) :
  In k optional_members \/ has_colon k = true ->
  lookup k want_card = None -> lookup k have_card = None ->
  match_jscard fuel want_card (have_card ++ [(k, v)])
  = match_jscard fuel want_card have_card.
Proof.
  intros Hk Hw Hh. unfold match_jscard.
  assert (E : remove_unknown_vendorprops want_card
                (pop_unwanted "vCardProps" want_card
                   (pop_unwanted "prodId" want_card
                      (pop_unwanted "updated" want_card
                         (pop_unwanted "created" want_card
                            (have_card ++ [(k, v)])))))
              = remove_unknown_vendorprops want_card
                  (pop_unwanted "vCardProps" want_card
                     (pop_unwanted "prodId" want_card
                        (pop_unwanted "updated" want_card
                           (pop_unwanted "created" want_card have_card))))).
  { destruct Hk as [[<-|[<-|[<-|[<-|[]]]]]|Hc].
    - rewrite pop_unwanted_same by assumption. reflexivity.
    - rewrite pop_unwanted_other by discriminate.
      rewrite pop_unwanted_same;
        [reflexivity|assumption|apply pop_unwanted_absent, Hh].
    - rewrite !pop_unwanted_other by discriminate.
      rewrite pop_unwanted_same;
        [reflexivity|assumption|repeat apply pop_unwanted_absent; exact Hh].
    - rewrite !pop_unwanted_other by discriminate.
      rewrite pop_unwanted_same;
        [reflexivity|assumption|repeat apply pop_unwanted_absent; exact Hh].
    - pose proof (has_colon_optional k Hc) as Hno.
      rewrite !pop_unwanted_other
        by (intros <-; apply Hno; unfold optional_members; simpl; tauto).
      apply remove_unknown_vendorprops_extra;
        [assumption|assumption|repeat apply pop_unwanted_absent; exact Hh]. }
  rewrite E. reflexivity.
Qed.

Lemma match_jscard_ignores_member_witness :
  match_jscard 1 [("uid", JStr "u")]
               ([("uid", JStr "u")] ++ [("example.com:x", JInt 1)])
  = match_jscard 1 [("uid", JStr "u")] [("uid", JStr "u")].
Proof.
  apply match_jscard_ignores_member.
  - right. reflexivity.
  - reflexivity.
  - reflexivity.
Defined.

(** ** The normalization keeps the keys of a map distinct *)

Lemma drop_version_props_wf d d' :
  wf (JObj d) -> drop_version_props d = Ok d' -> wf (JObj d').
Proof.
  intros Hwf H.
  destruct (drop_version_props_cases _ _ H)
    as [[_ ->]|[[_ ->]|(v & ps & props & Hl & Hi & Hf & Hne & ->)]].
  - exact Hwf.
  - apply wf_remove, Hwf.
  - apply wf_store; [exact Hwf|]. constructor.
    pose proof (proj1 (py_iter_members _ _ Hi) (wf_member _ _ _ Hwf Hl)) as Hps.
    rewrite Forall_forall in *. intros p Hp.
    apply Hps. eapply (proj2 (filterM_fixed _ _ _ Hf)), Hp.
Qed.

Lemma mapM_on_value_wf f d d' :
  (forall v v', wf v -> f v = Ok v' -> wf v') ->
  wf (JObj d) -> mapM (on_value f) d = Ok d' -> wf (JObj d').
Proof.
  intros Hf Hwf Hm. apply wf_obj_inv in Hwf as [Hnd Hall]. constructor.
  - rewrite (mapM_on_value_keys _ _ _ Hm). exact Hnd.
  - rewrite Forall_forall in *. intros kv' Hkv'.
    destruct (mapM_on_value_In _ _ _ _ Hm Hkv') as (v & Hv & Hfv).
    apply (Hf v); [|exact Hfv]. apply (Hall _ Hv).
Qed.

Lemma mapM_wf (f : json -> result json) l l' :
  (forall v v', wf v -> f v = Ok v' -> wf v') ->
  Forall wf l -> mapM f l = Ok l' -> Forall wf l'.
Proof.
  intros Hf Hl Hm. rewrite Forall_forall in *. intros y' Hy'.
  destruct (mapM_In _ _ _ _ Hm Hy') as (y & Hy & Hfy).
  apply (Hf y); [apply Hl, Hy|exact Hfy].
Qed.

Lemma normalize_vcardparams_wf fuel :
  forall x x', wf x -> normalize_vcardparams fuel x = Ok x' -> wf x'.
Proof.
  induction fuel as [|fuel IH]; intros x x' Hwf; [discriminate|].
  destruct x as [| | | |l|d];
    try (cbn [normalize_vcardparams]; intros [= <-]; exact Hwf).
  - cbn [normalize_vcardparams].
    destruct (mapM _ l) as [l'|e] eqn:Em; cbn [bind]; [|discriminate].
    intros [= <-]. constructor.
    eapply mapM_wf; [exact IH|apply wf_list_inv, Hwf|exact Em].
  - intros H.
    apply normalize_vcardparams_obj in H as (fuel' & d1 & d2 & [= <-] & Hs & Hm & ->).
    eapply mapM_on_value_wf; [exact IH|eapply strip_group_wf; eassumption|exact Hm].
Qed.

Lemma normalize_base_wf d base :
  wf (JObj d) -> normalize_base d = Ok base -> wf base.
Proof.
  intros Hwf. unfold normalize_base.
  destruct (remove_defaults default_values (JObj d)) as [x|e] eqn:ED; cbn [bind];
    [|discriminate].
  destruct (remove_defaults_shrink _ default_values_scalar _ _ Hwf ED) as [Hs _].
  pose proof (shrink_wf _ _ Hwf Hs) as Hx.
  destruct (remove_defaults_JObj _ _ _ ED) as (d1 & ->).
  destruct (sort_name d1) as [d2|e] eqn:EN; cbn [bind]; [|discriminate].
  pose proof (shrink_wf _ _ Hx (sort_name_shrink _ _ Hx EN)) as H2.
  destruct (sort_addresses d2) as [d3|e] eqn:EA; cbn [bind]; [|discriminate].
  pose proof (shrink_wf _ _ H2 (sort_addresses_shrink _ _ H2 EA)) as H3.
  destruct (drop_version_props d3) as [d4|e] eqn:EV; cbn [bind]; [|discriminate].
  pose proof (drop_version_props_wf _ _ H3 EV) as H4.
  apply normalize_vcardparams_wf, H4.
Qed.

Lemma Forall_list_set {A} (P : A -> Prop) l n x :
  Forall P l -> P x -> Forall P (list_set l n x).
Proof.
  intros Hl Hx. revert n. induction Hl as [|y l Hy Hl IH]; intros [|n]; simpl;
    constructor; auto.
Qed.

Lemma descend_wf path val :
  wf val -> forall x x', wf x -> descend x path val = Ok x' -> wf x'.
Proof.
  intros Hv. induction path as [|seg rest IH]; intros x x' Hwf; cbn [descend].
  - intros [= <-]. exact Hwf.
  - destruct x as [| | | |l|d]; try discriminate.
    + destruct (py_int seg) as [i|]; [|discriminate].
      destruct (list_pos l i) as [n|]; [|discriminate].
      destruct (nth_error l n) as [sub|] eqn:En; [|discriminate].
      destruct (descend sub rest val) as [sub'|e] eqn:Ed; cbn [bind];
        [|discriminate].
      intros [= <-]. apply wf_list_inv in Hwf. constructor.
      apply Forall_list_set; [exact Hwf|]. apply (IH sub); [|exact Ed].
      rewrite Forall_forall in Hwf. eapply Hwf, nth_error_In, En.
    + destruct (lookup seg d) as [sub|] eqn:El.
      * destruct (descend sub rest val) as [sub'|e] eqn:Ed; cbn [bind];
          [|discriminate].
        intros [= <-]. apply wf_store; [exact Hwf|].
        apply (IH sub); [|exact Ed]. eapply wf_member; eassumption.
      * destruct rest; [|discriminate]. intros [= <-].
        apply wf_store; assumption.
Qed.

Lemma apply_items_wf items :
  Forall (fun kv => wf (snd kv)) items ->
  forall x x', wf x -> apply_items x items = Ok x' -> wf x'.
Proof.
  induction 1 as [|[key val] items Hv Hi IH]; intros x x' Hwf.
  - intros [= <-]. exact Hwf.
  - rewrite apply_items_cons.
    destruct (descend x (split_char "/"%char key) val) as [x1|e] eqn:Ed;
      cbn [bind]; [|discriminate].
    apply IH. exact (descend_wf _ _ Hv _ _ Hwf Ed).
Qed.

Lemma read_wf loc : forall x v, wf x -> read x loc = Some v -> wf v.
Proof.
  induction loc as [|[k|n] loc IH]; intros x v Hwf; cbn [read].
  - intros [= <-]. exact Hwf.
  - destruct x as [| | | | |d]; try discriminate.
    destruct (lookup k d) as [sub|] eqn:El; [|discriminate].
    apply IH. eapply wf_member; eassumption.
  - destruct x as [| | | |l|]; try discriminate.
    destruct (nth_error l n) as [sub|] eqn:En; [|discriminate].
    apply IH. apply wf_list_inv in Hwf. rewrite Forall_forall in Hwf.
    eapply Hwf, nth_error_In, En.
Qed.

Lemma applied_wf items :
  Forall (fun kv => wf (snd kv)) items ->
  forall x card done rest,
    wf x -> applied x items = (card, done, rest) ->
    wf card
    /\ Forall (fun entry : string * json * option (list step) =>
                 wf (snd (fst entry))) done
    /\ Forall (fun kv => wf (snd kv)) rest
    /\ map (fun entry : string * json * option (list step) => fst (fst entry)) done
         ++ keys rest
       = keys items.
Proof.
  induction 1 as [|[key val] items Hv Hi IH]; intros x card done rest Hwf;
    cbn [applied].
  - intros [= <- <- <-]. repeat split; auto.
  - destruct (descend x (split_char "/"%char key) val) as [x1|e] eqn:Ed.
    + destruct (applied x1 items) as [[card1 done1] rest1] eqn:Ea.
      intros [= <- <- <-].
      destruct (IH _ _ _ _ (descend_wf _ _ Hv _ _ Hwf Ed) Ea) as (H1 & H2 & H3 & H4).
      split; [exact H1|]. split; [constructor; assumption|].
      split; [exact H3|]. cbn [map app fst keys]. f_equal. exact H4.
    + intros [= <- <- <-]. split; [exact Hwf|]. split; [constructor|].
      split; [constructor; assumption|reflexivity].
Qed.

Lemma patch_after_wf jscard pobj :
  wf jscard -> wf pobj -> wf (patch_after jscard pobj).
Proof.
  intros Hc Hp. unfold patch_after. destruct pobj as [| | | | |items]; try exact Hp.
  apply wf_obj_inv in Hp as [Hnd Hall].
  destruct (applied jscard items) as [[card done] rest] eqn:Ea.
  destruct (applied_wf items Hall _ _ _ _ Hc Ea) as (H1 & H2 & H3 & H4).
  constructor.
  - unfold keys in *. rewrite map_app, map_map.
    rewrite <- H4 in Hnd.
    erewrite map_ext; [exact Hnd|]. intros [[key val] loc]. reflexivity.
  - apply Forall_app. split; [|exact H3].
    apply Forall_map. eapply Forall_impl; [|exact H2].
    intros [[key val] loc] Hv. cbn [fst snd] in *.
    destruct loc as [l|]; [|exact Hv].
    destruct (read card l) as [shared|] eqn:Er; [|exact Hv].
    exact (read_wf _ _ _ H1 Er).
Qed.

Lemma normalize_jscard_wf fuel :
  forall card card', wf card -> normalize_jscard fuel card = Ok card' -> wf card'.
Proof.
  induction fuel as [|fuel IH]; intros card card' Hwf; [discriminate|].
  cbn [normalize_jscard]. destruct card as [| | | | |d]; try discriminate.
  set (d0 := match lookup "localizations" d with
             | Some _ => remove "localizations" d
             | None => d
             end).
  assert (Hwf0 : wf (JObj d0)).
  { unfold d0. destruct (lookup "localizations" d); [apply wf_remove|]; exact Hwf. }
  destruct (normalize_base d0) as [base|e] eqn:Eb; cbn [bind]; [|discriminate].
  pose proof (normalize_base_wf _ _ Hwf0 Eb) as Hbase.
  destruct (truthy (get "localizations" d)) eqn:Et; [|intros [= <-]; exact Hbase].
  unfold get in *. destruct (lookup "localizations" d) as [locs|] eqn:El;
    [|discriminate].
  destruct locs as [| | | | |locs]; try discriminate.
  destruct base as [| | | | |dbase]; try discriminate.
  pose proof (wf_member _ _ _ Hwf El) as Hlocs.
  destruct (mapM _ locs) as [locs'|e] eqn:Em; cbn [bind]; [|discriminate].
  intros [= <-]. apply wf_store; [exact Hbase|].
  refine (mapM_on_value_wf
            (fun v => except_ValueError
                        (patched_jscard <- apply_patchobject (JObj dbase) v ;;
                         normalize_jscard fuel patched_jscard)
                        (patch_after (JObj dbase) v))
            locs locs' _ Hlocs Em).
  intros v v' Hv. unfold except_ValueError.
  destruct (apply_patchobject (JObj dbase) v) as [patched|e] eqn:Ea; cbn [bind].
  - destruct (normalize_jscard fuel patched) as [r|e] eqn:En.
    + intros [= <-]. apply (IH patched); [|exact En].
      unfold apply_patchobject in Ea. destruct v as [| | | | |items]; try discriminate.
      eapply apply_items_wf; [|exact Hbase|exact Ea].
      apply wf_obj_inv in Hv. apply Hv.
    + destruct e; try discriminate. intros [= <-].
      apply patch_after_wf; assumption.
  - destruct e; try discriminate. intros [= <-].
    apply patch_after_wf; assumption.
Qed.

(** ** A card against itself *)

Lemma py_eq_refl_scalar a : is_scalar a -> py_eq a a = true.
Proof.
  destruct a as [|b|z|s| |]; cbn [is_scalar py_eq]; try contradiction; intros _.
  - reflexivity.
  - destruct b; reflexivity.
  - apply Z.eqb_refl.
  - apply String.eqb_refl.
Qed.

Lemma diff_pair_refl a : forall segs, wf a -> diff_pair a a segs = [].
Proof.
  induction a as [|bo|z|s|la IH|da IH] using json_induction; intros segs Hwf;
    try (cbn [diff_pair]; rewrite py_eq_refl_scalar by exact I; reflexivity).
  - cbn [diff_pair]. rewrite Nat.eqb_refl. cbn [negb].
    apply wf_list_inv in Hwf. generalize 0 as i.
    induction la as [|x la IHla]; intros i; [reflexivity|].
    inversion IH as [|? ? IHx IHr]; subst. inversion Hwf as [|? ? Hx Hr]; subst.
    rewrite (IHx _ Hx), (IHla IHr Hr). reflexivity.
  - change (diff_pair (JObj da) (JObj da) segs) with (diff_objs da da segs).
    rewrite diff_objs_loops.
    apply wf_obj_inv in Hwf as [Hnd Hall].
    assert (Hkeys : Forall (fun kv : string * json => lookup (fst kv) da <> None) da).
    { apply Forall_forall. intros [k v] Hin. cbn [fst].
      rewrite (In_lookup _ _ _ Hnd Hin). discriminate. }
    rewrite (proj2 (missing_diffs_nil da segs da) Hkeys).
    rewrite (proj2 (unexpected_diffs_nil da segs da) Hkeys).
    cbn [app]. apply shared_diffs_nil.
    rewrite Forall_forall in *. intros [k v] Hin v' Hl. cbn [fst snd] in *.
    rewrite (In_lookup _ _ _ Hnd Hin) in Hl. injection Hl as <-.
    apply (IH (k, v) Hin). apply (Hall (k, v) Hin).
Qed.

Lemma normalize_base_JObj d base :
  normalize_base d = Ok base -> exists db, base = JObj db.
Proof.
  unfold normalize_base.
  destruct (remove_defaults default_values (JObj d)) as [x|e] eqn:ED; cbn [bind];
    [|discriminate].
  destruct (remove_defaults_JObj _ _ _ ED) as (d1 & ->).
  destruct (sort_name d1) as [d2|e]; cbn [bind]; [|discriminate].
  destruct (sort_addresses d2) as [d3|e]; cbn [bind]; [|discriminate].
  destruct (drop_version_props d3) as [d4|e]; cbn [bind]; [|discriminate].
  intros H. apply normalize_vcardparams_obj in H as (? & ? & d5 & _ & _ & _ & ->).
  eauto.
Qed.

Lemma normalize_jscard_JObj fuel d n :
  normalize_jscard fuel (JObj d) = Ok n -> exists dn, n = JObj dn.
Proof.
  destruct fuel as [|fuel]; [discriminate|]. cbn [normalize_jscard].
  destruct (normalize_base _) as [base|e] eqn:Eb; cbn [bind]; [|discriminate].
  destruct (normalize_base_JObj _ _ Eb) as (db & ->).
  destruct (truthy _); [|intros [= <-]; eauto].
  destruct (get "localizations" d); try discriminate.
  destruct (mapM _ _); cbn [bind]; [|discriminate].
  intros [= <-]. eauto.
Qed.

Lemma pop_unwanted_self key card : pop_unwanted key card card = card.
Proof.
  unfold pop_unwanted. destruct (lookup key card) eqn:E; [reflexivity|].
  apply remove_absent, E.
Qed.

Lemma remove_unknown_vendorprops_self card :
  remove_unknown_vendorprops card card = card.
Proof.
  unfold remove_unknown_vendorprops.
  assert (H : forall ks have,
             (forall k, In k ks -> lookup k card <> None) ->
             fold_left (fun (have : list (string * json)) (prop : string) =>
                          if has_colon prop then
                            match lookup prop card with
                            | None => remove prop have
                            | Some _ => have
                            end
                          else have) ks have = have).
  { induction ks as [|k ks IH]; intros have Hks; cbn [fold_left]; [reflexivity|].
    destruct (has_colon k).
    - destruct (lookup k card) eqn:E.
      + apply IH. intros k' Hk'. apply Hks. right. exact Hk'.
      + exfalso. apply (Hks k); [left; reflexivity|exact E].
    - apply IH. intros k' Hk'. apply Hks. right. exact Hk'. }
  apply H. intros k Hk Hn. apply lookup_None_keys in Hn. contradiction.
Qed.

(** Property X20.  A card matches itself: for a card whose maps have no
    key twice, [match_jscard] of the card against itself returns when
    [normalize_jscard] returns for the card, and raises what
    [normalize_jscard] raises otherwise; it never raises
    [MatchJSCardError]. *)
Theorem match_jscard_reflexive (fuel : nat) (card : list (string * json)) :
  wf (JObj card) ->
  match_jscard fuel card card
  = match normalize_jscard fuel (JObj card) with
    | Ok _ => Matches
    | Raise e => Fails e
    end.
Proof.
  intros Hwf. unfold match_jscard.
  rewrite !pop_unwanted_self, remove_unknown_vendorprops_self.
  destruct (normalize_jscard fuel (JObj card)) as [n|e] eqn:En; [|reflexivity].
  destruct (normalize_jscard_JObj _ _ _ En) as (dn & ->).
  unfold diff_objs.
  rewrite (diff_pair_refl (JObj dn) [] (normalize_jscard_wf _ _ _ Hwf En)).
  reflexivity.
Qed.

Lemma match_jscard_reflexive_witness :
  match_jscard 2
    [("name", JObj [("full", JStr "A")]);
     ("localizations", JObj [("de", JObj [("name/given", JStr "B")])])]
    [("name", JObj [("full", JStr "A")]);
     ("localizations", JObj [("de", JObj [("name/given", JStr "B")])])]
  = match normalize_jscard 2
            (JObj [("name", JObj [("full", JStr "A")]);
                   ("localizations",
                    JObj [("de", JObj [("name/given", JStr "B")])])]) with
    | Ok _ => Matches
    | Raise e => Fails e
    end.
Proof.
  apply match_jscard_reflexive.
  repeat (constructor; simpl; try (intuition discriminate)).
Defined.

(** ** What the applier and the matcher raise *)

Lemma descend_raises path val :
  forall x e, descend x path val = Raise e -> e = ValueError \/ e = TypeError.
Proof.
  induction path as [|seg rest IH]; intros x e; cbn [descend]; [discriminate|].
  destruct x as [| | | |l|d]; try (intros [= <-]; auto).
  - destruct (py_int seg) as [i|]; [|intros [= <-]; auto].
    destruct (list_pos l i) as [n|]; [|intros [= <-]; auto].
    destruct (nth_error l n) as [sub|]; [|intros [= <-]; auto].
    destruct (descend sub rest val) as [sub'|e'] eqn:Ed; cbn [bind];
      [discriminate|].
    intros [= <-]. eapply IH, Ed.
  - destruct (lookup seg d) as [sub|].
    + destruct (descend sub rest val) as [sub'|e'] eqn:Ed; cbn [bind];
        [discriminate|].
      intros [= <-]. eapply IH, Ed.
    + destruct rest; [discriminate|]. intros [= <-]. auto.
Qed.

(** Property X21.  [apply_patchobject] turns a missing key and a bad list
    index into [ValueError]: what it raises is [ValueError], or
    [TypeError] when the path goes into a value that is no map and no
    list, or [AttributeError] when the patch is no map; it raises no
    [KeyError] and no [IndexError]. *)
Theorem apply_patchobject_raises (jscard pobj : json) (e : exn) :
  apply_patchobject jscard pobj = Raise e ->
  e = ValueError \/ e = TypeError
  \/ (e = AttributeError /\ forall items, pobj <> JObj items).
Proof.
  unfold apply_patchobject.
  destruct pobj as [| | | | |items];
    try (intros [= <-]; right; right; split; [reflexivity|discriminate]).
  assert (H : forall x, apply_items x items = Raise e ->
                        e = ValueError \/ e = TypeError).
  { induction items as [|[key val] items IH]; intros x; [discriminate|].
    rewrite apply_items_cons.
    destruct (descend x (split_char "/"%char key) val) as [j|e'] eqn:Ed;
      cbn [bind].
    - apply IH.
    - intros [= <-]. exact (descend_raises _ _ _ _ Ed). }
  intros Ha. destruct (H _ Ha); auto.
Qed.

Lemma apply_patchobject_raises_witness :
  ValueError = ValueError \/ ValueError = TypeError
  \/ (ValueError = AttributeError
      /\ forall items, JObj [("a/b", JInt 1)] <> JObj items).
Proof.
  apply (apply_patchobject_raises (JObj []) (JObj [("a/b", JInt 1)])).
  reflexivity.
Defined.

(** Property X22.  [match_jscard] raises no [ValueError]: the
    [ValueError] of a patch is caught inside [normalize_jscard], which
    raises none of its own, and the differ raises nothing. *)
Theorem match_jscard_raises_no_ValueError
  (fuel : nat) (want_card have_card : list (string * json)) :
  match_jscard fuel want_card have_card <> Fails ValueError.
Proof.
  unfold match_jscard. set (have' := remove_unknown_vendorprops _ _).
  destruct (normalize_jscard fuel (JObj want_card)) as [w|e] eqn:Ew.
  - destruct (normalize_jscard fuel (JObj have')) as [h|e] eqn:Eh.
    + destruct w, h; try discriminate. destruct (diff_objs _ _ _); discriminate.
    + intros [= ->]. exact (normalize_jscard_no_ValueError _ _ Eh).
  - intros [= ->]. exact (normalize_jscard_no_ValueError _ _ Ew).
Qed.

Import Tests.

(** ** Running a test case *)

Lemma run_sent_jscard self backend uuid4 fuel :
  sent_jscard (run self backend uuid4 fuel)
  = set_missing "version" (JStr "1.0")
      (set_missing "uid" (JStr uuid4)
         (set_missing "@type" (JStr "Card") (jprops self))).
Proof.
  unfold run, run_to_vcard, run_from_vcard.
  destruct (skip_to_vcard self); [reflexivity|].
  destruct (to_vcard_reply backend _) as [vcard| |];
    destruct (expects_invalid self); cbn;
    try destruct (match_vcard _ _ _); cbn;
    try destruct (skip_from_vcard self); cbn;
    try destruct (to_jscard_reply backend _); cbn;
    try destruct (match_jscard _ _ _); reflexivity.
Qed.

(** Property X25.  What makes a test a success: [run] gives a result for
    which [is_success] holds exactly when the vCard direction is not
    skipped and either the test expects an invalid card and the backend
    raises [InvalidCardError], or it expects none, the backend returns a
    vCard on which [match_vcard] returns, and the other direction is
    skipped or the backend returns for that vCard a card on which
    [match_jscard] returns.  A test that skips the vCard direction is no
    success. *)
Theorem run_success_iff
  (self : TestCase) (backend : Backend) (uuid4 : string) (fuel : nat) :
  let result := run self backend uuid4 fuel in
  is_success result = true
  <-> skip_to_vcard self = false
      /\ ((expects_invalid self = true
           /\ to_vcard_reply backend (sent_jscard result) = RaisedInvalidCardError)
          \/ (expects_invalid self = false
              /\ exists vcard,
                   to_vcard_reply backend (sent_jscard result) = Returned vcard
                   /\ match_vcard vcard (matches self) default_matches = Returns
                   /\ (skip_from_vcard self = true
                       \/ exists got,
                            to_jscard_reply backend vcard = Returned got
                            /\ match_jscard fuel (sent_jscard result) got
                               = Matches))).
Proof.
  cbv zeta. rewrite run_sent_jscard.
  set (jscard := set_missing "version" _ _).
  unfold run, run_to_vcard, run_from_vcard. fold jscard.
  assert (no : forall (vcard : string) (P : Prop),
             (forall got, to_jscard_reply backend vcard = Returned got ->
                          match_jscard fuel jscard got = Matches -> False) ->
             expects_invalid self = false ->
             skip_from_vcard self = false ->
             to_vcard_reply backend jscard = Returned vcard ->
             false = true
             <-> P /\ ((expects_invalid self = true
                        /\ to_vcard_reply backend jscard = RaisedInvalidCardError)
                       \/ (expects_invalid self = false
                           /\ exists vcard0,
                                to_vcard_reply backend jscard = Returned vcard0
                                /\ match_vcard vcard0 (matches self)
                                     default_matches = Returns
                                /\ (skip_from_vcard self = true
                                    \/ exists got,
                                         to_jscard_reply backend vcard0
                                         = Returned got
                                         /\ match_jscard fuel jscard got
                                            = Matches)))).
  { intros vcard P Hno Ei Es Er. split; [discriminate|].
    intros [_ [[H _]|[_ (v & Hv & _ & Hf)]]]; [congruence|].
    rewrite Er in Hv. injection Hv as <-.
    destruct Hf as [H|(g & Hg & Hmj)]; [congruence|].
    destruct (Hno g Hg Hmj). }
  destruct (skip_to_vcard self).
  { cbn. split; [discriminate|]. intros [H _]. discriminate H. }
  destruct (to_vcard_reply backend jscard) as [vcard| |] eqn:Er;
    destruct (expects_invalid self) eqn:Ei; cbn [negb].
  - cbn. split; [discriminate|].
    intros [_ [[_ H]|[H _]]]; discriminate H.
  - destruct (match_vcard vcard (matches self) default_matches) eqn:Em; cbn.
    + destruct (skip_from_vcard self) eqn:Es; cbn.
      * split; [|reflexivity]. intros _. split; [reflexivity|]. right.
        split; [reflexivity|]. exists vcard. auto.
      * destruct (to_jscard_reply backend vcard) as [got| |] eqn:Ej; cbn.
        -- destruct (match_jscard fuel jscard got) eqn:Emj; cbn.
           ++ split; [|reflexivity]. intros _. split; [reflexivity|]. right.
              split; [reflexivity|]. exists vcard. split; [reflexivity|].
              split; [exact Em|]. right. exists got. auto.
           ++ apply (no vcard); auto. intros g Hg Hmj. congruence.
           ++ apply (no vcard); auto. intros g Hg Hmj. congruence.
        -- apply (no vcard); auto. intros g Hg Hmj. congruence.
        -- apply (no vcard); auto. intros g Hg Hmj. congruence.
    + split; [discriminate|].
      intros [_ [[H _]|[_ (v & Hv & H & _)]]]; [congruence|].
      injection Hv as <-. congruence.
    + split; [discriminate|].
      intros [_ [[H _]|[_ (v & Hv & H & _)]]]; [congruence|].
      injection Hv as <-. congruence.
  - cbn. split; [|reflexivity]. intros _. split; [reflexivity|]. left. auto.
  - cbn. split; [discriminate|].
    intros [_ [[H _]|[_ (v & H & _)]]]; discriminate H.
  - cbn. split; [discriminate|].
    intros [_ [[_ H]|[H _]]]; discriminate H.
  - cbn. split; [discriminate|].
    intros [_ [[H _]|[_ (v & H & _)]]]; discriminate H.
Qed.
